(** * Prototype multiple dispatch (js-pmd): a shallow embedding of [index.js]

    The development follows [src/index.js]: the module-level [gensym], the
    root constructor [ANY], and the closure built by [procedure(name)] with
    its functions [get_table], [method], [lookup] and [dispatch].

    Modelling decisions (the JavaScript environment, not the program):
    - a JavaScript value is a primitive or a reference into a heap of
      objects; an object has a [[Prototype]] link, own data properties, an
      extensibility flag and, when it is an array, its elements;
    - the role tables ([{}]) and the lists of method names ([[]]) that the
      program creates are objects of that heap, allocated at a fresh address:
      [table[rolename]] is an ordinary property read along the prototype
      chain, [table[rolename] = []] an ordinary strict-mode assignment, and
      [__roles__] an ordinary own property written by [defineProperty];
    - [STRINGS] is private to the closure, so it is a finite map of its own
      properties, read as JavaScript reads a [{}]: a key it does not own is
      looked up on [Object.prototype] (as [value in STRINGS] and
      [STRINGS[value]] do), where [__proto__] is the accessor that returns
      the prototype of the receiver;
    - [NUMBERS], [METHODS] and [ranks] are finite maps of their own
      properties: their keys are numerals and generated names (ending in [_]
      and a counter), which neither name a standard property of
      [Object.prototype] nor a property the program writes on any object
      (these are [__roles__] and the role names, ending in [:] and a
      position);
    - numbers are the integer-valued ones (their keys in [NUMBERS] are then
      in bijection with the numbers themselves);
    - properties are plain writable data properties (no proxies, no setters),
      [hasOwnProperty], when it resolves to a function, is the built-in one,
      and [forEach] and [push] are the built-in ones of arrays;
    - method bodies are total functions from the argument list to a value. *)

From stdpp Require Import gmap strings list fin_maps pretty.
From Stdlib Require Import ZArith Lia.

(** ** Values, objects and the heap *)

Definition loc := positive.

Inductive value :=
  | VUndef
  | VNull
  | VBool (b : bool)
  | VNum (n : Z)
  | VStr (s : string)
  | VRef (l : loc).

Global Instance value_eq_dec : EqDecision value.
Proof. solve_decision. Defined.

(** [o_items] is [Some] for an array: the method names pushed onto it, in
    order. *)
Record object := Object {
  o_proto : option loc;
  o_callable : bool;
  o_extensible : bool;
  o_props : gmap string value;
  o_items : option (list string)
}.

Abbreviation heap := (gmap loc object).

(** The built-in objects the program reaches, at fixed addresses. *)
Module Realm.
Definition ObjectPrototype : loc := 1%positive.
Definition FunctionPrototype : loc := 2%positive.
Definition Object : loc := 3%positive.
Definition Function : loc := 4%positive.
Definition StringPrototype : loc := 5%positive.
Definition String : loc := 6%positive.
Definition NumberPrototype : loc := 7%positive.
Definition Number : loc := 8%positive.
Definition BooleanPrototype : loc := 9%positive.
Definition Boolean : loc := 10%positive.
Definition hasOwnProperty : loc := 11%positive.
(** [function ANY() {}] and [ANY.prototype = {}] *)
Definition ANY : loc := 12%positive.
Definition ANYPrototype : loc := 13%positive.
Definition ArrayPrototype : loc := 14%positive.
Definition Array : loc := 15%positive.
(** The other functions of [Object.prototype]. *)
Definition toString : loc := 40%positive.
Definition toLocaleString : loc := 41%positive.
Definition valueOf : loc := 42%positive.
Definition isPrototypeOf : loc := 43%positive.
Definition propertyIsEnumerable : loc := 44%positive.
Definition defineGetter : loc := 45%positive.
Definition defineSetter : loc := 46%positive.
Definition lookupGetter : loc := 47%positive.
Definition lookupSetter : loc := 48%positive.
End Realm.

(** ** Exceptions *)

Inductive exn :=
  | TypeError
  | NoApplicableMethod.   (* throw "No applicable method found" *)

Inductive result (A : Type) :=
  | Ok (a : A)
  | Throw (e : exn).
Arguments Ok {A} a.
Arguments Throw {A} e.

Definition bind {A B} (r : result A) (k : A -> result B) : result B :=
  match r with
  | Ok a => k a
  | Throw e => Throw e
  end.

Declare Scope js_scope.
Delimit Scope js_scope with js.
Notation "'do' x <- c ; k" := (bind c (fun x => k))
  (at level 10, x pattern, c at level 100, k at level 200) : js_scope.
Open Scope js_scope.

(** ** Property access *)

(** First object on the prototype chain of [l] on which [f] is defined.
    Prototype chains of a JavaScript heap are acyclic, so a chain has at most
    [size h] objects: [fuel] is instantiated with that bound. *)
Fixpoint chain_find {A} (f : object -> option A) (fuel : nat) (h : heap)
    (l : loc) : option (loc * A) :=
  match fuel with
  | O => None
  | S fuel' =>
      match h !! l with
      | None => None
      | Some o =>
          match f o with
          | Some a => Some (l, a)
          | None =>
              match o_proto o with
              | Some p => chain_find f fuel' h p
              | None => None
              end
          end
      end
  end.

Definition get_from (h : heap) (l : loc) (name : string) : value :=
  match chain_find (fun o => o_props o !! name) (size h) h l with
  | Some (_, v) => v
  | None => VUndef
  end.

(** [v.name]: primitives read through their wrapper's prototype; reading a
    property of [null] or [undefined] is a TypeError. *)
Definition get_prop (h : heap) (v : value) (name : string) : result value :=
  match v with
  | VUndef | VNull => Throw TypeError
  | VBool _ => Ok (get_from h Realm.BooleanPrototype name)
  | VNum _ => Ok (get_from h Realm.NumberPrototype name)
  | VStr _ => Ok (get_from h Realm.StringPrototype name)
  | VRef l => Ok (get_from h l name)
  end.

Definition is_callable (h : heap) (v : value) : bool :=
  match v with
  | VRef f => match h !! f with Some o => o_callable o | None => false end
  | _ => false
  end.

(** The built-in [hasOwnProperty]. *)
Definition has_own (h : heap) (l : loc) (name : string) : bool :=
  match h !! l with
  | Some o => bool_decide (is_Some (o_props o !! name))
  | None => false
  end.

(** Truthiness, as [!v], [v && ...] and [if (v)] test it. *)
Definition truthy (v : value) : bool :=
  match v with
  | VUndef | VNull => false
  | VBool b => b
  | VNum n => negb (n =? 0)%Z
  | VStr s => negb (bool_decide (s = ""))
  | VRef _ => true
  end.

(** What a [{}] inherits under the key [key]: the property of that name on
    [Object.prototype] or above it, if there is one.  [__proto__] is the
    accessor of [Object.prototype], which returns the prototype of the
    receiver: for a [{}] that is [Object.prototype] itself. *)
Definition inherited (h : heap) (key : string) : option value :=
  match chain_find (fun o => o_props o !! key) (size h) h
          Realm.ObjectPrototype with
  | Some (_, v) =>
      Some (if decide (key = "__proto__") then VRef Realm.ObjectPrototype
            else v)
  | None => None
  end.

(** ** Allocation and assignment *)

(** A fresh address: one above the addresses in use and above the
    addresses of the built-in objects. *)
Definition fresh_loc (h : heap) : loc :=
  Pos.succ (foldr Pos.max Realm.lookupSetter (map_to_list h).*1).

Definition alloc (h : heap) (o : object) : loc * heap :=
  (fresh_loc h, <[fresh_loc h := o]> h).

(** [{}] and [[]] *)
Definition empty_object : object :=
  Object (Some Realm.ObjectPrototype) false true ∅ None.
Definition empty_array : object :=
  Object (Some Realm.ArrayPrototype) false true ∅ (Some []).

Definition set_props (o : object) (props : gmap string value) : object :=
  Object (o_proto o) (o_callable o) (o_extensible o) props (o_items o).
Definition set_items (o : object) (items : list string) : object :=
  Object (o_proto o) (o_callable o) (o_extensible o) (o_props o) (Some items).

Definition set_own (h : heap) (l : loc) (name : string) (v : value) : heap :=
  alter (fun o => set_props o (<[name := v]> (o_props o))) l h.

(** [target[name] = v] in strict mode: an own property is overwritten, a
    new one needs an extensible object, and a primitive target is a
    TypeError. *)
Definition assign (h : heap) (target : value) (name : string) (v : value)
    : result heap :=
  match target with
  | VRef l =>
      match h !! l with
      | Some o =>
          if bool_decide (is_Some (o_props o !! name)) || o_extensible o
          then Ok (set_own h l name v)
          else Throw TypeError
      | None => Throw TypeError
      end
  | _ => Throw TypeError
  end.

(** [Object.defineProperty(value, name, {value: v, enumerable: false})] for
    a property [value] does not own. *)
Definition define_property (h : heap) (l : loc) (name : string) (v : value)
    : result heap :=
  match h !! l with
  | Some o =>
      if o_extensible o then Ok (set_own h l name v) else Throw TypeError
  | None => Throw TypeError
  end.

(** [arr.push(m)]: only an array has [push], and it must be extensible. *)
Definition push_item (h : heap) (arr : value) (m : string) : result heap :=
  match arr with
  | VRef a =>
      match h !! a with
      | Some o =>
          match o_items o with
          | Some ms =>
              if o_extensible o then Ok (<[a := set_items o (ms ++ [m])]> h)
              else Throw TypeError
          | None => Throw TypeError
          end
      | None => Throw TypeError
      end
  | _ => Throw TypeError
  end.

(** The elements [methods.forEach] iterates over: only an array has
    [forEach]. *)
Definition items_of (h : heap) (methods : value)
    : result (list string) :=
  match methods with
  | VRef a =>
      match h !! a ≫= o_items with
      | Some ms => Ok ms
      | None => Throw TypeError
      end
  | _ => Throw TypeError
  end.

(** ** gensym *)

Definition gensym (name : string) (gensym_counter : nat) : string * nat :=
  (name +:+ "_" +:+ pretty gensym_counter, S gensym_counter).

(** ** The closure state of one procedure *)

Definition body := list value -> value.

(** [STRINGS] and [NUMBERS] hold the tables created for strings and
    numbers; the three fixed tables are the objects allocated by
    [procedure]. *)
Record proc := Proc {
  name : string;
  selector : string;
  METHODS : gmap string body;
  STRINGS : gmap string value;
  NUMBERS : gmap Z value;
  TRUE_TABLE : value;
  FALSE_TABLE : value;
  NULL_TABLE : value
}.

Definition set_STRINGS (p : proc) (m : gmap string value) : proc :=
  Proc (name p) (selector p) (METHODS p) m (NUMBERS p)
       (TRUE_TABLE p) (FALSE_TABLE p) (NULL_TABLE p).
Definition set_NUMBERS (p : proc) (m : gmap Z value) : proc :=
  Proc (name p) (selector p) (METHODS p) (STRINGS p) m
       (TRUE_TABLE p) (FALSE_TABLE p) (NULL_TABLE p).
Definition set_METHODS (p : proc) (m : gmap string body) : proc :=
  Proc (name p) (selector p) m (STRINGS p) (NUMBERS p)
       (TRUE_TABLE p) (FALSE_TABLE p) (NULL_TABLE p).

(** ** get_table *)

(** [get_table(value, create)]: the value it returns (a role table, or
    [false], or [undefined], or whatever [STRINGS[value]] inherits).  The
    state is returned because [create] may allocate a table. *)
Definition table_result : Type := proc * heap * value.

Definition get_table (p : proc) (h : heap) (value : value) (create : bool)
    : result table_result :=
  match value with
  | VStr s =>
      match STRINGS p !! s with
      | Some table => Ok (p, h, table)
      | None =>
          (* value in STRINGS also sees what STRINGS inherits *)
          match inherited h s with
          | Some v => Ok (p, h, v)
          | None =>
              if create
              then let '(t, h') := alloc h empty_object in
                   Ok (set_STRINGS p (<[s := VRef t]> (STRINGS p)), h',
                       VRef t)
              else Ok (p, h, VBool false)
          end
      end
  | VNum n =>
      match NUMBERS p !! n with
      | Some table => Ok (p, h, table)
      | None =>
          if create
          then let '(t, h') := alloc h empty_object in
               Ok (set_NUMBERS p (<[n := VRef t]> (NUMBERS p)), h', VRef t)
          else Ok (p, h, VBool false)
      end
  | VBool b => Ok (p, h, if b then TRUE_TABLE p else FALSE_TABLE p)
  | VNull => Ok (p, h, NULL_TABLE p)
  | VUndef => Throw TypeError          (* undefined.hasOwnProperty *)
  | VRef l =>
      do hop <- get_prop h value "hasOwnProperty";
      if negb (is_callable h hop) then Throw TypeError
      else
        let hasRoles := has_own h l "__roles__" in
        do h' <-
          (if create && negb hasRoles
           then let '(t, h1) := alloc h empty_object in
                define_property h1 l "__roles__" (VRef t)
           else Ok h);
        Ok (p, h', get_from h' l "__roles__")
  end.

(** ** procedure and method *)

(** [procedure(name)]: a fresh selector, empty dictionaries and three fresh
    empty tables. *)
Definition procedure (name : string) (gensym_counter : nat) (h : heap)
    : proc * nat * heap :=
  let '(selector, c) := gensym name gensym_counter in
  let '(t, h1) := alloc h empty_object in
  let '(f, h2) := alloc h1 empty_object in
  let '(n, h3) := alloc h2 empty_object in
  (Proc name selector ∅ ∅ ∅ (VRef t) (VRef f) (VRef n), c, h3).

Definition rolename (p : proc) (i : nat) : string :=
  selector p +:+ ":" +:+ pretty i.

(** One iteration of the loop of [method]:
    [table = get_table(arg, true); if (!table[rolename]) table[rolename] = [];
     table[rolename].push(methodname)]. *)
Definition method_step (methodname : string) (i : nat) (arg : value)
    (p : proc) (h : heap) : result (proc * heap) :=
  do (p1, h1, table) <- get_table p h arg true;
  do methods <- get_prop h1 table (rolename p i);
  do h2 <-
    (if truthy methods then Ok h1
     else let '(a, h1') := alloc h1 empty_array in
          assign h1' table (rolename p i) (VRef a));
  do methods' <- get_prop h2 table (rolename p i);
  do h3 <- push_item h2 methods' methodname;
  Ok (p1, h3).

(** The loop of [method] over the specialisers, from position [i] on.  A
    throw leaves the registrations made so far in place, so the state reached
    is returned with the exception (an iteration that throws has changed
    nothing the program can reach). *)
Fixpoint method_loop (methodname : string) (i : nat) (specs : list value)
    (p : proc) (h : heap) : proc * heap * option exn :=
  match specs with
  | [] => (p, h, None)
  | arg :: specs' =>
      match method_step methodname i arg p h with
      | Throw e => (p, h, Some e)
      | Ok (p2, h2) => method_loop methodname (S i) specs' p2 h2
      end
  end.

(** [method(spec_0, ..., spec_{n-1}, body)] *)
Definition method (p : proc) (h : heap) (gensym_counter : nat)
    (specs : list value) (b : body) : proc * heap * nat * option exn :=
  let '(methodname, c) := gensym (name p) gensym_counter in
  match method_loop methodname 0 specs p h with
  | (p', h', None) =>
      (set_METHODS p' (<[methodname := b]> (METHODS p')), h', c, None)
  | (p', h', Some e) => (p', h', c, Some e)
  end.

(** ** lookup *)

Record rank := Rank {
  filled : nat;
  vector : list (option nat)    (* a sparse array: [None] is a hole *)
}.

Record entry := Entry { arg : value; isValue : bool }.

(** [vector[i] = position] on a JavaScript array: in range it overwrites,
    out of range it extends the array with holes. *)
Definition vector_set (v : list (option nat)) (i position : nat)
    : list (option nat) :=
  if decide (i < length v) then <[i := Some position]> v
  else v ++ replicate (i - length v) None ++ [Some position].

(** [<] on two arrays compares their string conversions, [join(",")] with
    holes printed as the empty string, by code units. *)
Definition vector_string (v : list (option nat)) : string :=
  String.concat ","
    (map (fun x => match x with Some n => pretty n | None => "" end) v).

Definition vector_lt (v1 v2 : list (option nat)) : bool :=
  String.ltb (vector_string v1) (vector_string v2).

Record lstate := LState {
  ranks : gmap string rank;
  stack : list entry;               (* head = top of the stack *)
  mostspecificmethod : option string (* [None] = undefined *)
}.

(** A string is falsy exactly when it is empty. *)
Definition truthy_name (m : option string) : option string :=
  match m with
  | Some s => if decide (s = "") then None else Some s
  | None => None
  end.

(** The callback of [methods.forEach]. *)
Definition rank_method (len i position : nat)
    (st : gmap string rank * option string) (methodname : string)
    : result (gmap string rank * option string) :=
  let '(ranks, most) := st in
  let rank0 := default (Rank 0 []) (ranks !! methodname) in
  let rank1 := Rank (S (filled rank0)) (vector_set (vector rank0) i position) in
  let ranks1 := <[methodname := rank1]> ranks in
  if decide (filled rank1 = len) then
    match truthy_name most with
    | None => Ok (ranks1, Some methodname)
    | Some m =>
        match ranks1 !! m with
        | Some r =>
            if vector_lt (vector rank1) (vector r)
            then Ok (ranks1, Some methodname)
            else Ok (ranks1, most)
        | None => Throw TypeError    (* ranks[m] is undefined *)
        end
    end
  else Ok (ranks1, most).

Fixpoint forEach {S A} (f : S -> A -> result S) (l : list A) (s : S)
    : result S :=
  match l with
  | [] => Ok s
  | x :: l' => do s' <- f s x; forEach f l' s'
  end.

(** [table && (methods = table[rolename])] followed by [methods.forEach]:
    the method names the callback is run on, if the condition holds. *)
Definition methods_in (h : heap) (table : value) (rolename : string)
    : result (option (list string)) :=
  if truthy table then
    do methods <- get_prop h table rolename;
    if truthy methods then do ms <- items_of h methods; Ok (Some ms)
    else Ok None
  else Ok None.

(** [table = get_table(arg, false)] and the test on it: the method names
    registered at [e] for position [i], if any. *)
Definition methods_at (p : proc) (h : heap) (i : nat) (e : entry)
    : result (option (list string)) :=
  do r <- get_table p h (arg e) false;
  methods_in h r.2 (rolename p i).

(** The delegate pushed after [e] was examined, if any: [ANY] above a
    top-level constructor, nothing above [ANY] itself, otherwise the
    constructor of a value and the prototype of a constructor. *)
Definition delegation (h : heap) (e : entry) : result (option entry) :=
  do top <-
    (if isValue e then Ok false
     else do pr <- get_prop h (arg e) "prototype";
          do c <- get_prop h pr "constructor";
          Ok (bool_decide (arg e = c)));
  if (top : bool) then Ok (Some (Entry (VRef Realm.ANY) false))
  else if bool_decide (arg e <> VRef Realm.ANY) || isValue e then
    do delegate <-
      get_prop h (arg e) (if isValue e then "constructor" else "prototype");
    Ok (Some (Entry delegate (negb (isValue e))))
  else Ok None.

Definition push (d : option entry) (stack : list entry) : list entry :=
  match d with
  | Some e => e :: stack
  | None => stack
  end.

(** One iteration of the [while] loop, after [stack.pop()] gave [e]. *)
Definition visit (p : proc) (h : heap) (len i position : nat) (e : entry)
    (st : lstate) : result lstate :=
  do methods <- methods_at p h i e;
  do (rk, most) <-
    match methods with
    | Some methods =>
        forEach (rank_method len i position) methods
          (ranks st, mostspecificmethod st)
    | None => Ok (ranks st, mostspecificmethod st)
    end;
  do d <- delegation h e;
  Ok (LState rk (push d (stack st)) most).

(** The bound of the [while] loop, [n < 10]. *)
Definition max_steps : nat := 10.
Arguments max_steps : simpl never.

(** [while (stack.length > 0 && n < 10)]: [budget] is [10 - n]. *)
Fixpoint walk (p : proc) (h : heap) (len i : nat) (budget position : nat)
    (st : lstate) : result lstate :=
  match budget with
  | O => Ok st
  | S budget' =>
      match stack st with
      | [] => Ok st
      | e :: rest =>
          do st' <- visit p h len i position e
                      (LState (ranks st) rest (mostspecificmethod st));
          walk p h len i budget' (S position) st'
      end
  end.

(** The [for] loop over the argument positions, from position [i] on. *)
Fixpoint lookup_args (p : proc) (h : heap) (len i : nat)
    (args : list value) (st : lstate) : result lstate :=
  match args with
  | [] => Ok st
  | a :: args' =>
      do st' <- walk p h len i max_steps 0
                  (LState (ranks st) (Entry a true :: stack st)
                          (mostspecificmethod st));
      lookup_args p h len (S i) args' st'
  end.

Definition lookup_state (p : proc) (h : heap) (args : list value)
    : result lstate :=
  lookup_args p h (length args) 0 args (LState ∅ [] None).

(** [METHODS[mostspecificmethod]]; the key of [undefined] is ["undefined"]. *)
Definition method_key (most : option string) : string :=
  default "undefined" most.

Definition lookup (p : proc) (h : heap) (args : list value)
    : result (option body) :=
  do st <- lookup_state p h args;
  Ok (METHODS p !! method_key (mostspecificmethod st)).

(** ** dispatch *)

Definition dispatch (p : proc) (h : heap) (args : list value)
    : result value :=
  do m <- lookup p h args;
  match m with
  | Some method => Ok (method args)
  | None => Throw NoApplicableMethod
  end.

(** ** The initial heap and heaps of the examples *)

Definition plain (proto : option loc) (props : list (string * value))
    : object :=
  Object proto false true (list_to_map props) None.

Definition func (props : list (string * value)) : object :=
  Object (Some Realm.FunctionPrototype) true true (list_to_map props) None.

(** The built-ins as a fresh JavaScript realm has them, with [ANY]:
    [Object.prototype] with all its standard properties, and of the other
    built-ins the properties the program reads by name. *)
Definition initial_heap : heap :=
  list_to_map
    [ (Realm.ObjectPrototype,
        plain None [("constructor", VRef Realm.Object);
                    ("hasOwnProperty", VRef Realm.hasOwnProperty);
                    ("toString", VRef Realm.toString);
                    ("toLocaleString", VRef Realm.toLocaleString);
                    ("valueOf", VRef Realm.valueOf);
                    ("isPrototypeOf", VRef Realm.isPrototypeOf);
                    ("propertyIsEnumerable", VRef Realm.propertyIsEnumerable);
                    ("__defineGetter__", VRef Realm.defineGetter);
                    ("__defineSetter__", VRef Realm.defineSetter);
                    ("__lookupGetter__", VRef Realm.lookupGetter);
                    ("__lookupSetter__", VRef Realm.lookupSetter);
                    (* the accessor: see [inherited] *)
                    ("__proto__", VNull)]);
      (Realm.FunctionPrototype,
        Object (Some Realm.ObjectPrototype) true true
               (list_to_map [("constructor", VRef Realm.Function)]) None);
      (Realm.Object, func [("prototype", VRef Realm.ObjectPrototype)]);
      (Realm.Function, func [("prototype", VRef Realm.FunctionPrototype)]);
      (Realm.StringPrototype,
        plain (Some Realm.ObjectPrototype)
              [("constructor", VRef Realm.String)]);
      (Realm.String, func [("prototype", VRef Realm.StringPrototype)]);
      (Realm.NumberPrototype,
        plain (Some Realm.ObjectPrototype)
              [("constructor", VRef Realm.Number)]);
      (Realm.Number, func [("prototype", VRef Realm.NumberPrototype)]);
      (Realm.BooleanPrototype,
        plain (Some Realm.ObjectPrototype)
              [("constructor", VRef Realm.Boolean)]);
      (Realm.Boolean, func [("prototype", VRef Realm.BooleanPrototype)]);
      (Realm.hasOwnProperty, func []);
      (Realm.ANY, func [("prototype", VRef Realm.ANYPrototype)]);
      (Realm.ANYPrototype, plain (Some Realm.ObjectPrototype) []);
      (Realm.ArrayPrototype,
        Object (Some Realm.ObjectPrototype) false true
               (list_to_map [("constructor", VRef Realm.Array)]) (Some []));
      (Realm.Array, func [("prototype", VRef Realm.ArrayPrototype)]);
      (Realm.toString, func []);
      (Realm.toLocaleString, func []);
      (Realm.valueOf, func []);
      (Realm.isPrototypeOf, func []);
      (Realm.propertyIsEnumerable, func []);
      (Realm.defineGetter, func []);
      (Realm.defineSetter, func []);
      (Realm.lookupGetter, func []);
      (Realm.lookupSetter, func []) ].

(** ** The matches a lookup meets

    The ranks depend on the heap only through the method names met at each
    owner of each argument's walk.  [trail] lists the owners of one complete
    walk (one that empties the stack within the ten iterations and raises no
    TypeError) with the method names registered there; an event is one
    execution of the [forEach] callback. *)

Definition event : Type := nat * nat * string.  (* position, distance, method *)

Fixpoint trail (p : proc) (h : heap) (i budget : nat) (e : entry)
    : option (list (entry * list string)) :=
  match budget with
  | O => None
  | S budget' =>
      match methods_at p h i e, delegation h e with
      | Ok ms, Ok None => Some [(e, default [] ms)]
      | Ok ms, Ok (Some e') =>
          cons (e, default [] ms) <$> trail p h i budget' e'
      | _, _ => None
      end
  end.

Fixpoint trail_events (i position : nat) (tr : list (entry * list string))
    : list event :=
  match tr with
  | [] => []
  | (_, ms) :: tr' =>
      map (fun m => (i, position, m)) ms ++ trail_events i (S position) tr'
  end.

Fixpoint events_from (p : proc) (h : heap) (i : nat) (args : list value)
    : option (list event) :=
  match args with
  | [] => Some []
  | a :: args' =>
      match trail p h i max_steps (Entry a true),
            events_from p h (S i) args' with
      | Some tr, Some evs => Some (trail_events i 0 tr ++ evs)
      | _, _ => None
      end
  end.

Definition events_of (p : proc) (h : heap) (args : list value)
    : option (list event) :=
  events_from p h 0 args.

Definition replay (len : nat) (evs : list event)
    (st : gmap string rank * option string)
    : result (gmap string rank * option string) :=
  forEach (fun st '(i, d, m) => rank_method len i d st m) evs st.

(** ** Programs: a procedure and its registrations *)

Record program := Program {
  the_proc : proc;
  the_heap : heap;
  the_counter : nat;
  raised : list (option exn)   (* what each [method] call raised, if anything *)
}.

(** [var f = procedure(name); f.method(...); f.method(...); ...] run on the
    heap [h] with the gensym counter at 0. *)
Definition program_of (name : string) (h : heap)
    (methods : list (list value * body)) : program :=
  let '(p, c, h) := procedure name 0 h in
  fold_left
    (fun w '(specs, b) =>
       let '(p', h', c', e) :=
         method (the_proc w) (the_heap w) (the_counter w) specs b in
       Program p' h' c' (raised w ++ [e]))
    methods (Program p h c []).

Definition call (w : program) (args : list value) : result value :=
  dispatch (the_proc w) (the_heap w) args.

(** Method bodies that report which method ran. *)
Definition body_A : body := fun _ => VStr "A".
Definition body_B : body := fun _ => VStr "B".
Definition body_C : body := fun _ => VStr "C".

(** *** User-defined types

    [function Super() {}], [function Sub() { this.constructor = Sub; }],
    [Sub.prototype = new Super()]: a [new Sub()] then delegates to [Sub],
    [Sub.prototype], [Super] and [ANY] in this order.  [plain_sub] is a
    [Sub] instance without the own [constructor] property, [a_super] is
    [new Super()] and [a_function] is [function fn() {}]. *)
Module Types.
Definition Super : loc := 20%positive.
Definition SuperPrototype : loc := 21%positive.
Definition Sub : loc := 22%positive.
Definition SubPrototype : loc := 23%positive.
Definition a_sub : loc := 24%positive.
Definition a_super : loc := 25%positive.
Definition plain_sub : loc := 26%positive.
Definition a_function : loc := 27%positive.
(** [var P = {}; var child = Object.create(P);] *)
Definition P : loc := 28%positive.
Definition child : loc := 29%positive.
End Types.

Definition user_heap : heap :=
  <[Types.Super := func [("prototype", VRef Types.SuperPrototype)]]>
  (<[Types.SuperPrototype :=
       plain (Some Realm.ObjectPrototype)
             [("constructor", VRef Types.Super)]]>
  (<[Types.Sub := func [("prototype", VRef Types.SubPrototype)]]>
  (<[Types.SubPrototype := plain (Some Types.SuperPrototype) []]>
  (<[Types.a_sub :=
       plain (Some Types.SubPrototype) [("constructor", VRef Types.Sub)]]>
  (<[Types.a_super := plain (Some Types.SuperPrototype) []]>
  (<[Types.plain_sub := plain (Some Types.SubPrototype) []]>
  (<[Types.a_function := func []]>
  (<[Types.P := plain (Some Realm.ObjectPrototype) []]>
  (<[Types.child := plain (Some Types.P) []]>
  initial_heap))))))))).

(** *** A hierarchy five types deep

    [T1 < T2 < T3 < T4 < T5]: the prototype of each [T_k] has the next type
    as its constructor, [T5] is top-level, and [deep] is an instance of [T1]. *)
Module Deep.
Definition T (k : positive) : loc := (100 + 2 * k)%positive.
Definition TPrototype (k : positive) : loc := (101 + 2 * k)%positive.
Definition deep : loc := 100%positive.
End Deep.

Definition deep_heap : heap :=
  <[Deep.deep :=
      plain (Some (Deep.TPrototype 1)) [("constructor", VRef (Deep.T 1))]]>
  (foldr
     (fun k h =>
        <[Deep.T k := func [("prototype", VRef (Deep.TPrototype k))]]>
        (<[Deep.TPrototype k :=
             plain (Some Realm.ObjectPrototype)
                   [("constructor",
                     VRef (Deep.T (if decide (k = 5%positive) then k
                                   else Pos.succ k)))]]> h))
     initial_heap [1; 2; 3; 4; 5]%positive).

(** *** Programs of the examples *)

(** [f.method(null, A)] *)
Definition null_program : program :=
  program_of "f" initial_heap [([VNull], body_A)].

(** [f.method(undefined, A)] *)
Definition undefined_program : program :=
  program_of "f" initial_heap [([VUndef], body_A)].

(** [f.method(Any, String, A)] *)
Definition double_count_program : program :=
  program_of "f" initial_heap
    [([VRef Realm.ANY; VRef Realm.String], body_A)].

(** [f.method(P, A)] for the object [P] *)
Definition inherit_program : program :=
  program_of "f" user_heap [([VRef Types.P], body_A)].

(** [f.method('foo', A)] *)
Definition foo_program : program :=
  program_of "f" initial_heap [([VStr "foo"], body_A)].


(** [f.method(Any, A)] *)
Definition any_program : program :=
  program_of "f" initial_heap [([VRef Realm.ANY], body_A)].

(** [f.method(Super, Sub, A); f.method(Sub, Super, B)] *)
Definition lexical_program : program :=
  program_of "f" user_heap
    [([VRef Types.Super; VRef Types.Sub], body_A);
     ([VRef Types.Sub; VRef Types.Super], body_B)].

(** [f.method(Super, Sub, A); f.method(Super, Super, B)] *)
Definition tiebreak_program : program :=
  program_of "f" user_heap
    [([VRef Types.Super; VRef Types.Sub], body_A);
     ([VRef Types.Super; VRef Types.Super], body_B)].

(** [f.method(Super, A); f.method(Sub, B)] *)
Definition closest_program : program :=
  program_of "f" user_heap
    [([VRef Types.Super], body_A); ([VRef Types.Sub], body_B)].

(** [f.method(Sub, Function, A); f.method(Object, Function, B);
     f.method(String, Function, C)] *)
Definition once_per_role_program : program :=
  program_of "f" user_heap
    [([VRef Types.Sub; VRef Realm.Function], body_A);
     ([VRef Realm.Object; VRef Realm.Function], body_B);
     ([VRef Realm.String; VRef Realm.Function], body_C)].

(** [f.method(Function, String, A); f.method(Any, Number, B);
     f.method(Any, Any, C)] *)
Definition promoted_program : program :=
  program_of "f" initial_heap
    [([VRef Realm.Function; VRef Realm.String], body_A);
     ([VRef Realm.ANY; VRef Realm.Number], body_B);
     ([VRef Realm.ANY; VRef Realm.ANY], body_C)].

(** [f.method(Any, A)] on the heap of the deep hierarchy *)
Definition deep_program : program :=
  program_of "f" deep_heap [([VRef Realm.ANY], body_A)].

(** [f.method(Any, Any, A)] *)
Definition any_any_program : program :=
  program_of "f" user_heap [([VRef Realm.ANY; VRef Realm.ANY], body_A)].



(** ** The ranking step as a pure function

    [rank_method] can only raise when [ranks[mostspecificmethod]] is missing,
    which never happens: the selected method always has a rank record.
    [rank_step] is the callback without that case. *)

Definition bump (o : option rank) (i d : nat) : rank :=
  let r := default (Rank 0 []) o in
  Rank (S (filled r)) (vector_set (vector r) i d).

Definition rank_step (len : nat) (st : gmap string rank * option string)
    (ev : event) : gmap string rank * option string :=
  let '(i, d, m) := ev in
  let r1 := bump (st.1 !! m) i d in
  let rk1 := <[m := r1]> st.1 in
  (rk1,
   if decide (filled r1 = len) then
     match truthy_name st.2 with
     | None => Some m
     | Some m0 =>
         if vector_lt (vector r1) (vector (default (Rank 0 []) (rk1 !! m0)))
         then Some m else st.2
     end
   else st.2).

(** The selected method, if any, has a rank record. *)
Definition selected_ranked (st : gmap string rank * option string) : Prop :=
  forall m0, st.2 = Some m0 -> is_Some (st.1 !! m0).

Definition ev_pos (ev : event) : nat := ev.1.1.
Definition ev_dist (ev : event) : nat := ev.1.2.
Definition ev_method (ev : event) : string := ev.2.

(** ** Rank vectors and candidates, read off the final state of a lookup *)

(** The recorded distances of a rank record without holes. *)
Fixpoint dense (v : list (option nat)) : option (list nat) :=
  match v with
  | [] => Some []
  | Some d :: v' => cons d <$> dense v'
  | None :: _ => None
  end.

Definition rank_vector (st : lstate) (m : string) : option (list nat) :=
  match ranks st !! m with
  | Some r => dense (vector r)
  | None => None
  end.

(** A candidate has a recorded rank at every one of the [len] positions. *)
Definition candidate (st : lstate) (len : nat) (m : string) (ds : list nat)
    : Prop :=
  rank_vector st m = Some ds /\ length ds = len.

(** Lexicographic order, position by position from the left. *)
Fixpoint lex_lt (v1 v2 : list nat) : bool :=
  match v1, v2 with
  | a :: v1', b :: v2' =>
      if decide (a < b) then true
      else if decide (a = b) then lex_lt v1' v2' else false
  | [], _ :: _ => true
  | _, [] => false
  end.

Definition lex_le (v1 v2 : list nat) : Prop := lex_lt v2 v1 = false.

(** "lookup selects the candidate whose rank vector is lexicographically
    smallest": whenever the invocation has a candidate, the selected method
    is a candidate and no candidate has a smaller rank vector. *)
Definition selects_smallest (p : proc) (h : heap) (args : list value)
    : Prop :=
  exists st, lookup_state p h args = Ok st /\
    ((exists m ds, candidate st (length args) m ds) ->
     exists m0 ds0,
       mostspecificmethod st = Some m0 /\
       candidate st (length args) m0 ds0 /\
       forall m ds, candidate st (length args) m ds -> lex_le ds0 ds).

(** No method is met twice for the same argument position. *)
Definition ev_key (ev : event) : nat * string := (ev_pos ev, ev_method ev).

Definition once_per_role (evs : list event) : Prop := NoDup (ev_key <$> evs).

(** ** Statements about walks and matches *)

Definition root_entry : entry := Entry (VRef Realm.ANY) false.

(** The walk of [v] (for argument position [i]) completes, and the last
    owner it examines is the root. *)
Definition walk_reaches_root (p : proc) (h : heap) (i : nat) (v : value)
    : Prop :=
  exists tr, trail p h i max_steps (Entry v true) = Some tr /\
             last tr.*1 = Some root_entry.

(** The lookup returns, and [m] has a recorded rank at position [i]. *)
Definition matches_at (p : proc) (h : heap) (args : list value)
    (m : string) (i : nat) : Prop :=
  exists st r d, lookup_state p h args = Ok st /\
                 ranks st !! m = Some r /\ vector r !! i = Some (Some d).

(** The lookup returns with some method selected. *)
Definition selects_some (p : proc) (h : heap) (args : list value) : Prop :=
  exists st m, lookup_state p h args = Ok st /\
               mostspecificmethod st = Some m.


(** What a walk that reaches the root guarantees for methods on [ANY]. *)
Definition any_applies (p : proc) (h : heap) (args : list value) : Prop :=
  (forall i v, args !! i = Some v -> walk_reaches_root p h i v) /\
  (forall i m ms,
     i < length args ->
     methods_at p h i root_entry = Ok (Some ms) -> m ∈ ms ->
     matches_at p h args m i) /\
  (forall m,
     0 < length args ->
     (forall i, i < length args ->
        exists ms, methods_at p h i root_entry = Ok (Some ms) /\ m ∈ ms) ->
     selects_some p h args).

(** ** Statements about invoke *)

(** Some [filled] counter has reached the number of arguments. *)
Definition some_filled (st : lstate) (len : nat) : Prop :=
  exists m r, ranks st !! m = Some r /\ len <= filled r.

(** [m] has a recorded rank at every one of the [len] positions. *)
Definition full_match (st : lstate) (len : nat) (m : string) : Prop :=
  exists r, ranks st !! m = Some r /\
            forall i, i < len -> exists d, vector r !! i = Some (Some d).

(** "invoke applies the winning method's body to the arguments and returns
    its result exactly when lookup finds a candidate with filled == n, and
    raises the no-applicable-method condition otherwise". *)
Definition invoke_as_specified (p : proc) (h : heap) (args : list value)
    : Prop :=
  exists st, lookup_state p h args = Ok st /\
    (some_filled st (length args) ->
     exists m b, mostspecificmethod st = Some m /\
                 METHODS p !! m = Some b /\
                 dispatch p h args = Ok (b args)) /\
    (~ some_filled st (length args) ->
     dispatch p h args = Throw NoApplicableMethod).

(** Events of one walk, in the order of the walk: distances do not
    decrease. *)
Fixpoint sorted_from (lo : nat) (evs : list event) : Prop :=
  match evs with
  | [] => True
  | ev :: evs' =>
      lo <= ev_dist ev /\ ev_dist ev < 10 /\ ev_pos ev = 0 /\
      sorted_from (ev_dist ev) evs'
  end.


(** The distance at which [m] is met for position [i] (0 if it is not), and
    the rank vector these distances make. *)
Definition dist_of (evs : list event) (m : string) (i : nat) : nat :=
  default 0
    (ev_dist <$> head (filter (fun ev => ev_key ev = (i, m)) evs)).

Definition final_vector (len : nat) (evs : list event) (m : string)
    : list nat :=
  dist_of evs m <$> seq 0 len.

(** ** Statements used by the invariants of a lookup *)

(** The only exception a computation raises is a TypeError. *)
Definition type_error_only {A} (r : result A) : Prop :=
  forall e, r = Throw e -> e = TypeError.

(** [m] has a recorded rank at position [i]. *)
Definition has_rank (rk : gmap string rank) (m : string) (i : nat) : Prop :=
  exists r d, rk !! m = Some r /\ vector r !! i = Some (Some d).

Definition filled_of (rk : gmap string rank) (m : string) : nat :=
  match rk !! m with
  | Some r => filled r
  | None => 0
  end.

Definition count_of (m : string) (evs : list event) : nat :=
  length (filter (fun ev => ev_method ev = m) evs).

(** A method is selected exactly when some [filled] counter has reached the
    number of arguments. *)
Definition none_iff_unfilled (len : nat)
    (st : gmap string rank * option string) : Prop :=
  st.2 = None <-> forall m, filled_of st.1 m < len.

(** The character of a decimal digit. *)
Definition digit (d : nat) : Ascii.ascii := Ascii.ascii_of_nat (48 + d).

(** The state of the ranking after the events [done], and what is selected
    there: nothing while no method is met [len] times, and otherwise a
    method met [len] times with no smaller final rank vector among the
    methods met [len] times so far. *)
Definition run_events (len : nat) (done : list event)
    : gmap string rank * option string :=
  fold_left (rank_step len) done (∅, None).

Definition selected_min (len : nat) (evs done : list event) : Prop :=
  match (run_events len done).2 with
  | None => forall m, count_of m done < len
  | Some m0 =>
      m0 <> "" /\ count_of m0 done = len /\
      forall m, count_of m done = len ->
                lex_lt (final_vector len evs m) (final_vector len evs m0)
                = false
  end.

(** ** The owners a lookup examines

    [walk_log] is the loop [walk] with a log of the entries it pops from the
    stack, in order; [lookup_args_log] and [lookup_log] are the loop over the
    arguments and [lookup], with one log per argument. *)
Fixpoint walk_log (p : proc) (h : heap) (len i : nat) (budget position : nat)
    (st : lstate) : result (list entry * lstate) :=
  match budget with
  | O => Ok ([], st)
  | S budget' =>
      match stack st with
      | [] => Ok ([], st)
      | e :: rest =>
          do st' <- visit p h len i position e
                      (LState (ranks st) rest (mostspecificmethod st));
          do r <- walk_log p h len i budget' (S position) st';
          Ok (e :: r.1, r.2)
      end
  end.

Fixpoint lookup_args_log (p : proc) (h : heap) (len i : nat)
    (args : list value) (st : lstate) : result (list (list entry) * lstate) :=
  match args with
  | [] => Ok ([], st)
  | a :: args' =>
      do r <- walk_log p h len i max_steps 0
                (LState (ranks st) (Entry a true :: stack st)
                        (mostspecificmethod st));
      do r' <- lookup_args_log p h len (S i) args' r.2;
      Ok (r.1 :: r'.1, r'.2)
  end.

Definition lookup_log (p : proc) (h : heap) (args : list value)
    : result (list (list entry) * lstate) :=
  lookup_args_log p h (length args) 0 args (LState ∅ [] None).

(** Each entry of a log is followed by its delegate. *)
Definition linked (h : heap) (es : list entry) : Prop :=
  forall j e1 e2, es !! j = Some e1 -> es !! S j = Some e2 ->
                  delegation h e1 = Ok (Some e2).

(** ** Statements about generated names *)

(** [c] occurs in [s]. *)
Fixpoint has_char (c : Ascii.ascii) (s : string) : bool :=
  match s with
  | EmptyString => false
  | String a s' => if decide (a = c) then true else has_char c s'
  end.

(** A character no decimal numeral contains. *)
Definition not_a_digit (c : Ascii.ascii) : Prop :=
  forall x : N, pretty_N_char x <> c.

(** The separators of [gensym] and of the role names. *)
Definition underscore : Ascii.ascii := Ascii.ascii_of_nat 95.
Definition colon : Ascii.ascii := Ascii.ascii_of_nat 58.

(** ** Statements about registration *)

(** The table [v] itself carries: the table of a primitive in the closure
    of the procedure, the own [__roles__] property of an object. *)
Definition own_table (p : proc) (h : heap) (v : value) : option value :=
  match v with
  | VStr s => STRINGS p !! s
  | VNum n => NUMBERS p !! n
  | VBool b => Some (if b then TRUE_TABLE p else FALSE_TABLE p)
  | VNull => Some (NULL_TABLE p)
  | VUndef => None
  | VRef l => h !! l ≫= fun o => o_props o !! "__roles__"
  end.

(** The closure [p'] is the closure [p] with, possibly, more tables for
    strings and numbers. *)
Definition same_closure (p p' : proc) : Prop :=
  name p' = name p /\ selector p' = selector p /\ METHODS p' = METHODS p /\
  TRUE_TABLE p' = TRUE_TABLE p /\ FALSE_TABLE p' = FALSE_TABLE p /\
  NULL_TABLE p' = NULL_TABLE p /\
  STRINGS p ⊆ STRINGS p' /\ NUMBERS p ⊆ NUMBERS p'.

(** ** Well-formed heaps

    What every heap of a JavaScript program satisfies, and what the
    statements about registration rely on: the built-in prototypes exist,
    prototype chains end, references stored in properties point to objects
    of the heap, and no array is the value of two properties (the arrays of
    method names are created by [method], one for each property). *)

(** The prototype chain of [l] ends within [fuel] objects. *)
Fixpoint chain_ends (fuel : nat) (h : heap) (l : loc) : bool :=
  match fuel with
  | O => false
  | S fuel' =>
      match h !! l with
      | None => false
      | Some o =>
          match o_proto o with
          | None => true
          | Some p => chain_ends fuel' h p
          end
      end
  end.

Definition closed_chains (h : heap) : Prop :=
  forall l o, h !! l = Some o -> chain_ends (size h) h l = true.

Definition value_in (h : heap) (v : value) : Prop :=
  match v with
  | VRef a => is_Some (h !! a)
  | _ => True
  end.

Definition closed_values (h : heap) : Prop :=
  forall l o key v,
    h !! l = Some o -> o_props o !! key = Some v -> value_in h v.

Definition is_array (h : heap) (a : loc) : Prop :=
  is_Some (h !! a ≫= o_items).

Definition unshared (h : heap) : Prop :=
  forall l1 o1 key1 l2 o2 key2 a,
    h !! l1 = Some o1 -> o_props o1 !! key1 = Some (VRef a) ->
    h !! l2 = Some o2 -> o_props o2 !! key2 = Some (VRef a) ->
    is_array h a ->
    l1 = l2 /\ key1 = key2.

Definition builtins : list loc :=
  [Realm.ObjectPrototype; Realm.ArrayPrototype; Realm.BooleanPrototype;
   Realm.NumberPrototype; Realm.StringPrototype].

Definition tidy (h : heap) : Prop :=
  Forall (fun l => is_Some (h !! l)) builtins /\
  closed_chains h /\ closed_values h /\ unshared h.

(** [h'] has the objects of [h], with the same prototype and flags;
    [keeps key h h'] when they also have the same property [key]. *)
Definition extends (h h' : heap) : Prop :=
  forall l o, h !! l = Some o ->
    exists o', h' !! l = Some o' /\ o_proto o' = o_proto o /\
               o_callable o' = o_callable o /\
               o_extensible o' = o_extensible o /\
               (is_Some (o_items o') <-> is_Some (o_items o)).

Definition keeps (key : string) (h h' : heap) : Prop :=
  forall l o o', h !! l = Some o -> h' !! l = Some o' ->
                 o_props o' !! key = o_props o !! key.

(** The tables of the closure are objects of the heap. *)
Definition proc_in (p : proc) (h : heap) : Prop :=
  (forall s t, STRINGS p !! s = Some t -> value_in h t) /\
  (forall n t, NUMBERS p !! n = Some t -> value_in h t) /\
  value_in h (TRUE_TABLE p) /\ value_in h (FALSE_TABLE p) /\
  value_in h (NULL_TABLE p).

(** The arrays that properties refer to, one entry for each property: a
    heap is [unshared] when this list has no duplicates. *)
Definition array_refs (h : heap) : list loc :=
  map_to_list h ≫= fun lo =>
  map_to_list (o_props lo.2) ≫= fun kv =>
  match kv.2 with
  | VRef a => if bool_decide (is_Some (h !! a ≫= o_items)) then [a] else []
  | _ => []
  end.

(** A string whose table is not affected by what a registration of [p]
    writes: it is neither [__roles__] nor a role name of [p]. *)
Definition plain_key (p : proc) (v : value) : Prop :=
  match v with
  | VStr s => s <> "__roles__" /\ forall i, s <> rolename p i
  | _ => True
  end.

(** *** Programs of the examples on registration *)

(** [f.method(Super, A)] *)
Definition super_program : program :=
  program_of "f" user_heap [([VRef Types.Super], body_A)].

(** [f.method(Super, A); f.method(Super, 3, B)] *)
Definition super_three_program : program :=
  program_of "f" user_heap
    [([VRef Types.Super], body_A); ([VRef Types.Super; VNum 3], body_B)].

(** [f.method(Super, A); f.method(Super, undefined, 3, B)]: the second
    registration raises. *)
Definition dangling_program : program :=
  program_of "f" user_heap
    [([VRef Types.Super], body_A);
     ([VRef Types.Super; VUndef; VNum 3], body_B)].

(** [var g = procedure('g'); g.method(Super, C)] on the heap
    [super_program] leaves, with the counter where it left it. *)
Definition second_procedure : proc * nat * heap :=
  procedure "g" (the_counter super_program) (the_heap super_program).

(** [g.method(Super, C)] for the second procedure. *)
Definition second_registration : proc * heap * nat * option exn :=
  method second_procedure.1.1 second_procedure.2 second_procedure.1.2
    [VRef Types.Super] body_C.

(** Every name under which a body is stored has an underscore. *)
Definition names_generated (p : proc) : Prop :=
  forall k, is_Some (METHODS p !! k) -> has_char underscore k = true.

(** ** Statements about rank records and walks *)

(** [vector[i]], with a hole and an index out of range read as nothing. *)
Definition vector_get (v : list (option nat)) (i : nat) : option nat :=
  default None (v !! i).

(** The distance of the last match of [m] met for position [i]. *)
Definition last_dist (evs : list event) (m : string) (i : nat)
    : option nat :=
  ev_dist <$> last (filter (fun ev => ev_key ev = (i, m)) evs).



(** The first iteration of a walk from [value] raises: [value] is [null]
    or [undefined], or an object whose [hasOwnProperty] cannot be called
    (an [Object.create(null)], say). *)
Definition unwalkable (h : heap) (value : value) : bool :=
  match value with
  | VNull | VUndef => true
  | VRef l => negb (is_callable h (get_from h l "hasOwnProperty"))
  | _ => false
  end.

(** [var bare = Object.create(null)] *)
Definition bare : loc := 30%positive.

Definition bare_heap : heap := <[bare := plain None []]> user_heap.

(** [f.method(Any, A)] on that heap *)
Definition bare_program : program :=
  program_of "f" bare_heap [([VRef Realm.ANY], body_A)].

(** *** The script [test.js]

    [var print = procedure('print'); print.method(String, b1);
     print.method('foo', b2); print.method(Object, b3);] with the bodies
    left open: the statements below say which body a call applies. *)
Definition script (b1 b2 b3 : body) (statements : nat) : program :=
  program_of "print" initial_heap
    (take statements
       [([VRef Realm.String], b1); ([VStr "foo"], b2);
        ([VRef Realm.Object], b3)]).
(** * Properties *)

(** ** The error monad and [forEach] *)

Lemma forEach_app {S A} (f : S -> A -> result S) (l1 l2 : list A) (s : S) :
  forEach f (l1 ++ l2) s = (do s' <- forEach f l1 s; forEach f l2 s').
Proof.
  revert s. induction l1 as [|x l1 IH]; intros s; simpl; [done|].
  destruct (f s x) as [s'|e]; simpl; [apply IH | done].
Qed.

Lemma forEach_map {S A B} (f : S -> B -> result S) (g : A -> B)
    (l : list A) (s : S) :
  forEach f (map g l) s = forEach (fun s x => f s (g x)) l s.
Proof.
  revert s. induction l as [|x l IH]; intros s; simpl; [done|].
  destruct (f s (g x)); simpl; [apply IH | done].
Qed.

(** ** A lookup is the replay of its events *)

Lemma replay_app len evs1 evs2 st :
  replay len (evs1 ++ evs2) st =
  (do st' <- replay len evs1 st; replay len evs2 st').
Proof. apply forEach_app. Qed.

Lemma replay_map len i d ms st :
  replay len (map (fun m => (i, d, m)) ms) st =
  forEach (rank_method len i d) ms st.
Proof. unfold replay. by rewrite forEach_map. Qed.

Lemma walk_empty p h len i budget position rk most :
  walk p h len i budget position (LState rk [] most) = Ok (LState rk [] most).
Proof. by destruct budget. Qed.

Lemma walk_trail p h len i budget position e tr stk rk most :
  trail p h i budget e = Some tr ->
  walk p h len i budget position (LState rk (e :: stk) most) =
  (do st <- replay len (trail_events i position tr) (rk, most);
   walk p h len i (budget - length tr) (position + length tr)
        (LState st.1 stk st.2)).
Proof.
  revert position e tr rk most.
  induction budget as [|budget IH]; intros position e tr rk most Htr;
    [by simpl in Htr|].
  simpl in Htr. simpl walk. unfold visit. simpl.
  destruct (methods_at p h i e) as [ms|]; [|done].
  destruct (delegation h e) as [[e'|]|] eqn:Hd; [| |done].
  - destruct (trail p h i budget e') as [tr'|] eqn:Htr'; [|done].
    simplify_eq/=. rewrite replay_app, replay_map.
    replace (position + S (length tr')) with (S position + length tr')
      by lia.
    destruct ms as [ms|]; simpl.
    + destruct (forEach (rank_method len i position) ms (rk, most))
        as [[rk1 most1]|]; simpl; [|done].
      by rewrite (IH _ _ _ _ _ Htr').
    + by rewrite (IH _ _ _ _ _ Htr').
  - simplify_eq/=. rewrite app_nil_r, replay_map.
    replace (budget - 0) with budget by lia.
    replace (position + 1) with (S position) by lia.
    destruct ms as [ms|]; simpl; [|done].
    by destruct (forEach (rank_method len i position) ms (rk, most))
      as [[rk1 most1]|].
Qed.

Lemma lookup_args_events p h len i args evs rk most :
  events_from p h i args = Some evs ->
  lookup_args p h len i args (LState rk [] most) =
  (do st <- replay len evs (rk, most); Ok (LState st.1 [] st.2)).
Proof.
  revert i evs rk most.
  induction args as [|a args IH]; intros i evs rk most Hev;
    cbn [lookup_args events_from] in *.
  - by simplify_eq.
  - destruct (trail p h i max_steps (Entry a true)) as [tr|] eqn:Htr; [|done].
    destruct (events_from p h (S i) args) as [evs'|] eqn:Hev'; [|done].
    simplify_eq. cbn [ranks stack mostspecificmethod].
    rewrite (walk_trail _ _ _ _ _ _ _ _ _ _ _ Htr), replay_app.
    destruct (replay len (trail_events i 0 tr) (rk, most))
      as [[rk1 most1]|]; cbn [bind fst snd]; [|done].
    rewrite walk_empty. cbn [bind]. by apply IH.
Qed.

Lemma lookup_state_events p h args evs :
  events_of p h args = Some evs ->
  lookup_state p h args =
  (do st <- replay (length args) evs (∅, None); Ok (LState st.1 [] st.2)).
Proof. apply lookup_args_events. Qed.

(** ** The ranking step *)

Lemma truthy_name_Some most m0 : truthy_name most = Some m0 -> most = Some m0.
Proof.
  destruct most as [s|]; simpl; [|done]. by case_decide; intros; simplify_eq.
Qed.

Lemma rank_method_step len i d rk most m :
  selected_ranked (rk, most) ->
  rank_method len i d (rk, most) m = Ok (rank_step len (rk, most) (i, d, m)).
Proof.
  intros Hsel. unfold rank_method, rank_step, bump. simpl.
  case_decide; [|done].
  destruct (truthy_name most) as [m0|] eqn:Hm0; [|done].
  apply truthy_name_Some in Hm0. destruct (Hsel m0 Hm0) as [r0 Hr0].
  destruct (decide (m = m0)) as [->|Hne].
  - rewrite lookup_insert_eq. simpl. by destruct (vector_lt _ _).
  - rewrite lookup_insert_ne by done. simpl in Hr0. rewrite Hr0. simpl.
    by destruct (vector_lt _ _).
Qed.

Lemma rank_step_selected len st ev :
  selected_ranked st -> selected_ranked (rank_step len st ev).
Proof.
  destruct st as [rk most], ev as [[i d] m]. intros Hsel m0.
  unfold rank_step. simpl. intros Hm0.
  destruct (decide (m0 = m)) as [->|Hne];
    [by rewrite lookup_insert_eq | rewrite lookup_insert_ne by done].
  apply Hsel. simpl.
  repeat (case_decide || case_match); by simplify_eq.
Qed.

Lemma replay_fold len evs st :
  selected_ranked st ->
  replay len evs st = Ok (fold_left (rank_step len) evs st) /\
  selected_ranked (fold_left (rank_step len) evs st).
Proof.
  revert st. induction evs as [|[[i d] m] evs IH]; intros [rk most] Hsel;
    [done|].
  unfold replay. cbn [forEach fold_left].
  rewrite (rank_method_step _ _ _ _ _ _ Hsel). cbn [bind].
  apply IH. by apply rank_step_selected.
Qed.

Lemma selected_ranked_init : selected_ranked (∅, None).
Proof. by intros m0. Qed.

(** A lookup whose walks all complete returns, and its final state is the
    fold of the ranking step over its events. *)
Lemma lookup_state_fold p h args evs :
  events_of p h args = Some evs ->
  lookup_state p h args =
    Ok (LState (fold_left (rank_step (length args)) evs (∅, None)).1 []
               (fold_left (rank_step (length args)) evs (∅, None)).2).
Proof.
  intros Hev. rewrite (lookup_state_events _ _ _ _ Hev).
  by destruct (replay_fold (length args) evs _ selected_ranked_init)
    as [-> _].
Qed.

(** ** The only exception a lookup raises is a TypeError *)

Lemma bind_type_error_only {A B} (r : result A) (k : A -> result B) :
  type_error_only r -> (forall a, type_error_only (k a)) ->
  type_error_only (bind r k).
Proof.
  intros Hr Hk. destruct r as [a|e]; simpl; [apply Hk|].
  intros e' [= <-]. by apply Hr.
Qed.

Lemma Ok_type_error_only {A} (a : A) : type_error_only (Ok a).
Proof. by intros e. Qed.

Lemma Throw_type_error_only {A} : type_error_only (@Throw A TypeError).
Proof. intros e. by intros [= <-]. Qed.

Lemma get_prop_type_error_only h v name : type_error_only (get_prop h v name).
Proof.
  destruct v; simpl;
    auto using Ok_type_error_only, Throw_type_error_only.
Qed.

Lemma define_property_type_error_only h l name v :
  type_error_only (define_property h l name v).
Proof.
  unfold define_property. repeat case_match;
    auto using Ok_type_error_only, Throw_type_error_only.
Qed.

Lemma items_of_type_error_only h methods :
  type_error_only (items_of h methods).
Proof.
  unfold items_of. repeat case_match;
    auto using Ok_type_error_only, Throw_type_error_only.
Qed.

Lemma get_table_type_error_only p h v create :
  type_error_only (get_table p h v create).
Proof.
  destruct v; simpl; auto using Ok_type_error_only, Throw_type_error_only.
  - repeat case_match; apply Ok_type_error_only.
  - repeat case_match; apply Ok_type_error_only.
  - destruct (negb _); [apply Throw_type_error_only|].
    apply bind_type_error_only; [|intros ?; apply Ok_type_error_only].
    destruct (create && _); simpl; [|apply Ok_type_error_only].
    apply define_property_type_error_only.
Qed.

Lemma methods_in_type_error_only h table rn :
  type_error_only (methods_in h table rn).
Proof.
  unfold methods_in. destruct (truthy table); [|apply Ok_type_error_only].
  apply bind_type_error_only; [apply get_prop_type_error_only|].
  intros methods. destruct (truthy methods); [|apply Ok_type_error_only].
  apply bind_type_error_only; [apply items_of_type_error_only|].
  intros ?. apply Ok_type_error_only.
Qed.

Lemma methods_at_type_error_only p h i e :
  type_error_only (methods_at p h i e).
Proof.
  apply bind_type_error_only; [apply get_table_type_error_only|].
  intros r. apply methods_in_type_error_only.
Qed.

Lemma assign_type_error_only h target name v :
  type_error_only (assign h target name v).
Proof.
  unfold assign. repeat case_match;
    auto using Ok_type_error_only, Throw_type_error_only.
Qed.

Lemma push_item_type_error_only h arr m :
  type_error_only (push_item h arr m).
Proof.
  unfold push_item. repeat case_match;
    auto using Ok_type_error_only, Throw_type_error_only.
Qed.

Lemma method_step_type_error_only methodname i arg p h :
  type_error_only (method_step methodname i arg p h).
Proof.
  unfold method_step.
  apply bind_type_error_only; [apply get_table_type_error_only|].
  intros [[p1 h1] table].
  apply bind_type_error_only; [apply get_prop_type_error_only|].
  intros methods. apply bind_type_error_only.
  { destruct (truthy methods); [apply Ok_type_error_only|].
    destruct (alloc h1 empty_array). apply assign_type_error_only. }
  intros h2. apply bind_type_error_only; [apply get_prop_type_error_only|].
  intros methods'.
  apply bind_type_error_only; [apply push_item_type_error_only|].
  intros ?. apply Ok_type_error_only.
Qed.

Lemma delegation_type_error_only h e : type_error_only (delegation h e).
Proof.
  unfold delegation. apply bind_type_error_only.
  - destruct (isValue e); [apply Ok_type_error_only|].
    repeat (apply bind_type_error_only;
            [apply get_prop_type_error_only | intros ?]).
    apply Ok_type_error_only.
  - intros [|]; [apply Ok_type_error_only|].
    destruct (_ || _); [|apply Ok_type_error_only].
    apply bind_type_error_only; [apply get_prop_type_error_only|].
    intros ?. apply Ok_type_error_only.
Qed.

Lemma rank_method_type_error_only len i d st m :
  type_error_only (rank_method len i d st m).
Proof.
  destruct st as [rk most]. unfold rank_method.
  repeat (case_decide || case_match);
    auto using Ok_type_error_only, Throw_type_error_only.
Qed.

Lemma forEach_type_error_only {S A} (f : S -> A -> result S) l s :
  (forall s x, type_error_only (f s x)) -> type_error_only (forEach f l s).
Proof.
  intros Hf. revert s. induction l as [|x l IH]; intros s; simpl.
  - apply Ok_type_error_only.
  - apply bind_type_error_only; [apply Hf | apply IH].
Qed.

Lemma visit_type_error_only p h len i position e st :
  type_error_only (visit p h len i position e st).
Proof.
  unfold visit.
  apply bind_type_error_only; [apply methods_at_type_error_only|].
  intros ms. apply bind_type_error_only.
  - destruct ms; [|apply Ok_type_error_only].
    apply forEach_type_error_only, rank_method_type_error_only.
  - intros [rk most].
    apply bind_type_error_only; [apply delegation_type_error_only|].
    intros ?. apply Ok_type_error_only.
Qed.

Lemma walk_type_error_only p h len i budget position st :
  type_error_only (walk p h len i budget position st).
Proof.
  revert position st. induction budget as [|budget IH]; intros position st;
    simpl; [apply Ok_type_error_only|].
  destruct (stack st); [apply Ok_type_error_only|].
  apply bind_type_error_only; [apply visit_type_error_only | intros ?; apply IH].
Qed.

Lemma lookup_args_type_error_only p h len i args st :
  type_error_only (lookup_args p h len i args st).
Proof.
  revert i st. induction args as [|a args IH]; intros i st;
    cbn [lookup_args]; [apply Ok_type_error_only|].
  apply bind_type_error_only; [apply walk_type_error_only | intros ?; apply IH].
Qed.

(** ** null and undefined arguments *)

Lemma visit_null_or_undefined p h len i position v st :
  v = VNull \/ v = VUndef ->
  visit p h len i position (Entry v true) st = Throw TypeError.
Proof.
  intros Hv. unfold visit.
  pose proof (methods_at_type_error_only p h i (Entry v true)) as Hm.
  destruct (methods_at p h i (Entry v true)) as [ms|e]; simpl;
    [|by rewrite (Hm e eq_refl)].
  assert (delegation h (Entry v true) = Throw TypeError) as Hd
    by (by destruct Hv as [-> | ->]).
  destruct ms as [ms|]; simpl; [|by rewrite Hd].
  pose proof (forEach_type_error_only (rank_method len i position) ms
                (ranks st, mostspecificmethod st)
                (rank_method_type_error_only len i position)) as Hte.
  destruct (forEach _ ms _) as [[rk most]|e]; simpl.
  - by rewrite Hd.
  - by rewrite (Hte e eq_refl).
Qed.

Lemma lookup_args_null_or_undefined p h len i args st :
  VNull ∈ args \/ VUndef ∈ args ->
  lookup_args p h len i args st = Throw TypeError.
Proof.
  revert i st. induction args as [|a args IH]; intros i st Hin.
  - destruct Hin as [Hin|Hin]; by apply elem_of_nil in Hin.
  - cbn [lookup_args].
    destruct (decide (a = VNull \/ a = VUndef)) as [Ha|Ha].
    + change (walk p h len i max_steps 0 ?s) with
        (do st' <- visit p h len i 0 (Entry a true)
                     (LState (ranks s) (stack st) (mostspecificmethod s));
         walk p h len i 9 1 st').
      by rewrite visit_null_or_undefined.
    + assert (VNull ∈ args \/ VUndef ∈ args) as Hin'.
      { destruct Hin as [Hin|Hin]; apply elem_of_cons in Hin;
          destruct Hin as [<-|Hin]; tauto. }
      pose proof (walk_type_error_only p h len i 10 0
        (LState (ranks st) (Entry a true :: stack st)
                (mostspecificmethod st))) as Hte.
      destruct (walk _ _ _ _ _ _ _) as [st'|e]; simpl.
      * by apply IH.
      * by rewrite (Hte e eq_refl).
Qed.

(** ** Delegation chains *)

(** Nothing is pushed only above the root [ANY]. *)
Lemma delegation_None h e :
  delegation h e = Ok None -> e = Entry (VRef Realm.ANY) false.
Proof.
  destruct e as [a v]. unfold delegation. simpl.
  destruct v; simpl.
  - rewrite orb_true_r. by destruct (get_prop h a "constructor").
  - destruct (get_prop h a "prototype") as [pr|] eqn:Hpr; simpl; [|done].
    destruct (get_prop h pr "constructor") as [c|]; simpl; [|done].
    case_bool_decide; [done|]. rewrite orb_false_r.
    case_bool_decide as Hne; simpl.
    + done.
    + intros _. f_equal. by destruct (decide (a = VRef Realm.ANY)).
Qed.

(** ** The log of a walk *)

Lemma visit_push p h len i position e st st' :
  visit p h len i position e st = Ok st' ->
  exists d, delegation h e = Ok d /\ stack st' = push d (stack st).
Proof.
  unfold visit. intros Hv.
  destruct (methods_at p h i e) as [ms|]; [|done]. cbn [bind] in Hv.
  destruct (match ms with Some _ => _ | None => _ end) as [[rk most]|];
    [|done].
  cbn [bind] in Hv. destruct (delegation h e) as [d|]; [|done].
  cbn [bind] in Hv. injection Hv as <-. by exists d.
Qed.

(** The logged loops are the loops themselves. *)
Lemma walk_log_walk p h len i budget position st :
  walk p h len i budget position st =
  (do r <- walk_log p h len i budget position st; Ok r.2).
Proof.
  revert position st. induction budget as [|budget IH]; intros position st;
    simpl; [done|].
  destruct (stack st) as [|e rest]; [done|].
  destruct (visit _ _ _ _ _ _ _) as [st1|]; simpl; [|done].
  rewrite IH. by destruct (walk_log _ _ _ _ _ _ _).
Qed.

Lemma lookup_args_log_lookup_args p h len i args st :
  lookup_args p h len i args st =
  (do r <- lookup_args_log p h len i args st; Ok r.2).
Proof.
  revert i st. induction args as [|a args IH]; intros i st;
    cbn [lookup_args lookup_args_log]; [done|].
  rewrite walk_log_walk.
  destruct (walk_log _ _ _ _ _ _ _) as [r|]; cbn [bind]; [|done].
  rewrite IH. by destruct (lookup_args_log _ _ _ _ _ _).
Qed.

Lemma lookup_log_lookup_state p h args :
  lookup_state p h args = (do r <- lookup_log p h args; Ok r.2).
Proof. apply lookup_args_log_lookup_args. Qed.

Lemma walk_log_length p h len i budget position st r :
  walk_log p h len i budget position st = Ok r -> length r.1 <= budget.
Proof.
  revert position st r. induction budget as [|budget IH];
    intros position st r Hw; simpl in Hw; [by simplify_eq/=|].
  destruct (stack st) as [|e rest]; [simplify_eq/=; lia|].
  destruct (visit _ _ _ _ _ _ _) as [st1|]; [|done]. cbn [bind] in Hw.
  destruct (walk_log _ _ _ _ _ _ _) as [r1|] eqn:Hr1; [|done].
  apply IH in Hr1. simplify_eq/=. lia.
Qed.

(** The first entry of a log is the top of the stack. *)
Lemma walk_log_first p h len i budget position st r e :
  walk_log p h len i budget position st = Ok r ->
  r.1 !! 0 = Some e -> head (stack st) = Some e.
Proof.
  destruct budget as [|budget]; simpl; [by intros; simplify_eq/=|].
  destruct (stack st) as [|e' rest]; [by intros; simplify_eq/=|].
  destruct (visit _ _ _ _ _ _ _) as [st1|]; [|done]. cbn [bind].
  destruct (walk_log _ _ _ _ _ _ _) as [r1|]; [|done].
  by intros; simplify_eq/=.
Qed.

Lemma walk_log_head p h len i budget position rk e stk most r :
  walk_log p h len i (S budget) position (LState rk (e :: stk) most) = Ok r ->
  head r.1 = Some e.
Proof.
  simpl. destruct (visit _ _ _ _ _ _ _) as [st1|]; [|done]. cbn [bind].
  destruct (walk_log _ _ _ _ _ _ _) as [r1|]; [|done].
  by intros; simplify_eq/=.
Qed.

(** A walk stops when the bound is reached or the stack is empty. *)
Lemma walk_log_end p h len i budget position st r :
  walk_log p h len i budget position st = Ok r ->
  length r.1 = budget \/ stack r.2 = [].
Proof.
  revert position st r. induction budget as [|budget IH];
    intros position st r Hw; simpl in Hw; [simplify_eq/=; by left|].
  destruct (stack st) as [|e rest] eqn:Hst; [simplify_eq/=; by right|].
  destruct (visit _ _ _ _ _ _ _) as [st1|]; [|done]. cbn [bind] in Hw.
  destruct (walk_log _ _ _ _ _ _ _) as [r1|] eqn:Hr1; [|done].
  apply IH in Hr1. simplify_eq/=. destruct Hr1; [left; lia | by right].
Qed.

(** A walk that starts from a stack with one entry follows the delegation
    chain of that entry, and ends at the root when it empties the stack. *)
Lemma walk_log_single p h len i budget position rk e most r :
  walk_log p h len i budget position (LState rk [e] most) = Ok r ->
  linked h r.1 /\ (stack r.2 = [] -> last r.1 = Some root_entry).
Proof.
  revert position rk e most r. induction budget as [|budget IH];
    intros position rk e most r Hw; simpl in Hw.
  { simplify_eq/=. split; [by intros j e1 e2 ?|done]. }
  destruct (visit _ _ _ _ _ _ _) as [st1|] eqn:Hv; [|done].
  cbn [bind] in Hw.
  destruct (visit_push _ _ _ _ _ _ _ _ Hv) as (d & Hd & Hstk).
  cbn [stack] in Hstk. destruct st1 as [rk1 stk1 most1]. cbn [stack] in Hstk.
  subst stk1.
  destruct (walk_log _ _ _ _ _ _ _) as [r1|] eqn:Hr1; [|done].
  simplify_eq/=. destruct d as [e'|]; simpl in Hr1.
  - destruct (IH _ _ _ _ _ Hr1) as [Hlinked Hlast]. split.
    + intros [|j] e1 e2 H1 H2; simplify_eq/=.
      * apply (walk_log_first _ _ _ _ _ _ _ _ _ Hr1) in H2.
        by simplify_eq/=.
      * by eapply Hlinked.
    + intros Hnil. specialize (Hlast Hnil).
      destruct r1.1 as [|x l]; [done|]. exact Hlast.
  - assert (r1 = ([], LState rk1 [] most1)) as ->
      by (destruct budget; by simplify_eq/=).
    split; [by intros [|j] e1 e2 ? ?; simplify_eq/=|].
    intros _. simpl. f_equal. by apply (delegation_None h).
Qed.

(** The logs of a lookup: one for each argument, each starting at the
    argument and at most ten entries long; as long as no walk has used all
    ten iterations, a log follows the delegation chain of its argument and,
    unless it uses all ten itself, ends at the root. *)
Lemma lookup_args_log_spec p h len i args st r :
  lookup_args_log p h len i args st = Ok r ->
  length r.1 = length args /\
  (forall k v es,
     args !! k = Some v -> r.1 !! k = Some es ->
     1 <= length es <= max_steps /\ head es = Some (Entry v true)) /\
  (stack st = [] ->
   forall k es,
     r.1 !! k = Some es ->
     (forall k' es', k' < k -> r.1 !! k' = Some es' ->
                     length es' < max_steps) ->
     linked h es /\ (length es < max_steps -> last es = Some root_entry)).
Proof.
  revert i st r. induction args as [|a args IH]; intros i st r Hl;
    cbn [lookup_args_log] in Hl.
  { injection Hl as <-. cbn [fst snd]. split; [done|]. split; by intros. }
  destruct (walk_log p h len i max_steps 0 _) as [r1|] eqn:Hr1; [|done].
  cbn [bind] in Hl.
  destruct (lookup_args_log _ _ _ _ _ _) as [r2|] eqn:Hr2; [|done].
  destruct (IH _ _ _ Hr2) as (Hlen & Hbound & Hchain).
  cbn [bind] in Hl. injection Hl as <-. cbn [fst snd].
  pose proof (walk_log_length _ _ _ _ _ _ _ _ Hr1) as Hle.
  assert (head r1.1 = Some (Entry a true)) as Hhd.
  { revert Hr1. unfold max_steps. apply walk_log_head. }
  split; [cbn [length]; by rewrite Hlen|]. split.
  - intros [|k] v es Hv Hes; cbn [lookup] in Hv, Hes.
    + injection Hv as <-. injection Hes as <-. split; [|done].
      destruct r1.1; [done|]. cbn [length] in *. lia.
    + by eapply Hbound.
  - intros Hnil k es Hes Hshort. rewrite Hnil in Hr1.
    destruct (walk_log_single _ _ _ _ _ _ _ _ _ _ Hr1) as [Hlinked Hlast].
    destruct k as [|k]; cbn [lookup] in Hes.
    + injection Hes as <-. split; [done|]. intros Hlt. apply Hlast.
      destruct (walk_log_end _ _ _ _ _ _ _ _ Hr1) as [Heq|Hend]; [lia|done].
    + apply (Hchain) with (k := k); [|done|].
      * destruct (walk_log_end _ _ _ _ _ _ _ _ Hr1) as [Heq|Hend]; [|done].
        specialize (Hshort 0 r1.1 ltac:(lia) eq_refl). lia.
      * intros k' es' Hk' Hes'. apply (Hshort (S k') es'); [lia|done].
Qed.

Lemma trail_length p h i budget e tr :
  trail p h i budget e = Some tr -> 1 <= length tr <= budget.
Proof.
  revert e tr. induction budget as [|budget IH]; intros e tr Htr;
    simpl in *; [done|].
  destruct (methods_at p h i e) as [ms|]; [|done].
  destruct (delegation h e) as [[e'|]|]; [| |done].
  - destruct (trail p h i budget e') as [tr'|] eqn:Htr'; simplify_eq/=.
    specialize (IH _ _ Htr'). lia.
  - simplify_eq/=. lia.
Qed.

(** A walk that completes ends at the root. *)
Lemma trail_last p h i budget e tr :
  trail p h i budget e = Some tr ->
  last tr.*1 = Some (Entry (VRef Realm.ANY) false).
Proof.
  revert e tr. induction budget as [|budget IH]; intros e tr Htr;
    simpl in *; [done|].
  destruct (methods_at p h i e) as [ms|]; [|done].
  destruct (delegation h e) as [[e'|]|] eqn:Hd; [| |done].
  - destruct (trail p h i budget e') as [tr'|] eqn:Htr'; simplify_eq/=.
    specialize (IH _ _ Htr').
    destruct tr' as [|x tr']; [done|]. exact IH.
  - simplify_eq/=. by rewrite (delegation_None _ _ Hd).
Qed.

Lemma trail_head p h i budget e tr :
  trail p h i budget e = Some tr ->
  exists ms tr', tr = (e, default [] ms) :: tr' /\ methods_at p h i e = Ok ms.
Proof.
  destruct budget as [|budget]; simpl; [done|].
  destruct (methods_at p h i e) as [ms|]; [|done].
  destruct (delegation h e) as [[e'|]|]; [| |done].
  - destruct (trail p h i budget e') as [tr'|]; intros; simplify_eq/=; eauto.
  - intros; simplify_eq/=; eauto.
Qed.

(** ** Sparse rank vectors *)

Lemma vector_set_lookup v i d j x :
  vector_set v i d !! j = Some (Some x) <->
  (j = i /\ x = d) \/ (j <> i /\ v !! j = Some (Some x)).
Proof.
  unfold vector_set. case_decide as Hi.
  - destruct (decide (j = i)) as [->|Hne].
    + rewrite list_lookup_insert_eq by done. naive_solver.
    + rewrite list_lookup_insert_ne by done. naive_solver.
  - destruct (decide (j < length v)) as [Hj|Hj].
    + rewrite lookup_app_l by done. split.
      * intros Hv. right. split; [lia|done].
      * intros [[-> _]|[_ Hv]]; [lia|done].
    + rewrite lookup_app_r by lia.
      assert (v !! j = None) as Hnone by (apply lookup_ge_None_2; lia).
      rewrite Hnone.
      destruct (decide (j - length v < i - length v)) as [Hlt|Hge].
      * rewrite lookup_app_l by (rewrite length_replicate; lia).
        rewrite lookup_replicate_2 by done.
        split; [done|]. intros [[-> _]|[_ ?]]; [lia|done].
      * rewrite lookup_app_r by (rewrite length_replicate; lia).
        rewrite length_replicate.
        destruct (decide (j = i)) as [->|Hne].
        -- replace (i - length v - (i - length v)) with 0 by lia.
           simpl. naive_solver.
        -- destruct (j - length v - (i - length v)) as [|k] eqn:Hk;
             [lia|]. simpl. naive_solver.
Qed.

Lemma vector_set_lookup_eq v i d : vector_set v i d !! i = Some (Some d).
Proof. apply vector_set_lookup. by left. Qed.

Lemma vector_set_length v i d :
  length (vector_set v i d) = length v `max` S i.
Proof.
  unfold vector_set. case_decide.
  - rewrite length_insert. lia.
  - rewrite !length_app, length_replicate. simpl. lia.
Qed.

(** ** Invariants of the fold of the ranking step *)

Lemma rank_step_ranks len st i d m :
  (rank_step len st (i, d, m)).1 = <[m := bump (st.1 !! m) i d]> st.1.
Proof. done. Qed.

Lemma rank_step_has_rank_here len st i d m :
  has_rank (rank_step len st (i, d, m)).1 m i.
Proof.
  rewrite rank_step_ranks. exists (bump (st.1 !! m) i d), d.
  rewrite lookup_insert_eq. split; [done|]. apply vector_set_lookup_eq.
Qed.

Lemma rank_step_has_rank_mono len st ev m i :
  has_rank st.1 m i -> has_rank (rank_step len st ev).1 m i.
Proof.
  destruct ev as [[i' d'] m']. intros (r & d & Hr & Hd).
  rewrite rank_step_ranks.
  destruct (decide (m' = m)) as [->|Hne].
  - rewrite Hr. destruct (decide (i = i')) as [->|Hi].
    + exists (bump (Some r) i' d'), d'. rewrite lookup_insert_eq.
      split; [done|]. apply vector_set_lookup_eq.
    + exists (bump (Some r) i' d'), d. rewrite lookup_insert_eq.
      split; [done|]. apply vector_set_lookup. right. by split.
  - exists r, d. by rewrite lookup_insert_ne.
Qed.

Lemma fold_has_rank_mono len evs st m i :
  has_rank st.1 m i -> has_rank (fold_left (rank_step len) evs st).1 m i.
Proof.
  revert st. induction evs as [|ev evs IH]; intros st Hr; [done|].
  simpl. apply IH. by apply rank_step_has_rank_mono.
Qed.

(** Every event leaves a rank at its position. *)
Lemma fold_has_rank len evs st i d m :
  (i, d, m) ∈ evs -> has_rank (fold_left (rank_step len) evs st).1 m i.
Proof.
  revert st. induction evs as [|ev evs IH]; intros st Hin.
  - by apply elem_of_nil in Hin.
  - simpl. apply elem_of_cons in Hin as [<-|Hin]; [|by apply IH].
    apply fold_has_rank_mono, rank_step_has_rank_here.
Qed.

(** A recorded rank comes from an event. *)
Lemma fold_rank_event len evs st m i d r :
  (fold_left (rank_step len) evs st).1 !! m = Some r ->
  vector r !! i = Some (Some d) ->
  (exists r0, st.1 !! m = Some r0 /\ vector r0 !! i = Some (Some d)) \/
  (i, d, m) ∈ evs.
Proof.
  revert st r. induction evs as [|[[i' d'] m'] evs IH]; intros st r Hr Hd.
  - left. eauto.
  - cbn [fold_left] in Hr.
    destruct (IH _ _ Hr Hd) as [(r0 & Hr0 & Hd0)|Hin].
    + rewrite rank_step_ranks in Hr0.
      destruct (decide (m' = m)) as [->|Hne].
      * rewrite lookup_insert_eq in Hr0. simplify_eq/=.
        apply vector_set_lookup in Hd0 as [[-> ->]|[Hne Hd0]].
        -- right. apply elem_of_cons. by left.
        -- left. destruct (st.1 !! m) as [r0|] eqn:Hm; simpl in Hd0;
             [eauto | done].
      * rewrite lookup_insert_ne in Hr0 by done. left. eauto.
    + right. apply elem_of_cons. by right.
Qed.

Lemma rank_step_filled_of len st ev m :
  filled_of (rank_step len st ev).1 m =
  filled_of st.1 m + (if decide (ev_method ev = m) then 1 else 0).
Proof.
  destruct ev as [[i d] m']. rewrite rank_step_ranks. unfold filled_of.
  simpl. case_decide as Hm.
  - subst. rewrite lookup_insert_eq. unfold bump. simpl.
    destruct (st.1 !! m); simpl; lia.
  - rewrite lookup_insert_ne by done. lia.
Qed.

(** [filled] counts the events of a method. *)
Lemma fold_filled_of len evs st m :
  filled_of (fold_left (rank_step len) evs st).1 m =
  filled_of st.1 m + count_of m evs.
Proof.
  revert st. induction evs as [|ev evs IH]; intros st.
  - unfold count_of. simpl. lia.
  - simpl. rewrite IH, rank_step_filled_of. unfold count_of.
    rewrite filter_cons. case_decide; simpl; lia.
Qed.

Lemma rank_step_none_iff_unfilled len st ev :
  none_iff_unfilled len st -> none_iff_unfilled len (rank_step len st ev).
Proof.
  destruct st as [rk most], ev as [[i d] m]. unfold none_iff_unfilled.
  intros Hinv.
  assert (forall m', filled_of (rank_step len (rk, most) (i, d, m)).1 m' =
    filled_of rk m' + (if decide (m = m') then 1 else 0)) as Hf
    by (intros m'; apply rank_step_filled_of).
  assert (filled (bump (rk !! m) i d) = S (filled_of rk m)) as Hb.
  { unfold bump, filled_of. by destruct (rk !! m). }
  unfold rank_step in *. cbn [fst snd] in *. rewrite Hb.
  case_decide as Hlen.
  - split.
    + intros Hnone. exfalso.
      destruct (truthy_name most) as [m0|] eqn:Hm0; [|done].
      apply truthy_name_Some in Hm0.
      by destruct (vector_lt _ _); simplify_eq.
    + intros Hall. specialize (Hall m). rewrite Hf in Hall.
      rewrite decide_True in Hall by done. lia.
  - rewrite Hinv. split.
    + intros Hall m'. rewrite Hf. specialize (Hall m').
      case_decide; [subst|]; lia.
    + intros Hall m'. specialize (Hall m'). rewrite Hf in Hall. lia.
Qed.

Lemma fold_none_iff_unfilled len evs st :
  none_iff_unfilled len st ->
  none_iff_unfilled len (fold_left (rank_step len) evs st).
Proof.
  revert st. induction evs as [|ev evs IH]; intros st Hinv; [done|].
  simpl. by apply IH, rank_step_none_iff_unfilled.
Qed.

Lemma none_iff_unfilled_init len : 0 < len -> none_iff_unfilled len (∅, None).
Proof. intros Hlen. split; [|done]. intros _ m. by unfold filled_of. Qed.

(** ** The events of a lookup *)

Lemma trail_events_elem i position tr d e ms m :
  tr !! d = Some (e, ms) -> m ∈ ms ->
  (i, position + d, m) ∈ trail_events i position tr.
Proof.
  revert position d. induction tr as [|[e' ms'] tr IH]; intros position d;
    [done|].
  intros Hd Hm. simpl. apply elem_of_app.
  destruct d as [|d]; simplify_eq/=.
  - left. replace (position + 0) with position by lia.
    by apply list_elem_of_fmap_2.
  - right. replace (position + S d) with (S position + d) by lia.
    by apply IH.
Qed.

Lemma trail_events_inv i position tr ev :
  ev ∈ trail_events i position tr ->
  exists d e ms,
    ev = (i, position + d, ev_method ev) /\
    tr !! d = Some (e, ms) /\ ev_method ev ∈ ms.
Proof.
  revert position. induction tr as [|[e ms] tr IH]; intros position Hin.
  - by apply elem_of_nil in Hin.
  - simpl in Hin. apply elem_of_app in Hin as [Hin|Hin].
    + apply list_elem_of_fmap in Hin as (m & -> & Hm).
      exists 0, e, ms. replace (position + 0) with position by lia. done.
    + destruct (IH _ Hin) as (d & e' & ms' & Hev & Hd & Hm).
      exists (S d), e', ms'.
      replace (position + S d) with (S position + d) by lia. done.
Qed.

Lemma events_from_trail p h i0 args evs k v :
  events_from p h i0 args = Some evs ->
  args !! k = Some v ->
  exists tr,
    trail p h (i0 + k) max_steps (Entry v true) = Some tr /\
    forall ev, ev ∈ trail_events (i0 + k) 0 tr -> ev ∈ evs.
Proof.
  revert i0 evs k. induction args as [|a args IH]; intros i0 evs k Hev Hk;
    [done|].
  cbn [events_from] in Hev.
  destruct (trail p h i0 max_steps (Entry a true)) as [tr|] eqn:Htr; [|done].
  destruct (events_from p h (S i0) args) as [evs'|] eqn:Hev'; [|done].
  simplify_eq. destruct k as [|k]; simplify_eq/=.
  - exists tr. replace (i0 + 0) with i0 by lia. split; [done|].
    intros ev Hin. apply elem_of_app. by left.
  - destruct (IH _ _ _ Hev' Hk) as (tr' & Htr' & Hsub).
    exists tr'. replace (i0 + S k) with (S i0 + k) by lia. split; [done|].
    intros ev Hin. apply elem_of_app. right. by apply Hsub.
Qed.

Lemma events_from_inv p h i0 args evs ev :
  events_from p h i0 args = Some evs -> ev ∈ evs ->
  exists k v tr d e ms,
    args !! k = Some v /\
    trail p h (i0 + k) max_steps (Entry v true) = Some tr /\
    tr !! d = Some (e, ms) /\
    ev = (i0 + k, d, ev_method ev) /\ ev_method ev ∈ ms.
Proof.
  revert i0 evs. induction args as [|a args IH]; intros i0 evs Hev Hin.
  - simplify_eq/=. by apply elem_of_nil in Hin.
  - cbn [events_from] in Hev.
    destruct (trail p h i0 max_steps (Entry a true)) as [tr|] eqn:Htr; [|done].
    destruct (events_from p h (S i0) args) as [evs'|] eqn:Hev'; [|done].
    simplify_eq. apply elem_of_app in Hin as [Hin|Hin].
    + destruct (trail_events_inv _ _ _ _ Hin) as (d & e & ms & Heq & Hd & Hm).
      exists 0, a, tr, d, e, ms. replace (i0 + 0) with i0 by lia. done.
    + destruct (IH _ _ Hev' Hin)
        as (k & v & tr' & d & e & ms & Hk & Htr' & Hd & Heq & Hm).
      exists (S k), v, tr', d, e, ms.
      replace (i0 + S k) with (S i0 + k) by lia. done.
Qed.

(** Positions are argument indices and distances are below ten. *)
Lemma events_of_bounds p h args evs ev :
  events_of p h args = Some evs -> ev ∈ evs ->
  ev_pos ev < length args /\ ev_dist ev < 10.
Proof.
  intros Hev Hin.
  destruct (events_from_inv _ _ _ _ _ _ Hev Hin)
    as (k & v & tr & d & e & ms & Hk & Htr & Hd & -> & Hm).
  unfold ev_pos, ev_dist. simpl. split.
  - by apply lookup_lt_Some in Hk.
  - apply trail_length in Htr. apply lookup_lt_Some in Hd.
    unfold max_steps in Htr. lia.
Qed.

Lemma events_of_nil p h : events_of p h [] = Some [].
Proof. done. Qed.

(** The walk of an argument of a lookup whose walks all complete. *)
Lemma events_of_trail p h args evs i v :
  events_of p h args = Some evs -> args !! i = Some v ->
  exists tr,
    trail p h i max_steps (Entry v true) = Some tr /\
    forall d e ms m, tr !! d = Some (e, ms) -> m ∈ ms -> (i, d, m) ∈ evs.
Proof.
  intros Hev Hi.
  destruct (events_from_trail _ _ _ _ _ _ _ Hev Hi) as (tr & Htr & Hsub).
  exists tr. split; [done|]. intros d e ms m Hd Hm.
  apply Hsub. by apply (trail_events_elem i 0 tr d e ms m).
Qed.

(** The second owner of a walk is the delegate of the first. *)
Lemma trail_second p h i budget e e' tr :
  trail p h i (S (S budget)) e = Some tr ->
  delegation h e = Ok (Some e') ->
  exists ms, tr !! 1 = Some (e', default [] ms) /\
             methods_at p h i e' = Ok ms.
Proof.
  intros Htr Hd. cbn [trail] in Htr. rewrite Hd in Htr.
  destruct (methods_at p h i e) as [ms0|]; [|done].
  destruct (match methods_at p h i e' with
            | Ok ms => _ | Throw _ => None end) as [tr'|] eqn:Htr';
    simplify_eq/=.
  destruct (methods_at p h i e') as [ms|]; [|done].
  exists ms. split; [|done].
  destruct (delegation h e') as [[e''|]|]; [| |done].
  - by destruct (trail p h i budget e''); simplify_eq/=.
  - by simplify_eq/=.
Qed.

(** A walk that completes examines the root. *)
Lemma trail_root p h i budget e tr :
  trail p h i budget e = Some tr ->
  exists d ms, tr !! d = Some (Entry (VRef Realm.ANY) false, default [] ms) /\
               methods_at p h i (Entry (VRef Realm.ANY) false) = Ok ms.
Proof.
  revert e tr. induction budget as [|budget IH]; intros e tr Htr;
    simpl in *; [done|].
  destruct (methods_at p h i e) as [ms|] eqn:Hms; [|done].
  destruct (delegation h e) as [[e'|]|] eqn:Hd; [| |done].
  - destruct (trail p h i budget e') as [tr'|] eqn:Htr'; simplify_eq/=.
    destruct (IH _ _ Htr') as (d & ms' & Hd' & Hms').
    by exists (S d), ms'.
  - simplify_eq/=. apply delegation_None in Hd as ->.
    by exists 0, ms.
Qed.

(** ** Ranks recorded during a lookup are kept *)










(** ** Comparing rank vectors as strings *)


Lemma pretty_digit d : d < 10 -> pretty d = String (digit d) "".
Proof.
  intros Hd.
  destruct d as [|[|[|[|[|[|[|[|[|[|d]]]]]]]]]];
    [vm_compute; reflexivity..|lia].
Qed.

Lemma digit_compare a b :
  a < 10 -> b < 10 -> Ascii.compare (digit a) (digit b) = Nat.compare a b.
Proof.
  intros Ha Hb.
  destruct a as [|[|[|[|[|[|[|[|[|[|a]]]]]]]]]]; [..|lia];
    (destruct b as [|[|[|[|[|[|[|[|[|[|b]]]]]]]]]];
       [vm_compute; reflexivity..|lia]).
Qed.

Lemma lex_lt_cons a b v1 v2 :
  lex_lt (a :: v1) (b :: v2) =
  if decide (a < b) then true
  else if decide (a = b) then lex_lt v1 v2 else false.
Proof. reflexivity. Qed.

Lemma string_compare_digit a b s1 s2 :
  String.compare (String (digit a) "" +:+ "," +:+ s1)
                 (String (digit b) "" +:+ "," +:+ s2) =
  match Ascii.compare (digit a) (digit b) with
  | Eq => String.compare s1 s2
  | ne => ne
  end.
Proof. reflexivity. Qed.

Lemma vector_string_cons_cons d d' ds :
  vector_string (Some d :: Some d' :: ds) =
  (pretty d +:+ "," +:+ vector_string (Some d' :: ds))%string.
Proof. reflexivity. Qed.

Lemma vector_string_singleton d : vector_string [Some d] = pretty d.
Proof. reflexivity. Qed.

(** On rank vectors without holes, of the same length and with distances
    below ten, the comparison of the string conversions is the lexicographic
    order. *)
Lemma vector_lt_lex ds1 ds2 :
  length ds1 = length ds2 ->
  Forall (fun d => d < 10) ds1 -> Forall (fun d => d < 10) ds2 ->
  vector_lt (Some <$> ds1) (Some <$> ds2) = lex_lt ds1 ds2.
Proof.
  unfold vector_lt, String.ltb.
  revert ds2. induction ds1 as [|a ds1 IH]; intros [|b ds2] Hlen H1 H2;
    try discriminate; [reflexivity|].
  apply Forall_cons in H1 as [Ha H1]. apply Forall_cons in H2 as [Hb H2].
  injection Hlen as Hlen.
  destruct ds1 as [|a' ds1], ds2 as [|b' ds2]; try discriminate.
  - rewrite !fmap_cons, !fmap_nil, !vector_string_singleton.
    rewrite !pretty_digit by done.
    cbn [String.compare lex_lt]. rewrite digit_compare by done.
    destruct (Nat.compare_spec a b); repeat case_decide; try done; lia.
  - rewrite !fmap_cons, !vector_string_cons_cons.
    rewrite (pretty_digit a), (pretty_digit b) by done.
    rewrite string_compare_digit, digit_compare, lex_lt_cons by done.
    destruct (Nat.compare_spec a b).
    + rewrite decide_False, decide_True by lia.
      specialize (IH (b' :: ds2) Hlen H1 H2). by rewrite !fmap_cons in IH.
    + by rewrite decide_True by lia.
    + by rewrite !decide_False by lia.
Qed.

Lemma string_compare_refl s : String.compare s s = Eq.
Proof.
  induction s as [|a s IH]; [done|]. cbn [String.compare].
  unfold Ascii.compare. by rewrite N.compare_refl.
Qed.

Lemma vector_lt_irrefl v : vector_lt v v = false.
Proof. unfold vector_lt, String.ltb. by rewrite string_compare_refl. Qed.

(** ** Methods met once per position *)

Lemma event_eta (ev : event) : ev = (ev_pos ev, ev_dist ev, ev_method ev).
Proof. by destruct ev as [[? ?] ?]. Qed.

Lemma once_per_role_unique evs ev1 ev2 :
  once_per_role evs -> ev1 ∈ evs -> ev2 ∈ evs ->
  ev_key ev1 = ev_key ev2 -> ev1 = ev2.
Proof.
  unfold once_per_role. induction evs as [|ev evs IH]; intros Hnd H1 H2 Hk.
  - by apply elem_of_nil in H1.
  - rewrite fmap_cons in Hnd. apply NoDup_cons in Hnd as [Hnot Hnd].
    apply elem_of_cons in H1 as [->|H1], H2 as [->|H2]; [done|..].
    + exfalso. apply Hnot. rewrite Hk. by apply list_elem_of_fmap_2.
    + exfalso. apply Hnot. rewrite <-Hk. by apply list_elem_of_fmap_2.
    + by apply IH.
Qed.

Lemma once_per_role_distance evs i d d' m :
  once_per_role evs -> (i, d, m) ∈ evs -> (i, d', m) ∈ evs -> d = d'.
Proof.
  intros Hnd H1 H2.
  by pose proof (once_per_role_unique _ _ _ Hnd H1 H2 eq_refl) as [= ->].
Qed.

Lemma once_per_role_app_l evs1 evs2 :
  once_per_role (evs1 ++ evs2) -> once_per_role evs1.
Proof.
  unfold once_per_role. rewrite fmap_app. intros Hnd.
  by apply NoDup_app in Hnd as [? _].
Qed.

Lemma positions_NoDup evs m :
  once_per_role evs ->
  NoDup (ev_pos <$> filter (fun ev => ev_method ev = m) evs).
Proof.
  intros Hnd. apply NoDup_fmap_2_strong.
  - intros ev1 ev2 H1 H2 Hpos.
    apply list_elem_of_filter in H1 as [Hm1 H1].
    apply list_elem_of_filter in H2 as [Hm2 H2].
    apply (once_per_role_unique evs); [done..|].
    unfold ev_key. by rewrite Hpos, Hm1, Hm2.
  - apply NoDup_filter. by eapply NoDup_fmap_1.
Qed.

Lemma positions_submseteq len evs m :
  once_per_role evs ->
  (forall ev, ev ∈ evs -> ev_pos ev < len) ->
  ev_pos <$> filter (fun ev => ev_method ev = m) evs ⊆+ seq 0 len.
Proof.
  intros Hnd Hb. apply NoDup_submseteq; [by apply positions_NoDup|].
  intros i Hi. apply list_elem_of_fmap in Hi as (ev & -> & Hev).
  apply list_elem_of_filter in Hev as [_ Hev].
  apply elem_of_seq. specialize (Hb ev Hev). lia.
Qed.

(** A method met once per position is met at most [len] times... *)
Lemma count_of_le len evs m :
  once_per_role evs ->
  (forall ev, ev ∈ evs -> ev_pos ev < len) ->
  count_of m evs <= len.
Proof.
  intros Hnd Hb. unfold count_of.
  trans (length (ev_pos <$> filter (fun ev => ev_method ev = m) evs));
    [by rewrite length_fmap|].
  trans (length (seq 0 len)); [|by rewrite length_seq].
  by apply submseteq_length, positions_submseteq.
Qed.

(** ... and [len] times exactly when it is met at every position. *)
Lemma count_of_full len evs m i :
  once_per_role evs ->
  (forall ev, ev ∈ evs -> ev_pos ev < len) ->
  len <= count_of m evs -> i < len ->
  exists d, (i, d, m) ∈ evs.
Proof.
  intros Hnd Hb Hcount Hi.
  pose proof (positions_submseteq len evs m Hnd Hb) as Hsub.
  apply submseteq_length_Permutation in Hsub;
    [|by rewrite length_seq, length_fmap].
  assert (i ∈ ev_pos <$> filter (fun ev => ev_method ev = m) evs) as Hin.
  { rewrite Hsub. apply elem_of_seq. lia. }
  apply list_elem_of_fmap in Hin as (ev & -> & Hev).
  apply list_elem_of_filter in Hev as [<- Hev].
  exists (ev_dist ev). by rewrite <-event_eta.
Qed.

(** * The claims *)

(** ** C10: null and undefined arguments *)

(** C10.  A call with [null] or [undefined] among its arguments raises a
    TypeError from inside the walk of [lookup]: it neither returns a result
    nor raises the no-applicable-method condition, whatever methods are
    registered (also one whose specialiser is that very value). *)
Theorem C10_null_or_undefined_argument p h args :
  VNull ∈ args \/ VUndef ∈ args ->
  lookup p h args = Throw TypeError /\ dispatch p h args = Throw TypeError.
Proof.
  intros Hin. unfold dispatch, lookup, lookup_state.
  by rewrite lookup_args_null_or_undefined.
Qed.

Lemma C10_witness :
  (VNull ∈ [VNull] \/ VUndef ∈ [VNull]) /\
  raised null_program = [None] /\
  lookup (the_proc null_program) (the_heap null_program) [VNull]
    = Throw TypeError /\
  call null_program [VNull] = Throw TypeError.
Proof.
  split; [left; apply list_elem_of_singleton; reflexivity|].
  split; [vm_compute; reflexivity|].
  apply (C10_null_or_undefined_argument
           (the_proc null_program) (the_heap null_program) [VNull]).
  left; apply list_elem_of_singleton; reflexivity.
Defined.

(** ** C9: registration *)

Lemma get_table_undefined p h create :
  get_table p h VUndef create = Throw TypeError.
Proof. done. Qed.

(** A registration with [undefined] among the specialisers raises a
    TypeError. *)
Lemma method_loop_undefined methodname i specs p h :
  VUndef ∈ specs ->
  (method_loop methodname i specs p h).2 = Some TypeError.
Proof.
  revert i p h. induction specs as [|a specs IH]; intros i p h Hin.
  - by apply elem_of_nil in Hin.
  - cbn [method_loop].
    pose proof (method_step_type_error_only methodname i a p h) as Hte.
    destruct (method_step methodname i a p h) as [[p2 h2]|e] eqn:Hstep;
      [|by rewrite (Hte e eq_refl)].
    apply IH. apply elem_of_cons in Hin as [<-|Hin]; [|done].
    by unfold method_step in Hstep.
Qed.

Lemma method_undefined p h c specs b :
  VUndef ∈ specs -> (method p h c specs b).2 = Some TypeError.
Proof.
  intros Hin. unfold method.
  destruct (gensym (name p) c) as [methodname c'].
  pose proof (method_loop_undefined methodname 0 specs p h Hin) as Hl.
  by destruct (method_loop methodname 0 specs p h) as [[p' h'] [e|]];
    simpl in *; simplify_eq.
Qed.

(** C9.  [f.method(undefined, body)] raises a TypeError: [get_table]
    evaluates [undefined.hasOwnProperty], so the specialiser [undefined]
    resolves to no owner and the method is not recorded. *)
Theorem C9_undefined_specializer_raises :
  raised undefined_program = [Some TypeError] /\
  METHODS (the_proc undefined_program) = ∅.
Proof. split; vm_compute; reflexivity. Qed.

(** ** C3: the [filled] counter *)

(** C3.  [f.method(Any, String, A); f(Any, 5)]: the walk of the first
    argument meets [ANY] twice (as the value, and as the root above
    [Function]), [filled] is incremented twice for position 0 and reaches
    the argument count 2 with no match at position 1, and [A] is applied. *)
Theorem C3_filled_counted_twice :
  raised double_count_program = [None] /\
  (exists st,
     lookup_state (the_proc double_count_program)
       (the_heap double_count_program) [VRef Realm.ANY; VNum 5] = Ok st /\
     ranks st !! "f_1" = Some (Rank 2 [Some 2]) /\
     mostspecificmethod st = Some "f_1") /\
  call double_count_program [VRef Realm.ANY; VNum 5] = Ok (VStr "A").
Proof.
  split; [vm_compute; reflexivity|]. split; [|vm_compute; reflexivity].
  eexists. split; [vm_compute; reflexivity|].
  split; vm_compute; reflexivity.
Qed.

(** The scenario of the spec: the three methods on [(Sub, Function)],
    [(Object, Function)] and [(String, Function)], called with a string and
    a function, resolve to the third. *)
Lemma once_per_role_scenario :
  raised once_per_role_program = [None; None; None] /\
  call once_per_role_program [VStr "foo"; VRef Types.a_function]
    = Ok (VStr "C").
Proof. split; vm_compute; reflexivity. Qed.

(** ** C6: values that must not match *)

(** C6.  [var P = {}; f.method(P, A); f(Object.create(P))]: [get_table]
    returns [value.__roles__], which the child inherits from [P], so the
    method registered for the value [P] matches a different value at
    distance 0 and is applied. *)
Theorem C6_inherited_roles_match :
  VRef Types.child <> VRef Types.P /\
  raised inherit_program = [None] /\
  methods_at (the_proc inherit_program) (the_heap inherit_program) 0
    (Entry (VRef Types.child) true) = Ok (Some ["f_1"]) /\
  call inherit_program [VRef Types.child] = Ok (VStr "A").
Proof.
  split; [done|]. repeat split; vm_compute; reflexivity.
Qed.

(** Where no table is inherited the exclusions hold: ['bar'] does not match
    the method registered for ['foo'], a number does not match a method on
    [String], and an instance of the supertype does not match a method
    registered for the subtype only. *)
Lemma negative_exclusion_scenarios :
  call foo_program [VStr "foo"] = Ok (VStr "A") /\
  call foo_program [VStr "bar"] = Throw NoApplicableMethod /\
  call (program_of "f" initial_heap [([VRef Realm.String], body_A)])
       [VNum 56] = Throw NoApplicableMethod /\
  call (program_of "f" user_heap [([VRef Types.Sub], body_A)])
       [VRef Types.a_super] = Throw NoApplicableMethod.
Proof. repeat split; vm_compute; reflexivity. Qed.

(** ** Rank and selection of a lookup whose walks complete *)

Lemma events_matches_at p h args evs i d m :
  events_of p h args = Some evs -> (i, d, m) ∈ evs -> matches_at p h args m i.
Proof.
  intros Hev Hin. unfold matches_at.
  rewrite (lookup_state_fold _ _ _ _ Hev).
  destruct (fold_has_rank (length args) evs (∅, None) i d m Hin)
    as (r & d' & Hr & Hd').
  eexists _, r, d'. by split.
Qed.

Lemma count_of_positions len evs m :
  (forall i, i < len -> exists d, (i, d, m) ∈ evs) ->
  len <= count_of m evs.
Proof.
  intros Hall. unfold count_of.
  trans (length (seq 0 len)); [by rewrite length_seq|].
  trans (length (ev_pos <$> filter (fun ev => ev_method ev = m) evs));
    [|by rewrite length_fmap].
  apply submseteq_length, NoDup_submseteq; [apply NoDup_seq|].
  intros i Hi. apply elem_of_seq in Hi.
  destruct (Hall i) as [d Hd]; [lia|].
  apply list_elem_of_fmap. exists (i, d, m). split; [done|].
  by apply list_elem_of_filter.
Qed.

Lemma events_selects_some p h args evs m :
  events_of p h args = Some evs ->
  0 < length args -> length args <= count_of m evs ->
  selects_some p h args.
Proof.
  intros Hev Hlen Hcount. unfold selects_some.
  rewrite (lookup_state_fold _ _ _ _ Hev).
  pose proof (fold_none_iff_unfilled (length args) evs (∅, None)
                (none_iff_unfilled_init _ Hlen)) as Hinv.
  destruct (fold_left _ evs _).2 as [m'|] eqn:Hm'.
  - eexists _, m'. split; [done|]. by simpl.
  - exfalso. destruct Hinv as [Hinv _]. specialize (Hinv Hm' m).
    rewrite fold_filled_of in Hinv. cbn [fst] in Hinv.
    unfold filled_of in Hinv. rewrite lookup_empty in Hinv. lia.
Qed.

(** ** C8: termination and the length of a walk *)

(** C8 (as amended).  A lookup terminates, with a result or a TypeError.
    When it returns, the loop has examined for each argument at most ten
    owners, the first of them the argument itself.  As long as no walk of
    the call has used all ten iterations, the owners of a walk are linked by
    the delegation step, and a walk that does not use all ten iterations
    itself ends at the root [ANY].  A walk that completes (its chain has at
    most ten owners and raises no TypeError) is the whole loop for its
    argument. *)
Theorem C8_walks_are_bounded p h args :
  (lookup p h args = Throw TypeError \/ exists b, lookup p h args = Ok b) /\
  lookup_state p h args = (do r <- lookup_log p h args; Ok r.2) /\
  (forall ess st,
     lookup_log p h args = Ok (ess, st) ->
     length ess = length args /\
     (forall k v es,
        args !! k = Some v -> ess !! k = Some es ->
        1 <= length es <= max_steps /\ head es = Some (Entry v true)) /\
     (forall k es,
        ess !! k = Some es ->
        (forall k' es', k' < k -> ess !! k' = Some es' ->
                        length es' < max_steps) ->
        linked h es /\ (length es < max_steps -> last es = Some root_entry))) /\
  (forall i v tr,
     trail p h i max_steps (Entry v true) = Some tr ->
     walk_reaches_root p h i v /\
     forall len rk stk most,
       walk p h len i max_steps 0 (LState rk (Entry v true :: stk) most) =
       (do st <- replay len (trail_events i 0 tr) (rk, most);
        walk p h len i (max_steps - length tr) (length tr)
             (LState st.1 stk st.2))).
Proof.
  split; [|split; [|split]].
  - unfold lookup, lookup_state.
    pose proof (lookup_args_type_error_only p h (length args) 0 args
                  (LState ∅ [] None)) as Hte.
    destruct (lookup_args _ _ _ _ _ _) as [st|e]; simpl; [eauto|].
    left. by rewrite (Hte e eq_refl).
  - apply lookup_log_lookup_state.
  - intros ess st Hlog.
    destruct (lookup_args_log_spec _ _ _ _ _ _ _ Hlog)
      as (Hlen & Hbound & Hchain).
    split; [exact Hlen|]. split; [exact Hbound|]. by apply Hchain.
  - intros i v tr Htr.
    split; [exists tr; split; [done | by eapply trail_last]|].
    intros len rk stk most. by rewrite (walk_trail _ _ _ _ _ _ _ _ _ _ _ Htr).
Qed.

Lemma C8_witness :
  (exists st,
     lookup_log (the_proc closest_program) (the_heap closest_program)
       [VRef Types.a_sub; VNum 5]
     = Ok ([[Entry (VRef Types.a_sub) true; Entry (VRef Types.Sub) false;
             Entry (VRef Types.SubPrototype) true;
             Entry (VRef Types.Super) false; root_entry];
            [Entry (VNum 5) true; Entry (VRef Realm.Number) false;
             root_entry]], st)) /\
  linked (the_heap closest_program)
    [Entry (VNum 5) true; Entry (VRef Realm.Number) false; root_entry] /\
  last [Entry (VNum 5) true; Entry (VRef Realm.Number) false; root_entry]
    = Some root_entry.
Proof.
  eassert (lookup_log (the_proc closest_program) (the_heap closest_program)
             [VRef Types.a_sub; VNum 5]
           = Ok ([[Entry (VRef Types.a_sub) true; Entry (VRef Types.Sub) false;
                   Entry (VRef Types.SubPrototype) true;
                   Entry (VRef Types.Super) false; root_entry];
                  [Entry (VNum 5) true; Entry (VRef Realm.Number) false;
                   root_entry]], _)) as Hlog by (vm_compute; reflexivity).
  split; [eexists; exact Hlog|].
  destruct (proj1 (proj2 (proj2 (C8_walks_are_bounded
                                   (the_proc closest_program)
                                   (the_heap closest_program)
                                   [VRef Types.a_sub; VNum 5])))
              _ _ Hlog) as (_ & _ & Hchain).
  destruct (Hchain 1 _ eq_refl) as [Hlinked Hlast].
  - intros [|k'] es' Hk' Hes'; [|lia].
    injection Hes' as <-. unfold max_steps. simpl. lia.
  - split; [exact Hlinked|]. apply Hlast. unfold max_steps. simpl. lia.
Defined.

(** C8, counterexample.  In the hierarchy five types deep the walk of
    [deep] examines ten owners, none of them the root: it is cut off with
    [ANY] still on the stack, and the method registered for [Any] does not
    apply.  The walk of a second argument [5] then examines [5], [Number],
    [ANY] and the [ANY] left on the stack, which is not the delegate of the
    owner before it. *)
Lemma C8_deep_walk_is_cut_off :
  ~ walk_reaches_root (the_proc deep_program) (the_heap deep_program) 0
      (VRef Deep.deep) /\
  (exists es st,
     lookup_log (the_proc deep_program) (the_heap deep_program)
       [VRef Deep.deep] = Ok ([es], st) /\
     length es = 10 /\ (root_entry ∉ es) /\ stack st = [root_entry]) /\
  call deep_program [VRef Deep.deep] = Throw NoApplicableMethod /\
  (exists es st,
     lookup_log (the_proc deep_program) (the_heap deep_program)
       [VRef Deep.deep; VNum 5]
     = Ok ([es; [Entry (VNum 5) true; Entry (VRef Realm.Number) false;
                 root_entry; root_entry]], st)) /\
  delegation (the_heap deep_program) root_entry = Ok None.
Proof.
  split; [|split; [|split; [|split]]].
  - intros (tr & Htr & _). vm_compute in Htr. discriminate.
  - eexists _, _. split; [vm_compute; reflexivity|]. split; [reflexivity|].
    split; [|reflexivity].
    intros Hin. repeat (apply elem_of_cons in Hin as [Hin|Hin];
                        [discriminate|]).
    by apply elem_of_nil in Hin.
  - vm_compute; reflexivity.
  - eexists _, _. vm_compute; reflexivity.
  - vm_compute; reflexivity.
Qed.

(** ** C7: the root [ANY] *)

(** In a lookup whose walks all complete, every walk ends at the root
    [ANY]; a method met at [ANY] for a position has a rank at that position;
    and a method met at [ANY] for every position of a call with at least
    one argument makes the lookup select a method. *)
Lemma any_matches_completed_walks p h args evs :
  events_of p h args = Some evs -> any_applies p h args.
Proof.
  intros Hev. split; [|split].
  - intros i v Hi.
    destruct (events_of_trail _ _ _ _ _ _ Hev Hi) as (tr & Htr & _).
    exists tr. split; [done | by eapply trail_last].
  - intros i m ms Hi Hms Hm.
    apply lookup_lt_is_Some in Hi as [v Hv].
    destruct (events_of_trail _ _ _ _ _ _ Hev Hv) as (tr & Htr & Hsub).
    destruct (trail_root _ _ _ _ _ _ Htr) as (d & ms' & Hd & Hms').
    unfold root_entry in Hms. rewrite Hms in Hms'. simplify_eq.
    cbn [default] in *.
    apply (events_matches_at p h args evs i d m Hev).
    exact (Hsub d _ _ m Hd Hm).
  - intros m Hlen Hall.
    apply (events_selects_some p h args evs m Hev Hlen).
    apply count_of_positions. intros i Hi.
    destruct (Hall i Hi) as (ms & Hms & Hm).
    apply lookup_lt_is_Some in Hi as [v Hv].
    destruct (events_of_trail _ _ _ _ _ _ Hev Hv) as (tr & Htr & Hsub).
    destruct (trail_root _ _ _ _ _ _ Htr) as (d & ms' & Hd & Hms').
    unfold root_entry in Hms. rewrite Hms in Hms'. simplify_eq.
    cbn [default] in *.
    exists d. exact (Hsub d _ _ m Hd Hm).
Qed.

Lemma any_matches_witness :
  (exists evs,
     events_of (the_proc any_any_program) (the_heap any_any_program)
       [VNum 56; VRef Types.a_sub] = Some evs) /\
  any_applies (the_proc any_any_program) (the_heap any_any_program)
    [VNum 56; VRef Types.a_sub].
Proof.
  assert (events_of (the_proc any_any_program) (the_heap any_any_program)
            [VNum 56; VRef Types.a_sub]
          = Some [(0, 2, "f_1"); (1, 4, "f_1")]) as Hev
    by (vm_compute; reflexivity).
  split; [by eexists|].
  exact (any_matches_completed_walks _ _ _ _ Hev).
Defined.

(** C7.  [f.method(Any, A); f(null)]: the method is registered on [Any],
    but the walk of [null] raises a TypeError at [null.constructor] and
    never reaches [ANY]: the method gets no rank and the call raises a
    TypeError instead of applying [A]. *)
Theorem C7_null_never_reaches_any :
  raised any_program = [None] /\
  ~ walk_reaches_root (the_proc any_program) (the_heap any_program) 0 VNull /\
  ~ matches_at (the_proc any_program) (the_heap any_program) [VNull] "f_1" 0 /\
  call any_program [VNull] = Throw TypeError /\
  call any_program [VNum 56] = Ok (VStr "A").
Proof.
  split; [vm_compute; reflexivity|]. split; [|split; [|split]].
  - intros (tr & Htr & _). vm_compute in Htr. discriminate.
  - intros (st & r & d & Hst & _). vm_compute in Hst. discriminate.
  - vm_compute; reflexivity.
  - vm_compute; reflexivity.
Qed.

(** ** C5: a primitive value and its boxed type marker *)




(** ** C4: invoke *)

Lemma rank_step_selected_from len st ev m0 :
  (rank_step len st ev).2 = Some m0 ->
  st.2 = Some m0 \/ ev_method ev = m0.
Proof.
  destruct st as [rk most], ev as [[i d] m]. unfold rank_step. simpl.
  repeat (case_decide || case_match); intros; simplify_eq; auto.
Qed.

(** The selected method is the method of some event. *)
Lemma fold_selected_from len evs st m0 :
  (fold_left (rank_step len) evs st).2 = Some m0 ->
  st.2 = Some m0 \/ exists ev, ev ∈ evs /\ ev_method ev = m0.
Proof.
  revert st. induction evs as [|ev evs IH]; intros st Hsel; [by left|].
  cbn [fold_left] in Hsel. destruct (IH _ Hsel) as [Hst|(ev' & Hin & Hm)].
  - destruct (rank_step_selected_from _ _ _ _ Hst) as [?|Hm]; [by left|].
    right. exists ev. split; [apply elem_of_cons; by left | done].
  - right. exists ev'. split; [apply elem_of_cons; by right | done].
Qed.

Lemma full_match_filled p h args evs st m :
  events_of p h args = Some evs ->
  once_per_role evs ->
  lookup_state p h args = Ok st ->
  (exists r, ranks st !! m = Some r /\ length args <= filled r) <->
  full_match st (length args) m.
Proof.
  intros Hev Hnd Hst. rewrite (lookup_state_fold _ _ _ _ Hev) in Hst.
  simplify_eq. unfold full_match. cbn [ranks].
  pose proof (fold_filled_of (length args) evs (∅, None) m) as Hf.
  unfold filled_of in Hf. cbn [fst] in Hf. rewrite lookup_empty in Hf.
  split.
  - intros (r & Hr & Hlen). exists r. split; [done|]. intros i Hi.
    rewrite Hr in Hf.
    destruct (count_of_full (length args) evs m i Hnd) as [d Hd];
      [|lia|done|].
    { intros ev Hin. by apply (events_of_bounds p h args evs ev Hev). }
    destruct (fold_has_rank (length args) evs (∅, None) i d m Hd)
      as (r' & d' & Hr' & Hd').
    exists d'. by simplify_eq.
  - intros (r & Hr & Hall). exists r. split; [done|].
    rewrite Hr in Hf. rewrite Hf. apply count_of_positions.
    intros i Hi. destruct (Hall i Hi) as [d Hd]. exists d.
    destruct (fold_rank_event _ _ _ _ _ _ _ Hr Hd)
      as [(r0 & Hr0 & _)|Hin]; [|done].
    cbn [fst] in Hr0. by rewrite lookup_empty in Hr0.
Qed.

(** X19.  When the walk of every argument completes, every method met has
    its body in [METHODS] and no body is stored under ["undefined"]:
    [dispatch] applies the body of the selected method to the arguments
    exactly when some [filled] counter reached the argument count, and
    raises the no-applicable-method condition otherwise; and where no
    method is met twice at a position, [filled] reaches the argument count
    exactly for the methods with a recorded match at every position. *)
Theorem invoke_on_completed_walks p h args evs :
  events_of p h args = Some evs ->
  Forall (fun ev => is_Some (METHODS p !! ev_method ev)) evs ->
  METHODS p !! "undefined" = None ->
  invoke_as_specified p h args /\
  (once_per_role evs ->
   forall st m,
     lookup_state p h args = Ok st ->
     (exists r, ranks st !! m = Some r /\ length args <= filled r) <->
     full_match st (length args) m).
Proof.
  intros Hev Hbodies Hundef. split;
    [|intros Hnd st m Hst; by eapply full_match_filled].
  unfold invoke_as_specified, dispatch, lookup.
  rewrite (lookup_state_fold _ _ _ _ Hev). eexists. split; [done|].
  cbn [bind mostspecificmethod]. unfold some_filled. cbn [ranks].
  destruct (decide (length args = 0)) as [Hlen|Hlen].
  - destruct args; [|done]. injection Hev as <-. simpl.
    split; [by intros (m & r & Hr & _)|]. intros _. by rewrite Hundef.
  - assert (0 < length args) as Hpos by lia.
    pose proof (fold_none_iff_unfilled (length args) evs (∅, None)
                  (none_iff_unfilled_init _ Hpos)) as Hinv.
    unfold none_iff_unfilled in Hinv.
    destruct (fold_left _ evs _) as [rk most] eqn:Hfold.
    cbn [fst snd] in *. split.
    + intros (m & r & Hr & Hfilled).
      destruct most as [m0|]; cycle 1.
      { destruct Hinv as [Hinv _]. specialize (Hinv eq_refl m).
        unfold filled_of in Hinv. rewrite Hr in Hinv. lia. }
      destruct (fold_selected_from (length args) evs (∅, None) m0)
        as [?|(ev & Hin & Hm)]; [by rewrite Hfold|done|].
      rewrite Forall_forall in Hbodies.
      destruct (Hbodies ev Hin) as [b Hb]. rewrite Hm in Hb.
      exists m0, b. split; [done|]. split; [done|].
      assert (method_key (Some m0) = m0) as -> by done. by rewrite Hb.
    + intros Hnone. rewrite (proj2 Hinv); [simpl; by rewrite Hundef|].
      intros m. unfold filled_of.
      destruct (rk !! m) as [r|] eqn:Hr; [|lia].
      destruct (decide (filled r < length args)); [done|].
      exfalso. apply Hnone. exists m, r. split; [done|lia].
Qed.

Lemma invoke_on_completed_walks_witness :
  (events_of (the_proc lexical_program) (the_heap lexical_program)
     [VRef Types.a_sub; VRef Types.a_sub]
   = Some [(0, 1, "f_2"); (0, 3, "f_1"); (1, 1, "f_1"); (1, 3, "f_2")] /\
   Forall (fun ev => is_Some (METHODS (the_proc lexical_program)
                                !! ev_method ev))
     [(0, 1, "f_2"); (0, 3, "f_1"); (1, 1, "f_1"); (1, 3, "f_2")] /\
   METHODS (the_proc lexical_program) !! "undefined" = None) /\
  invoke_as_specified (the_proc lexical_program) (the_heap lexical_program)
    [VRef Types.a_sub; VRef Types.a_sub] /\
  call lexical_program [VRef Types.a_sub; VRef Types.a_sub] = Ok (VStr "B") /\
  call lexical_program [VRef Types.a_sub; VNum 5] = Throw NoApplicableMethod.
Proof.
  assert (events_of (the_proc lexical_program) (the_heap lexical_program)
            [VRef Types.a_sub; VRef Types.a_sub]
          = Some [(0, 1, "f_2"); (0, 3, "f_1"); (1, 1, "f_1"); (1, 3, "f_2")])
    as Hev by (vm_compute; reflexivity).
  assert (Forall (fun ev => is_Some (METHODS (the_proc lexical_program)
                                       !! ev_method ev))
            [(0, 1, "f_2"); (0, 3, "f_1"); (1, 1, "f_1"); (1, 3, "f_2")])
    as Hbodies by (repeat constructor; vm_compute; eexists; reflexivity).
  assert (METHODS (the_proc lexical_program) !! "undefined" = None)
    as Hundef by (vm_compute; reflexivity).
  split; [by repeat split|].
  split; [|split; vm_compute; reflexivity].
  exact (proj1 (invoke_on_completed_walks _ _ _ _ Hev Hbodies Hundef)).
Defined.

(** C4.  [f.method(null, A); f(null)]: the method is met at [NULL_TABLE]
    and its [filled] counter reaches the argument count 1, but the walk then
    raises a TypeError at [null.constructor]: the call neither returns the
    result of [A] nor raises the no-applicable-method condition.  And
    [f.method(Super, Sub, A); f.method(Sub, Super, B); f(v)]: both methods
    have two specialisers and the call has one argument, yet [B] is met at
    position 0, its [filled] counter reaches the argument count 1, and [B]
    is applied: the number of specialisers of a method is recorded
    nowhere. *)
Theorem C4_arity_and_null_argument :
  (raised null_program = [None] /\
   methods_at (the_proc null_program) (the_heap null_program) 0
     (Entry VNull true) = Ok (Some ["f_1"]) /\
   ~ invoke_as_specified (the_proc null_program) (the_heap null_program)
       [VNull] /\
   call null_program [VNull] = Throw TypeError) /\
  (raised lexical_program = [None; None] /\
   (exists st,
      lookup_state (the_proc lexical_program) (the_heap lexical_program)
        [VRef Types.a_sub] = Ok st /\
      ranks st !! "f_2" = Some (Rank 1 [Some 1]) /\
      mostspecificmethod st = Some "f_2") /\
   call lexical_program [VRef Types.a_sub] = Ok (VStr "B")).
Proof.
  split.
  - split; [vm_compute; reflexivity|]. split; [vm_compute; reflexivity|].
    split; [|vm_compute; reflexivity].
    intros (st & Hst & _). vm_compute in Hst. discriminate.
  - split; [vm_compute; reflexivity|]. split; [|vm_compute; reflexivity].
    eexists. split; [vm_compute; reflexivity|].
    split; vm_compute; reflexivity.
Qed.

(** ** Calls with one argument *)

Lemma sorted_from_weaken lo lo' evs :
  lo' <= lo -> sorted_from lo evs -> sorted_from lo' evs.
Proof.
  destruct evs; simpl; [done|]. intros Hle (? & ? & ? & ?).
  repeat split; [lia | done..].
Qed.

Lemma sorted_from_ge lo evs ev :
  sorted_from lo evs -> ev ∈ evs -> lo <= ev_dist ev.
Proof.
  revert lo. induction evs as [|ev' evs IH]; intros lo Hs Hin.
  - by apply elem_of_nil in Hin.
  - destruct Hs as (Hlo & _ & _ & Hs).
    apply elem_of_cons in Hin as [->|Hin]; [done|].
    specialize (IH _ Hs Hin). lia.
Qed.

Lemma sorted_from_map position ms rest :
  position < 10 -> sorted_from position rest ->
  sorted_from position (map (fun m => (0, position, m)) ms ++ rest).
Proof. intros Hp Hs. induction ms as [|m ms IH]; simpl; [done|]. auto. Qed.

Lemma trail_events_sorted position tr :
  position + length tr <= 10 ->
  sorted_from position (trail_events 0 position tr).
Proof.
  revert position. induction tr as [|[e ms] tr IH]; intros position Hlen;
    simpl in *; [done|].
  apply sorted_from_map; [lia|].
  apply (sorted_from_weaken (S position)); [lia|]. apply IH. lia.
Qed.

(** In a call with one argument, a selected method with a recorded distance
    not beyond the distances still to come stays selected. *)
Lemma unary_keep evs hi rk m0 r0 d0 :
  m0 <> "" ->
  rk !! m0 = Some r0 -> vector r0 = [Some d0] -> d0 <= hi ->
  (forall m r, rk !! m = Some r -> length (vector r) <= 1) ->
  sorted_from hi evs ->
  (fold_left (rank_step 1) evs (rk, Some m0)).2 = Some m0.
Proof.
  intros Hne. revert hi rk r0 d0.
  induction evs as [|[[i d] m] evs IH]; intros hi rk r0 d0 Hr0 Hv0 Hd0 Hlen Hs;
    [done|].
  destruct Hs as (Hhi & Hd & Hi & Hs). unfold ev_dist, ev_pos in *.
  simpl in Hhi, Hd, Hi, Hs. subst i. cbn [fold_left].
  assert (vector (bump (rk !! m) 0 d) = [Some d]) as Hv1.
  { unfold bump. cbn [vector].
    destruct (rk !! m) as [r|] eqn:Hm; simpl; [|done].
    specialize (Hlen _ _ Hm). by destruct (vector r) as [|? [|? ?]];
      simpl in *; [..|lia]. }
  assert ((rank_step 1 (rk, Some m0) (0, d, m)).2 = Some m0) as Hsel.
  { unfold rank_step. cbn [fst snd]. case_decide; [|done].
    unfold truthy_name. rewrite decide_False by done.
    destruct (decide (m = m0)) as [->|Hmne].
    - rewrite lookup_insert_eq. cbn [default id].
      by rewrite vector_lt_irrefl.
    - rewrite lookup_insert_ne, Hr0 by done. cbn [default id].
      rewrite Hv1, Hv0.
      change (vector_lt [Some d] [Some d0])
        with (vector_lt (Some <$> [d]) (Some <$> [d0])).
      rewrite (vector_lt_lex [d] [d0])
        by first [done | apply Forall_singleton; lia].
      rewrite lex_lt_cons, decide_False by lia.
      by destruct (decide (d = d0)). }
  destruct (rank_step 1 (rk, Some m0) (0, d, m)) as [rk1 most1] eqn:Hstep.
  cbn [snd] in Hsel. subst most1.
  pose proof (rank_step_ranks 1 (rk, Some m0) 0 d m) as Hrk.
  rewrite Hstep in Hrk. cbn [fst] in Hrk. subst rk1.
  destruct (decide (m = m0)) as [->|Hmne].
  - apply (IH d _ (bump (rk !! m0) 0 d) d); [by rewrite lookup_insert_eq|
      done | done | | done].
    intros m r Hr. destruct (decide (m = m0)) as [->|?].
    + rewrite lookup_insert_eq in Hr. simplify_eq. by rewrite Hv1.
    + rewrite lookup_insert_ne in Hr by done. by eapply Hlen.
  - apply (IH d _ r0 d0); [by rewrite lookup_insert_ne | done | lia | |
      done].
    intros m' r Hr. destruct (decide (m' = m)) as [->|?].
    + rewrite lookup_insert_eq in Hr. simplify_eq. by rewrite Hv1.
    + rewrite lookup_insert_ne in Hr by done. by eapply Hlen.
Qed.

(** In a call with one argument the first method met is selected. *)
Lemma unary_first d1 m1 (evs : list event) :
  m1 <> "" -> d1 < 10 -> sorted_from d1 evs ->
  (fold_left (rank_step 1) (@cons event (0, d1, m1) evs) (∅, None)).2
    = Some m1.
Proof.
  intros Hne Hd Hs. cbn [fold_left].
  assert (rank_step 1 (∅, None) (0, d1, m1)
          = (<[m1 := Rank 1 [Some d1]]> ∅, Some m1)) as -> by done.
  apply (unary_keep evs d1 _ m1 (Rank 1 [Some d1]) d1);
    [done | by rewrite lookup_insert_eq | done | done | | done].
  intros m r Hr. destruct (decide (m = m1)) as [->|?].
  - rewrite lookup_insert_eq in Hr. by simplify_eq.
  - by rewrite lookup_insert_ne in Hr.
Qed.


(** ** The lexicographic order *)

Lemma lex_lt_irrefl v : lex_lt v v = false.
Proof.
  induction v as [|a v IH]; [done|]. rewrite lex_lt_cons.
  by rewrite decide_False, decide_True by lia.
Qed.

Lemma lex_lt_trans v1 v2 v3 :
  lex_lt v1 v2 = true -> lex_lt v2 v3 = true -> lex_lt v1 v3 = true.
Proof.
  revert v2 v3. induction v1 as [|a v1 IH]; intros [|b v2] [|c v3];
    try done.
  rewrite !lex_lt_cons. intros H12 H23.
  destruct (decide (a < b)), (decide (b < c)), (decide (a < c));
    try done; try lia;
    destruct (decide (a = b)), (decide (b = c)), (decide (a = c));
    try done; try lia.
  by eapply IH.
Qed.

Lemma dense_Some v ds : dense v = Some ds <-> v = Some <$> ds.
Proof.
  revert ds. induction v as [|[d|] v IH]; intros ds; simpl.
  - split; [by intros [= <-] | by destruct ds].
  - destruct (dense v) as [ds'|] eqn:Hd; simpl.
    + split.
      * intros [= <-]. rewrite fmap_cons. f_equal. by apply IH.
      * destruct ds as [|d' ds]; [done|]. rewrite fmap_cons.
        intros [= -> Hv]. f_equal. f_equal. apply IH in Hv. by simplify_eq.
    + split; [done|]. destruct ds as [|d' ds]; [done|].
      rewrite fmap_cons. intros [= -> Hv]. by apply IH in Hv.
  - split; [done | by destruct ds].
Qed.

(** ** Vectors never outgrow the number of arguments *)

Lemma fold_vector_length len evs st :
  (forall ev, ev ∈ evs -> ev_pos ev < len) ->
  (forall m r, st.1 !! m = Some r -> length (vector r) <= len) ->
  forall m r, (fold_left (rank_step len) evs st).1 !! m = Some r ->
              length (vector r) <= len.
Proof.
  revert st. induction evs as [|[[i d] m'] evs IH]; intros st Hb Hst; [done|].
  cbn [fold_left]. apply IH.
  - intros ev Hin. apply Hb, elem_of_cons. by right.
  - intros m r. rewrite rank_step_ranks.
    destruct (decide (m = m')) as [->|Hne].
    + rewrite lookup_insert_eq. intros [= <-]. unfold bump. cbn [vector].
      rewrite vector_set_length.
      assert (i < len) by (apply (Hb (i, d, m')), elem_of_cons; by left).
      destruct (st.1 !! m') as [r0|] eqn:Hr0; simpl;
        [specialize (Hst _ _ Hr0)|]; lia.
    + rewrite lookup_insert_ne by done. apply Hst.
Qed.

(** ** Selection when no method is met twice at a position *)

Lemma dist_of_event evs i d m :
  once_per_role evs -> (i, d, m) ∈ evs -> dist_of evs m i = d.
Proof.
  intros Hnd Hin. unfold dist_of.
  assert ((i, d, m) ∈ filter (fun ev => ev_key ev = (i, m)) evs) as Hf
    by (by apply list_elem_of_filter).
  destruct (filter _ evs) as [|ev l] eqn:Hl; [by apply elem_of_nil in Hf|].
  assert (ev ∈ filter (fun ev => ev_key ev = (i, m)) evs) as Hev
    by (rewrite Hl; by left).
  apply list_elem_of_filter in Hev as [Hk Hev]. simpl.
  by rewrite (once_per_role_unique evs ev (i, d, m) Hnd Hev Hin Hk).
Qed.

Lemma dist_of_digit evs m i :
  (forall ev, ev ∈ evs -> ev_dist ev < 10) -> dist_of evs m i < 10.
Proof.
  intros Hb. unfold dist_of.
  destruct (filter _ evs) as [|ev l] eqn:Hl; simpl; [lia|].
  apply Hb.
  assert (ev ∈ filter (fun ev => ev_key ev = (i, m)) evs) as Hev
    by (rewrite Hl; by left).
  by apply list_elem_of_filter in Hev as [_ ?].
Qed.

Lemma final_vector_length len evs m : length (final_vector len evs m) = len.
Proof. unfold final_vector. by rewrite length_fmap, length_seq. Qed.

Lemma final_vector_digits len evs m :
  (forall ev, ev ∈ evs -> ev_dist ev < 10) ->
  Forall (fun d => d < 10) (final_vector len evs m).
Proof.
  intros Hb. apply Forall_fmap, Forall_forall. intros i _. simpl.
  by apply dist_of_digit.
Qed.

Lemma count_of_app m evs1 evs2 :
  count_of m (evs1 ++ evs2) = count_of m evs1 + count_of m evs2.
Proof. unfold count_of. by rewrite filter_app, length_app. Qed.

Lemma count_of_singleton m ev :
  count_of m [ev] = if decide (ev_method ev = m) then 1 else 0.
Proof.
  unfold count_of. rewrite filter_cons. by case_decide.
Qed.

Section selection.
Variable len : nat.
Variable evs : list event.
Hypothesis Hpos : 0 < len.
Hypothesis Hnd : once_per_role evs.
Hypothesis Hbound :
  forall ev, ev ∈ evs -> ev_pos ev < len /\ ev_dist ev < 10.
Hypothesis Hnames : forall ev, ev ∈ evs -> ev_method ev <> "".

Lemma prefix_count_le done todo m :
  evs = done ++ todo -> count_of m done <= len.
Proof.
  intros ->. apply count_of_le; [by eapply once_per_role_app_l|].
  intros ev Hin. apply Hbound, elem_of_app. by left.
Qed.

Lemma prefix_filled done m :
  filled_of (run_events len done).1 m = count_of m done.
Proof.
  unfold run_events. rewrite fold_filled_of. cbn [fst]. unfold filled_of.
  by rewrite lookup_empty.
Qed.

(** A method met at every position has its final rank vector. *)
Lemma prefix_full_vector done todo m :
  evs = done ++ todo -> count_of m done = len ->
  exists r, (run_events len done).1 !! m = Some r /\
            vector r = Some <$> final_vector len evs m.
Proof.
  intros Hevs Hcount.
  pose proof (prefix_filled done m) as Hf. unfold filled_of in Hf.
  destruct ((run_events len done).1 !! m) as [r|] eqn:Hr; [|lia].
  exists r. split; [done|].
  assert (once_per_role done) as Hnd'
    by (rewrite Hevs in Hnd; by eapply once_per_role_app_l).
  assert (forall ev, ev ∈ done -> ev_pos ev < len) as Hb'.
  { intros ev Hin. apply Hbound. rewrite Hevs. apply elem_of_app.
    by left. }
  assert (forall i, i < len ->
            vector r !! i = Some (Some (dist_of evs m i))) as Hall.
  { intros i Hi.
    destruct (count_of_full len done m i Hnd' Hb') as [d Hd]; [lia|done|].
    destruct (fold_has_rank len done (∅, None) i d m Hd)
      as (r' & d' & Hr' & Hd'). fold (run_events len done) in Hr'.
    rewrite Hr in Hr'. injection Hr' as <-.
    destruct (fold_rank_event _ _ _ _ _ _ _ Hr Hd')
      as [(r0 & Hr0 & _)|Hin].
    { cbn [fst] in Hr0. by rewrite lookup_empty in Hr0. }
    rewrite Hd'. do 2 f_equal. symmetry. apply dist_of_event; [done|].
    rewrite Hevs. apply elem_of_app. by left. }
  assert (length (vector r) = len) as Hlen.
  { apply Nat.le_antisymm.
    - eapply (fold_vector_length len done (∅, None)); [done| |exact Hr].
      intros m' r'. cbn [fst]. by rewrite lookup_empty.
    - specialize (Hall (len - 1) ltac:(lia)).
      apply lookup_lt_Some in Hall. lia. }
  apply list_eq. intros i. destruct (decide (i < len)) as [Hi|Hi].
  - rewrite (Hall i Hi). unfold final_vector.
    by rewrite !list_lookup_fmap, lookup_seq_lt.
  - rewrite !lookup_ge_None_2; [done|..].
    + rewrite length_fmap, final_vector_length. lia.
    + lia.
Qed.

Lemma selected_min_prefix done todo :
  evs = done ++ todo -> selected_min len evs done.
Proof.
  revert todo. induction done as [|ev done IH] using rev_ind;
    intros todo Hevs.
  { unfold selected_min. simpl. intros m. unfold count_of. simpl. lia. }
  rewrite <-app_assoc in Hevs. specialize (IH _ Hevs).
  assert (ev ∈ evs) as Hin.
  { rewrite Hevs. apply elem_of_app. right. by left. }
  assert (evs = (done ++ [ev]) ++ todo) as Hevs'
    by (by rewrite <-app_assoc).
  pose proof (fun m => prefix_count_le (done ++ [ev]) todo m Hevs')
    as Hle.
  assert (forall m, count_of m (done ++ [ev]) =
            count_of m done + if decide (ev_method ev = m) then 1 else 0)
    as Hcount.
  { intros m. by rewrite count_of_app, count_of_singleton. }
  unfold selected_min in *. unfold run_events in *.
  rewrite fold_left_app. cbn [fold_left].
  pose proof (prefix_filled done (ev_method ev)) as Hfilled.
  pose proof (fun m => prefix_full_vector done (ev :: todo) m Hevs)
    as Hvec0.
  pose proof (fun m => prefix_full_vector (done ++ [ev]) todo m Hevs')
    as Hvec1.
  unfold run_events in Hfilled, Hvec0, Hvec1.
  rewrite fold_left_app in Hvec1. cbn [fold_left] in Hvec1.
  destruct (fold_left (rank_step len) done (∅, None)) as [rk most]
    eqn:Hrun.
  destruct ev as [[i d] m]. unfold ev_method in *. cbn [fst snd] in *.
  assert (filled (bump (rk !! m) i d) = S (count_of m done)) as Hb1.
  { unfold bump, filled_of in *. cbn [filled]. rewrite <-Hfilled.
    by destruct (rk !! m). }
  pose proof (Hcount m) as Hcm. rewrite decide_True in Hcm by done.
  pose proof (Hle m) as Hlem.
  unfold rank_step. cbn [fst snd]. rewrite Hb1.
  destruct (decide (S (count_of m done) = len)) as [Hfull|Hfull].
  - (* [m] is promoted *)
    destruct (Hvec1 m) as (r1 & Hr1 & Hv1); [lia|].
    rewrite rank_step_ranks in Hr1. cbn [fst] in Hr1.
    rewrite lookup_insert_eq in Hr1. injection Hr1 as <-.
    destruct most as [m0|]; cbn [truthy_name].
    + destruct IH as (Hne0 & Hc0 & Hmin).
      rewrite decide_False by done.
      assert (m <> m0) as Hmm0 by (intros ->; lia).
      destruct (Hvec0 m0 Hc0) as (r0 & Hr0 & Hv0).
      rewrite lookup_insert_ne, Hr0 by done. cbn [default id].
      rewrite Hv1, Hv0, vector_lt_lex;
        [|by rewrite !final_vector_length
         |apply final_vector_digits; intros; by apply Hbound..].
      destruct (lex_lt (final_vector len evs m) (final_vector len evs m0))
        eqn:Hlt.
      * split; [by apply (Hnames (i, d, m))|]. split; [lia|].
        intros m' Hm'. rewrite Hcount in Hm'. case_decide as Hmm'.
        -- subst. apply lex_lt_irrefl.
        -- destruct (lex_lt (final_vector len evs m') _) eqn:Hlt'; [|done].
           rewrite <-(Hmin m'); [|lia]. symmetry.
           by apply (lex_lt_trans _ (final_vector len evs m)).
      * split; [done|]. split; [rewrite Hcount, decide_False by done; lia|].
        intros m' Hm'. rewrite Hcount in Hm'. case_decide as Hmm'.
        -- by subst.
        -- apply Hmin. lia.
    + split; [by apply (Hnames (i, d, m))|]. split; [lia|].
      intros m' Hm'. rewrite Hcount in Hm'. case_decide as Hmm'.
      * subst. apply lex_lt_irrefl.
      * specialize (IH m'). lia.
  - (* no promotion *)
    destruct most as [m0|].
    + destruct IH as (Hne0 & Hc0 & Hmin).
      assert (m <> m0) as Hmm0 by (intros ->; lia).
      split; [done|]. split; [rewrite Hcount, decide_False by done; lia|].
      intros m' Hm'. rewrite Hcount in Hm'. case_decide as Hmm'.
      * subst. lia.
      * apply Hmin. lia.
    + intros m'. rewrite Hcount. case_decide as Hmm'.
      * subst. lia.
      * specialize (IH m'). lia.
Qed.

End selection.

(** ** The lexicographically smallest rank vector *)

Lemma selects_smallest_once_per_role p h args evs :
  events_of p h args = Some evs ->
  once_per_role evs ->
  Forall (fun ev => ev_method ev <> "") evs ->
  selects_smallest p h args.
Proof.
  intros Hev Hnd Hnames. rewrite Forall_forall in Hnames.
  unfold selects_smallest. rewrite (lookup_state_fold _ _ _ _ Hev).
  eexists. split; [done|]. unfold candidate, rank_vector.
  cbn [ranks mostspecificmethod].
  destruct (decide (length args = 0)) as [Hlen|Hlen].
  { destruct args; [|done]. injection Hev as <-. simpl.
    intros (m & ds & Hm & _). by rewrite lookup_empty in Hm. }
  assert (0 < length args) as Hpos by lia.
  assert (forall ev, ev ∈ evs -> ev_pos ev < length args /\ ev_dist ev < 10)
    as Hbound' by (intros ev Hin; by apply (events_of_bounds p h args evs)).
  pose proof (selected_min_prefix (length args) evs Hpos Hnd Hbound' Hnames
                evs [] (eq_sym (app_nil_r evs))) as Hsel.
  pose proof (fun m => prefix_full_vector (length args) evs Hpos Hnd Hbound'
                         evs [] m (eq_sym (app_nil_r evs))) as Hvec.
  unfold selected_min, run_events in Hsel. unfold run_events in Hvec.
  set (st := fold_left (rank_step (length args)) evs (∅, None)) in *.
  (* a candidate is met at every position and has its final vector *)
  assert (forall m ds,
            match st.1 !! m with
            | Some r => dense (vector r)
            | None => None
            end = Some ds /\ length ds = length args ->
            count_of m evs = length args /\
            ds = final_vector (length args) evs m) as Hcand.
  { intros m ds [Hm Hds].
    destruct (st.1 !! m) as [r|] eqn:Hr; [|done].
    apply dense_Some in Hm.
    assert (count_of m evs = length args) as Hcount.
    { apply Nat.le_antisymm.
      - apply count_of_le; [done|]. intros ev Hin. by apply Hbound'.
      - apply count_of_positions. intros i Hi.
        assert (is_Some (ds !! i)) as [d Hd]
          by (apply lookup_lt_is_Some; lia).
        exists d.
        assert (vector r !! i = Some (Some d)) as Hvi
          by (by rewrite Hm, list_lookup_fmap, Hd).
        destruct (fold_rank_event _ _ _ _ _ _ _ Hr Hvi)
          as [(r0 & Hr0 & _)|Hin]; [|done].
        cbn [fst] in Hr0. by rewrite lookup_empty in Hr0. }
    split; [done|].
    destruct (Hvec m Hcount) as (r' & Hr' & Hv').
    rewrite Hr in Hr'. injection Hr' as <-. rewrite Hm in Hv'.
    by apply (inj (fmap Some)) in Hv'. }
  intros (m & ds & Hm).
  destruct (Hcand m ds Hm) as [Hcount ->].
  destruct st.2 as [m0|] eqn:Hm0.
  - destruct Hsel as (_ & Hc0 & Hmin).
    exists m0, (final_vector (length args) evs m0).
    split; [done|]. split.
    + destruct (Hvec m0 Hc0) as (r0 & Hr0 & Hv0). rewrite Hr0.
      split; [by apply dense_Some | apply final_vector_length].
    + intros m' ds' Hm'. destruct (Hcand m' ds' Hm') as [Hc' ->].
      by apply Hmin.
  - specialize (Hsel m). lia.
Qed.

(** X20.  In a lookup whose walks all complete and in which no method is
    met twice for one argument position: whenever some method has a
    recorded rank at every position, the selected method is such a method
    and no such method has a lexicographically smaller rank vector, compared
    position by position from the left. *)
Theorem smallest_rank_vector_is_selected p h args evs :
  events_of p h args = Some evs ->
  once_per_role evs ->
  Forall (fun ev => ev_method ev <> "") evs ->
  selects_smallest p h args.
Proof. apply selects_smallest_once_per_role. Qed.

Lemma smallest_rank_vector_witness :
  (events_of (the_proc lexical_program) (the_heap lexical_program)
     [VRef Types.a_sub; VRef Types.a_sub]
   = Some [(0, 1, "f_2"); (0, 3, "f_1"); (1, 1, "f_1"); (1, 3, "f_2")] /\
   once_per_role [(0, 1, "f_2"); (0, 3, "f_1"); (1, 1, "f_1"); (1, 3, "f_2")] /\
   Forall (fun ev => ev_method ev <> "")
     [(0, 1, "f_2"); (0, 3, "f_1"); (1, 1, "f_1"); (1, 3, "f_2")]) /\
  selects_smallest (the_proc lexical_program) (the_heap lexical_program)
    [VRef Types.a_sub; VRef Types.a_sub] /\
  (exists st,
     lookup_state (the_proc lexical_program) (the_heap lexical_program)
       [VRef Types.a_sub; VRef Types.a_sub] = Ok st /\
     rank_vector st "f_1" = Some [3; 1] /\
     rank_vector st "f_2" = Some [1; 3] /\
     mostspecificmethod st = Some "f_2").
Proof.
  assert (events_of (the_proc lexical_program) (the_heap lexical_program)
            [VRef Types.a_sub; VRef Types.a_sub]
          = Some [(0, 1, "f_2"); (0, 3, "f_1"); (1, 1, "f_1"); (1, 3, "f_2")])
    as Hev by (vm_compute; reflexivity).
  assert (once_per_role
            [(0, 1, "f_2"); (0, 3, "f_1"); (1, 1, "f_1"); (1, 3, "f_2")])
    as Hnd by (unfold once_per_role; apply (bool_decide_unpack _);
               vm_compute; exact I).
  assert (Forall (fun ev => ev_method ev <> "")
            [(0, 1, "f_2"); (0, 3, "f_1"); (1, 1, "f_1"); (1, 3, "f_2")])
    as Hnames by (repeat constructor; discriminate).
  split; [by repeat split|].
  split; [exact (smallest_rank_vector_is_selected _ _ _ _ Hev Hnd Hnames)|].
  eexists. split; [vm_compute; reflexivity|].
  repeat split; vm_compute; reflexivity.
Defined.

(** ** C1: the scenarios of the lexical order *)

(** C1.  [Super = function() {}; Sub = function() {};
    Sub.prototype = new Super()], as the tests of the repository define the
    two types: a [new Sub()] has the inherited [constructor] [Super], so its
    walk goes from the value to [Super] and [ANY] and never examines [Sub].
    With [A] on [(Super, Sub)] and [B] on [(Sub, Super)] the call with two
    such values finds no method, and with [A] on [(Super, Sub)] and [B] on
    [(Super, Super)] it applies [B].  And [f.method(Function, String, A);
    f.method(Any, Number, B); f.method(Any, Any, C); f(Function, 5)]: [B]
    and [C] have a recorded rank at both positions, with the rank vectors
    [[2; 1]] and [[2; 2]]; [A] has none at position 1, but the walk of
    [Function] meets it at the distances 0 and 1, its [filled] counter
    reaches 2, and [A] is selected and applied. *)
Theorem C1_non_candidate_selected :
  ((exists st,
      lookup_log (the_proc lexical_program) (the_heap lexical_program)
        [VRef Types.plain_sub; VRef Types.plain_sub]
      = Ok ([[Entry (VRef Types.plain_sub) true; Entry (VRef Types.Super) false;
              root_entry];
             [Entry (VRef Types.plain_sub) true; Entry (VRef Types.Super) false;
              root_entry]], st)) /\
   raised lexical_program = [None; None] /\
   call lexical_program [VRef Types.plain_sub; VRef Types.plain_sub]
     = Throw NoApplicableMethod /\
   raised tiebreak_program = [None; None] /\
   call tiebreak_program [VRef Types.plain_sub; VRef Types.plain_sub]
     = Ok (VStr "B")) /\
  (raised promoted_program = [None; None; None] /\
   ~ selects_smallest (the_proc promoted_program) (the_heap promoted_program)
       [VRef Realm.Function; VNum 5] /\
   (exists st,
      lookup_state (the_proc promoted_program) (the_heap promoted_program)
        [VRef Realm.Function; VNum 5] = Ok st /\
      ranks st !! "f_1" = Some (Rank 2 [Some 1]) /\
      rank_vector st "f_2" = Some [2; 1] /\
      rank_vector st "f_3" = Some [2; 2] /\
      mostspecificmethod st = Some "f_1") /\
   call promoted_program [VRef Realm.Function; VNum 5] = Ok (VStr "A")).
Proof.
  split.
  { split; [eexists; vm_compute; reflexivity|].
    repeat split; vm_compute; reflexivity. }
  split; [vm_compute; reflexivity|]. split; [|split].
  - intros (st & Hst & Hsel).
    assert (rank_vector st "f_2" = Some [2; 1]) as HB
      by (vm_compute in Hst; injection Hst as <-; vm_compute; reflexivity).
    assert (rank_vector st "f_1" = Some [1]) as HA
      by (vm_compute in Hst; injection Hst as <-; vm_compute; reflexivity).
    assert (mostspecificmethod st = Some "f_1") as Hmost
      by (vm_compute in Hst; injection Hst as <-; vm_compute; reflexivity).
    destruct Hsel as (m0 & ds0 & Hm0 & [Hds0 Hlen] & _).
    { exists "f_2", [2; 1]. by split. }
    rewrite Hmost in Hm0. injection Hm0 as <-.
    rewrite HA in Hds0. injection Hds0 as <-. discriminate Hlen.
  - eexists. split; [vm_compute; reflexivity|].
    repeat split; vm_compute; reflexivity.
  - vm_compute; reflexivity.
Qed.

(** ** C2: the closest specialiser *)





(** * Further properties of the code *)

(** ** Generated names: [gensym] and the role names *)

Lemma has_char_app c s1 s2 :
  has_char c (s1 +:+ s2) = has_char c s1 || has_char c s2.
Proof.
  induction s1 as [|a s1 IH]; [done|].
  change (String a s1 +:+ s2) with (String a (s1 +:+ s2)).
  cbn [has_char]. by case_decide.
Qed.

Lemma not_a_digit_underscore : not_a_digit underscore.
Proof. intros x. unfold pretty_N_char. by repeat case_match. Qed.

Lemma not_a_digit_colon : not_a_digit colon.
Proof. intros x. unfold pretty_N_char. by repeat case_match. Qed.

Lemma has_char_pretty_N_go c x s :
  not_a_digit c -> has_char c s = false ->
  has_char c (pretty_N_go x s) = false.
Proof.
  intros Hc. revert s. induction (N.lt_wf_0 x) as [x _ IH]; intros s Hs.
  destruct (decide (x = 0)%N) as [->|Hx]; [by rewrite pretty_N_go_0|].
  rewrite pretty_N_go_step by lia. apply IH; [apply N.div_lt; lia|].
  cbn [has_char]. by rewrite decide_False by apply Hc.
Qed.

(** The decimal numeral of a counter has digits only. *)
Lemma has_char_pretty_nat c (n : nat) :
  not_a_digit c -> has_char c (pretty n) = false.
Proof.
  intros Hc. unfold pretty, pretty_nat, pretty, pretty_N.
  case_decide.
  - cbn [has_char]. rewrite decide_False; [done|]. apply (Hc 0%N).
  - by apply has_char_pretty_N_go.
Qed.

(** Where the separator does not occur after it, the last separator splits
    a string in one way only. *)
Lemma separator_split c s1 s2 d1 d2 :
  has_char c d1 = false -> has_char c d2 = false ->
  s1 +:+ String c d1 = s2 +:+ String c d2 -> s1 = s2 /\ d1 = d2.
Proof.
  intros Hd1 Hd2. revert s2.
  induction s1 as [|a s1 IH]; intros [|b s2] Heq.
  - by injection Heq as ->.
  - exfalso. change (String b s2 +:+ String c d2)
      with (String b (s2 +:+ String c d2)) in Heq.
    injection Heq as -> ->.
    rewrite has_char_app in Hd1. cbn [has_char] in Hd1.
    rewrite decide_True, orb_true_r in Hd1 by done. discriminate.
  - exfalso. change (String a s1 +:+ String c d1)
      with (String a (s1 +:+ String c d1)) in Heq.
    injection Heq as -> <-.
    rewrite has_char_app in Hd2. cbn [has_char] in Hd2.
    rewrite decide_True, orb_true_r in Hd2 by done. discriminate.
  - change (String a s1 +:+ String c d1)
      with (String a (s1 +:+ String c d1)) in Heq.
    change (String b s2 +:+ String c d2)
      with (String b (s2 +:+ String c d2)) in Heq.
    injection Heq as -> Heq. destruct (IH _ Heq) as [-> ->]. done.
Qed.

(** X1.  [gensym] never returns the same name twice: the names generated
    from two names at two values of the counter are equal only when both
    the names and the counters are, and each call advances the counter by
    one. *)
Theorem gensym_unique name1 name2 c1 c2 :
  (gensym name1 c1).2 = S c1 /\
  ((gensym name1 c1).1 = (gensym name2 c2).1 -> name1 = name2 /\ c1 = c2).
Proof.
  split; [done|]. unfold gensym. cbn [fst]. intros Heq.
  change ("_" +:+ pretty c1) with (String underscore (pretty c1)) in Heq.
  change ("_" +:+ pretty c2) with (String underscore (pretty c2)) in Heq.
  apply separator_split in Heq as [-> Hc];
    [|by apply has_char_pretty_nat, not_a_digit_underscore..].
  split; [done|]. by apply (inj pretty).
Qed.

(** X2.  Role names do not collide: the role names of two procedures at two
    positions are equal only when the selectors and the positions are. *)
Theorem rolename_unique p q i j :
  rolename p i = rolename q j -> selector p = selector q /\ i = j.
Proof.
  unfold rolename. intros Heq.
  change (":" +:+ pretty i) with (String colon (pretty i)) in Heq.
  change (":" +:+ pretty j) with (String colon (pretty j)) in Heq.
  apply separator_split in Heq as [-> Hc];
    [|by apply has_char_pretty_nat, not_a_digit_colon..].
  split; [done|]. by apply (inj pretty).
Qed.

Lemma rolename_unique_witness :
  rolename (the_proc super_program) 1 = rolename (the_proc dangling_program) 1
  /\ selector (the_proc super_program) = selector (the_proc dangling_program)
  /\ 1 = 1.
Proof.
  assert (rolename (the_proc super_program) 1
          = rolename (the_proc dangling_program) 1) as Heq
    by (vm_compute; reflexivity).
  split; [exact Heq|].
  exact (rolename_unique _ _ _ _ Heq).
Defined.
(** ** The closure during a registration *)

Lemma same_closure_refl p : same_closure p p.
Proof. by repeat split. Qed.

Lemma same_closure_trans p1 p2 p3 :
  same_closure p1 p2 -> same_closure p2 p3 -> same_closure p1 p3.
Proof.
  intros (H1 & H2 & H3 & H4 & H5 & H6 & Hs & Hn)
         (H1' & H2' & H3' & H4' & H5' & H6' & Hs' & Hn').
  repeat split; try congruence; by etrans.
Qed.

Lemma same_closure_rolename p p' i :
  same_closure p p' -> rolename p' i = rolename p i.
Proof. intros (_ & Hs & _). unfold rolename. by rewrite Hs. Qed.

Lemma get_table_same_closure p h v create p1 h1 t :
  get_table p h v create = Ok (p1, h1, t) -> same_closure p p1.
Proof.
  destruct v as [| |b|n|s|l]; simpl; intros Hg; simplify_eq;
    try apply same_closure_refl.
  - destruct (NUMBERS p !! n) eqn:Hn; simplify_eq;
      [apply same_closure_refl|].
    destruct create; simplify_eq; [|apply same_closure_refl].
    repeat split; try done. by apply insert_subseteq.
  - destruct (STRINGS p !! s) eqn:Hs; simplify_eq;
      [apply same_closure_refl|].
    destruct (inherited h s); simplify_eq; [apply same_closure_refl|].
    destruct create; simplify_eq; [|apply same_closure_refl].
    repeat split; try done. by apply insert_subseteq.
  - destruct (negb _); [done|]. cbn [bind] in Hg.
    match type of Hg with
    | bind ?r _ = _ => destruct r; [|done]
    end.
    cbn [bind] in Hg. injection Hg as <- <- <-. apply same_closure_refl.
Qed.

Lemma method_step_same_closure methodname i a p h p2 h2 :
  method_step methodname i a p h = Ok (p2, h2) -> same_closure p p2.
Proof.
  unfold method_step. intros Hstep.
  destruct (get_table p h a true) as [[[p1 h1] table]|] eqn:Hg; [|done].
  cbn [bind] in Hstep.
  repeat (match type of Hstep with
          | bind ?r _ = _ => destruct r; [|done]; cbn [bind] in Hstep
          end).
  injection Hstep as <- <-. by eapply get_table_same_closure.
Qed.

Lemma method_loop_same_closure methodname i specs p h p' h' e :
  method_loop methodname i specs p h = (p', h', e) -> same_closure p p'.
Proof.
  revert i p h. induction specs as [|a specs IH]; intros i p h Hloop;
    cbn [method_loop] in Hloop.
  - injection Hloop as <- <- <-. apply same_closure_refl.
  - destruct (method_step methodname i a p h) as [[p2 h2]|] eqn:Hstep.
    + eapply same_closure_trans; [by eapply method_step_same_closure|].
      by eapply IH.
    + injection Hloop as <- <- <-. apply same_closure_refl.
Qed.

Lemma method_loop_type_error_only methodname i specs p h p' h' e :
  method_loop methodname i specs p h = (p', h', Some e) -> e = TypeError.
Proof.
  revert i p h. induction specs as [|a specs IH]; intros i p h Hloop;
    cbn [method_loop] in Hloop; [done|].
  pose proof (method_step_type_error_only methodname i a p h) as Hte.
  destruct (method_step methodname i a p h) as [[p2 h2]|e0] eqn:Hstep.
  - by eapply IH.
  - injection Hloop as <- <- <-. by apply Hte.
Qed.

Lemma method_unfold p h c specs b :
  exists p1 h1 e,
    method_loop (gensym (name p) c).1 0 specs p h = (p1, h1, e) /\
    method p h c specs b =
      (match e with
       | None => set_METHODS p1 (<[(gensym (name p) c).1 := b]> (METHODS p1))
       | Some _ => p1
       end, h1, S c, e).
Proof.
  unfold method, gensym. cbn [fst].
  destruct (method_loop _ 0 specs p h) as [[p1 h1] [e|]] eqn:Hloop; eauto.
Qed.

(** ** Role names *)

Lemma separator_rolename p q i j :
  rolename p i = rolename q j -> selector p = selector q /\ i = j.
Proof.
  unfold rolename. intros Heq.
  change (":" +:+ pretty i) with (String colon (pretty i)) in Heq.
  change (":" +:+ pretty j) with (String colon (pretty j)) in Heq.
  apply separator_split in Heq as [-> Hc];
    [|by apply has_char_pretty_nat, not_a_digit_colon..].
  split; [done|]. by apply (inj pretty).
Qed.

(** ** [get_table] without [create] *)

Lemma size_pos_lookup (h : heap) l o : h !! l = Some o -> 0 < size h.
Proof.
  intros Hl. destruct (decide (size h = 0)) as [Hz|]; [|lia].
  apply map_size_empty_iff in Hz. subst. by rewrite lookup_empty in Hl.
Qed.

(** An own property is the one a read finds. *)
Lemma get_from_own h l o key v :
  h !! l = Some o -> o_props o !! key = Some v -> get_from h l key = v.
Proof.
  intros Hl Hv. unfold get_from.
  pose proof (size_pos_lookup h l o Hl) as Hpos.
  destruct (size h) as [|n]; [lia|]. simpl. by rewrite Hl, Hv.
Qed.

Lemma get_table_false_state p h v p' h' t :
  get_table p h v false = Ok (p', h', t) -> p' = p /\ h' = h.
Proof.
  destruct v; simpl; intros Hg; repeat case_match; by simplify_eq/=.
Qed.

(** X7.  A lookup of a table ([create] off) writes nothing: the closure
    and the heap are as before, and for a value with a table of its own it
    returns that table. *)
Theorem get_table_without_create_is_read_only p h v p' h' t :
  get_table p h v false = Ok (p', h', t) ->
  p' = p /\ h' = h /\ (forall t', own_table p h v = Some t' -> t = t').
Proof.
  intros Hg. destruct (get_table_false_state _ _ _ _ _ _ Hg) as [-> ->].
  split; [done|]. split; [done|]. intros t' Hown.
  destruct v as [| |b|n|s|l]; simpl in *; simplify_eq; try done.
  - rewrite Hown in Hg. by simplify_eq.
  - rewrite Hown in Hg. by simplify_eq.
  - destruct (negb _); [done|]. simpl in Hg. simplify_eq.
    destruct (h !! l) as [o|] eqn:Hl; [|done]. simpl in Hown.
    by apply (get_from_own h l o).
Qed.

Lemma get_table_read_only_witness :
  (exists t t',
     get_table (the_proc super_program) (the_heap super_program)
       (VRef Types.Super) false
     = Ok (the_proc super_program, the_heap super_program, t) /\
     own_table (the_proc super_program) (the_heap super_program)
       (VRef Types.Super) = Some t' /\
     t = t') /\
  get_table (the_proc super_program) (the_heap super_program) (VStr "foo")
    false
  = Ok (the_proc super_program, the_heap super_program, VBool false).
Proof.
  eassert (get_table (the_proc super_program) (the_heap super_program)
             (VRef Types.Super) false
           = Ok (the_proc super_program, the_heap super_program, _))
    as Hg by (vm_compute; reflexivity).
  eassert (own_table (the_proc super_program) (the_heap super_program)
             (VRef Types.Super) = Some _) as Hown
    by (vm_compute; reflexivity).
  split; [|vm_compute; reflexivity].
  eexists _, _. split; [exact Hg|]. split; [exact Hown|].
  exact (proj2 (proj2 (get_table_without_create_is_read_only _ _ _ _ _ _ Hg))
           _ Hown).
Defined.

(** ** Calls without arguments *)

Lemma gensym_has_underscore nm c :
  has_char underscore (gensym nm c).1 = true.
Proof.
  unfold gensym. cbn [fst].
  change ("_" +:+ pretty c) with (String underscore (pretty c)).
  rewrite has_char_app. cbn [has_char].
  by rewrite decide_True, orb_true_r by done.
Qed.

Lemma method_names_generated p h c specs b :
  names_generated p -> names_generated (method p h c specs b).1.1.1.
Proof.
  intros Hinv.
  destruct (method_unfold p h c specs b) as (p1 & h1 & e & Hloop & ->).
  destruct (method_loop_same_closure _ _ _ _ _ _ _ _ Hloop)
    as (_ & _ & HM & _).
  cbn [fst]. intros k Hk. destruct e.
  - rewrite HM in Hk. by apply Hinv.
  - simpl in Hk. destruct (decide (k = (gensym (name p) c).1)) as [->|Hne].
    + apply gensym_has_underscore.
    + rewrite lookup_insert_ne, HM in Hk by done. by apply Hinv.
Qed.

Lemma program_names_generated nm h methods :
  names_generated (the_proc (program_of nm h methods)).
Proof.
  unfold program_of.
  destruct (procedure nm 0 h) as [[p0 c0] h0] eqn:Hp0.
  assert (names_generated (the_proc (Program p0 h0 c0 []))) as Hinit.
  { unfold procedure in Hp0. simpl in Hp0. injection Hp0 as <- <- <-.
    intros k [b Hk]. simpl in Hk. by rewrite lookup_empty in Hk. }
  revert Hinit. generalize (Program p0 h0 c0 []).
  induction methods as [|[specs b] methods IH]; intros w Hw; [done|].
  cbn [fold_left]. apply IH.
  pose proof (method_names_generated (the_proc w) (the_heap w)
                (the_counter w) specs b Hw) as Hstep.
  by destruct (method _ _ _ specs b) as [[[p' h'] c'] e].
Qed.

(** X10.  A call without arguments never finds a method, whatever was
    registered (a method registered with no specialisers included): the
    loop of [lookup] does not run, [mostspecificmethod] stays [undefined],
    and no body is stored under the name ["undefined"]. *)
Theorem call_without_arguments nm h methods :
  call (program_of nm h methods) [] = Throw NoApplicableMethod.
Proof.
  unfold call, dispatch, lookup. simpl.
  destruct (METHODS (the_proc (program_of nm h methods)) !! "undefined")
    as [b|] eqn:Hk; [|done].
  pose proof (program_names_generated nm h methods "undefined"
                (ex_intro _ b Hk)) as Hu.
  vm_compute in Hu. discriminate.
Qed.
(** ** Allocation *)

Lemma foldr_max_ge (l b : positive) ls :
  l ∈ ls -> (l <= foldr Pos.max b ls)%positive.
Proof.
  induction ls as [|x ls IH]; intros Hin; [by apply elem_of_nil in Hin|].
  simpl. apply elem_of_cons in Hin as [->|Hin]; [apply Pos.le_max_l|].
  etrans; [exact (IH Hin) | apply Pos.le_max_r].
Qed.

Lemma fresh_loc_fresh (h : heap) : h !! fresh_loc h = None.
Proof.
  destruct (h !! fresh_loc h) as [o|] eqn:Hl; [|done]. exfalso.
  assert (fresh_loc h ∈ (map_to_list h).*1) as Hin.
  { apply list_elem_of_fmap. exists (fresh_loc h, o). split; [done|].
    by apply elem_of_map_to_list. }
  apply (foldr_max_ge _ Realm.lookupSetter) in Hin. unfold fresh_loc in Hin.
  apply Pos.le_succ_l in Hin. by apply Pos.lt_irrefl in Hin.
Qed.

(** ** Prototype chains *)

Lemma chain_find_fuel_Some {A} (f : object -> option A) n m h l r :
  chain_find f n h l = Some r -> n <= m -> chain_find f m h l = Some r.
Proof.
  revert m l. induction n as [|n IH]; intros m l Hr Hle; [done|].
  destruct m as [|m]; [lia|]. simpl in *.
  destruct (h !! l) as [o|]; [|done]. destruct (f o); [done|].
  destruct (o_proto o); [|done]. apply IH; [done|lia].
Qed.

Lemma chain_ends_fuel n m h l :
  chain_ends n h l = true -> n <= m -> chain_ends m h l = true.
Proof.
  revert m l. induction n as [|n IH]; intros m l Hr Hle; [done|].
  destruct m as [|m]; [lia|]. simpl in *.
  destruct (h !! l) as [o|]; [|done].
  destruct (o_proto o); [|done]. apply IH; [done|lia].
Qed.

Lemma chain_ends_find {A} (f : object -> option A) n m h l :
  chain_ends n h l = true -> n <= m ->
  chain_find f m h l = chain_find f n h l.
Proof.
  revert m l. induction n as [|n IH]; intros m l Hr Hle; [done|].
  destruct m as [|m]; [lia|]. simpl in *.
  destruct (h !! l) as [o|]; [|done]. destruct (f o); [done|].
  destruct (o_proto o); [|done]. apply IH; [done|lia].
Qed.

Lemma chain_ends_extends n h h' l :
  extends h h' -> chain_ends n h l = true -> chain_ends n h' l = true.
Proof.
  intros Hext. revert l. induction n as [|n IH]; intros l Hr; [done|].
  simpl in *. destruct (h !! l) as [o|] eqn:Hl; [|done].
  destruct (Hext l o Hl) as (o' & -> & -> & _).
  destruct (o_proto o); [|done]. by apply IH.
Qed.

Lemma chain_find_extends n h h' l key :
  extends h h' -> keeps key h h' -> chain_ends n h l = true ->
  chain_find (fun o => o_props o !! key) n h' l
  = chain_find (fun o => o_props o !! key) n h l.
Proof.
  intros Hext Hkeep. revert l. induction n as [|n IH]; intros l Hr; [done|].
  simpl in *. destruct (h !! l) as [o|] eqn:Hl; [|done].
  destruct (Hext l o Hl) as (o' & Hl' & Hp & _). rewrite Hl', Hp.
  rewrite (Hkeep l o o' Hl Hl').
  destruct (o_props o !! key); [done|].
  destruct (o_proto o); [|done]. by apply IH.
Qed.

Lemma extends_size h h' : extends h h' -> size h <= size h'.
Proof.
  intros Hext. rewrite <-!size_dom. apply subseteq_size.
  intros l Hl. apply elem_of_dom in Hl as [o Hl]. apply elem_of_dom.
  destruct (Hext l o Hl) as (o' & Hl' & _). by exists o'.
Qed.

Lemma extends_refl h : extends h h.
Proof. intros l o Hl. exists o. by repeat split. Qed.

Lemma extends_trans h1 h2 h3 : extends h1 h2 -> extends h2 h3 -> extends h1 h3.
Proof.
  intros H12 H23 l o Hl.
  destruct (H12 l o Hl) as (o2 & Hl2 & Hp & Hc & He & Hi).
  destruct (H23 l o2 Hl2) as (o3 & Hl3 & Hp' & Hc' & He' & Hi').
  exists o3. split; [done|]. split; [congruence|]. split; [congruence|].
  split; [congruence|]. by rewrite Hi', Hi.
Qed.

Lemma keeps_refl key h : keeps key h h.
Proof. intros l o o' Hl Hl'. by simplify_eq. Qed.

Lemma keeps_trans key h1 h2 h3 :
  extends h1 h2 -> keeps key h1 h2 -> keeps key h2 h3 -> keeps key h1 h3.
Proof.
  intros Hext H12 H23 l o o3 Hl Hl3.
  destruct (Hext l o Hl) as (o2 & Hl2 & _).
  rewrite (H23 l o2 o3 Hl2 Hl3). by apply (H12 l).
Qed.

(** A read along a chain that ends is the same in a heap that extends the
    heap and keeps the property. *)
Lemma get_from_extends h h' l o key :
  closed_chains h -> extends h h' -> keeps key h h' ->
  h !! l = Some o ->
  get_from h' l key = get_from h l key.
Proof.
  intros Hcl Hext Hkeep Hl. unfold get_from.
  pose proof (Hcl l o Hl) as Hends.
  rewrite (chain_ends_find _ (size h) (size h') h' l);
    [|by eapply chain_ends_extends | by apply extends_size].
  by rewrite (chain_find_extends _ h h' l key Hext Hkeep Hends).
Qed.

(** What a read finds is the value of a property of an object. *)
Lemma chain_find_slot {A} (f : object -> option A) n h l lo a :
  chain_find f n h l = Some (lo, a) ->
  exists o, h !! lo = Some o /\ f o = Some a.
Proof.
  revert l. induction n as [|n IH]; intros l Hr; [done|]. simpl in Hr.
  destruct (h !! l) as [o|] eqn:Hl; [|done].
  destruct (f o) as [a'|] eqn:Hf; [simplify_eq; eauto|].
  destruct (o_proto o); [|done]. by eapply IH.
Qed.

Lemma get_from_slot h l key v :
  get_from h l key = v -> v <> VUndef ->
  exists lo o, h !! lo = Some o /\ o_props o !! key = Some v.
Proof.
  unfold get_from. intros Hv Hne.
  destruct (chain_find _ (size h) h l) as [[lo v']|] eqn:Hc; [|congruence].
  subst v'. destruct (chain_find_slot _ _ _ _ _ _ Hc) as (o & ? & ?). eauto.
Qed.

(** ** The heap operations of a registration *)

Lemma alloc_lookup (h : heap) o l o' :
  h !! l = Some o' -> <[fresh_loc h := o]> h !! l = Some o'.
Proof.
  intros Hl. rewrite lookup_insert_ne; [done|].
  intros <-. by rewrite fresh_loc_fresh in Hl.
Qed.

Lemma alloc_extends h o : extends h (<[fresh_loc h := o]> h).
Proof.
  intros l o' Hl. exists o'. split; [by apply alloc_lookup|]. by repeat split.
Qed.

Lemma alloc_keeps key h o : keeps key h (<[fresh_loc h := o]> h).
Proof.
  intros l o1 o2 Hl Hl'. rewrite (alloc_lookup h o l o1 Hl) in Hl'.
  by simplify_eq.
Qed.

Lemma set_own_lookup_eq h l o key v :
  h !! l = Some o ->
  set_own h l key v !! l = Some (set_props o (<[key := v]> (o_props o))).
Proof. intros Hl. unfold set_own. by rewrite lookup_alter_eq, Hl. Qed.

Lemma set_own_lookup_ne h l l' key v :
  l' <> l -> set_own h l key v !! l' = h !! l'.
Proof. intros Hne. unfold set_own. by rewrite lookup_alter_ne. Qed.

Lemma set_own_lookup h l key v l' o' :
  set_own h l key v !! l' = Some o' ->
  exists o, h !! l' = Some o /\ o_proto o' = o_proto o /\
            o_callable o' = o_callable o /\
            o_extensible o' = o_extensible o /\ o_items o' = o_items o /\
            o_props o' = if decide (l' = l) then <[key := v]> (o_props o)
                         else o_props o.
Proof.
  destruct (decide (l' = l)) as [->|Hne].
  - destruct (h !! l) as [o|] eqn:Hl.
    + rewrite (set_own_lookup_eq h l o key v Hl). intros [= <-].
      exists o. by repeat split.
    + unfold set_own. by rewrite lookup_alter_eq, Hl.
  - rewrite set_own_lookup_ne by done. intros Hl. exists o'. by repeat split.
Qed.

Lemma set_own_extends h l key v : extends h (set_own h l key v).
Proof.
  intros l' o Hl. destruct (decide (l' = l)) as [->|Hne].
  - rewrite (set_own_lookup_eq h l o key v Hl). eexists. split; [done|].
    by repeat split.
  - rewrite set_own_lookup_ne by done. exists o. by repeat split.
Qed.

Lemma set_own_keeps h l key key' v :
  key' <> key -> keeps key' h (set_own h l key v).
Proof.
  intros Hne l' o o' Hl Hl'.
  destruct (set_own_lookup _ _ _ _ _ _ Hl') as (o0 & Hl0 & _ & _ & _ & _ & Hp).
  simplify_eq. rewrite Hp. case_decide; [|done].
  by rewrite lookup_insert_ne.
Qed.

Lemma push_lookup (h : heap) a o ms l o' :
  h !! a = Some o ->
  <[a := set_items o ms]> h !! l = Some o' ->
  exists o0, h !! l = Some o0 /\ o_proto o' = o_proto o0 /\
             o_callable o' = o_callable o0 /\
             o_extensible o' = o_extensible o0 /\ o_props o' = o_props o0 /\
             o_items o' = if decide (l = a) then Some ms else o_items o0.
Proof.
  intros Ha. destruct (decide (l = a)) as [->|Hne].
  - rewrite lookup_insert_eq. intros [= <-]. exists o. by repeat split.
  - rewrite lookup_insert_ne by done. intros Hl. exists o'. by repeat split.
Qed.

Lemma push_extends (h : heap) a o ms :
  h !! a = Some o -> is_Some (o_items o) ->
  extends h (<[a := set_items o ms]> h).
Proof.
  intros Ha Hi l o' Hl. destruct (decide (l = a)) as [->|Hne].
  - rewrite lookup_insert_eq. simplify_eq. eexists. split; [done|].
    split; [done|]. split; [done|]. split; [done|]. simpl. split; eauto.
  - rewrite lookup_insert_ne by done. exists o'. by repeat split.
Qed.

Lemma push_keeps key (h : heap) a o ms :
  h !! a = Some o -> keeps key h (<[a := set_items o ms]> h).
Proof.
  intros Ha l o1 o2 Hl Hl'.
  destruct (push_lookup _ _ _ _ _ _ Ha Hl') as (o0 & Hl0 & _ & _ & _ & Hp & _).
  simplify_eq. by rewrite Hp.
Qed.

(** ** Well-formed heaps stay well-formed *)

Lemma closed_chains_same_dom h h' :
  closed_chains h -> extends h h' ->
  (forall l o', h' !! l = Some o' -> is_Some (h !! l)) ->
  closed_chains h'.
Proof.
  intros Hcl Hext Hdom l o' Hl'. destruct (Hdom l o' Hl') as [o Hl].
  apply (chain_ends_fuel (size h)); [|by apply extends_size].
  eapply chain_ends_extends; [done|]. by eapply Hcl.
Qed.

Lemma tidy_builtins_extends h h' :
  Forall (fun l => is_Some (h !! l)) builtins -> extends h h' ->
  Forall (fun l => is_Some (h' !! l)) builtins.
Proof.
  intros Hb Hext. eapply Forall_impl; [exact Hb|].
  intros l [o Hl]. destruct (Hext l o Hl) as (o' & Hl' & _). by exists o'.
Qed.

Lemma tidy_alloc h o :
  tidy h -> o_props o = ∅ ->
  (exists p, o_proto o = Some p /\ p ∈ builtins) ->
  tidy (<[fresh_loc h := o]> h).
Proof.
  intros (Hb & Hch & Hv & Hu) Hprops (p & Hp & Hin).
  pose proof (fresh_loc_fresh h) as Hfresh.
  pose proof (alloc_extends h o) as Hext.
  split; [by eapply tidy_builtins_extends|]. split; [|split].
  - intros l o' Hl'. rewrite map_size_insert_None by done.
    destruct (decide (l = fresh_loc h)) as [->|Hne].
    + rewrite lookup_insert_eq in Hl'. simplify_eq. simpl.
      rewrite lookup_insert_eq, Hp.
      rewrite Forall_forall in Hb. destruct (Hb p Hin) as [op Hop].
      eapply chain_ends_extends; [done|]. by eapply Hch.
    + rewrite lookup_insert_ne in Hl' by done.
      apply (chain_ends_fuel (size h)); [|lia].
      eapply chain_ends_extends; [done|]. by eapply Hch.
  - intros l o' key v Hl' Hkey.
    assert (value_in h v) as Hin'.
    { destruct (decide (l = fresh_loc h)) as [->|Hne].
      - rewrite lookup_insert_eq in Hl'. simplify_eq.
        by rewrite Hprops, lookup_empty in Hkey.
      - rewrite lookup_insert_ne in Hl' by done. by eapply Hv. }
    destruct v as [| | | | |a]; try done. destruct Hin' as [oa Ha].
    exists oa. by apply alloc_lookup.
  - intros l1 o1 k1 l2 o2 k2 a Hl1 Hk1 Hl2 Hk2 Harr.
    assert (forall l o' k, <[fresh_loc h := o]> h !! l = Some o' ->
              o_props o' !! k = Some (VRef a) ->
              h !! l = Some o') as Hold.
    { intros l o' k Hl Hk. destruct (decide (l = fresh_loc h)) as [->|Hne].
      - rewrite lookup_insert_eq in Hl. simplify_eq.
        by rewrite Hprops, lookup_empty in Hk.
      - by rewrite lookup_insert_ne in Hl. }
    pose proof (Hold _ _ _ Hl1 Hk1) as Hl1'.
    pose proof (Hold _ _ _ Hl2 Hk2) as Hl2'.
    apply (Hu l1 o1 k1 l2 o2 k2 a); try done.
    destruct (Hv l1 o1 k1 _ Hl1' Hk1) as [oa Ha].
    unfold is_array in *. by rewrite (alloc_lookup h o a oa Ha) in Harr;
      rewrite Ha.
Qed.

Lemma tidy_set_own h l o key v :
  tidy h -> h !! l = Some o -> value_in h v ->
  (forall a l' o' key',
     v = VRef a -> is_array h a ->
     h !! l' = Some o' -> o_props o' !! key' = Some (VRef a) -> False) ->
  tidy (set_own h l key v).
Proof.
  intros (Hb & Hch & Hv & Hu) Hl Hin Hnew.
  pose proof (set_own_extends h l key v) as Hext.
  assert (forall a, is_array (set_own h l key v) a <-> is_array h a) as Harr.
  { intros a. unfold is_array.
    destruct (set_own h l key v !! a) as [oa'|] eqn:Ha'.
    - destruct (set_own_lookup _ _ _ _ _ _ Ha')
        as (oa & -> & _ & _ & _ & Hi & _). simpl. by rewrite Hi.
    - destruct (h !! a) as [oa|] eqn:Ha; [|done].
      destruct (Hext a oa Ha) as (? & ? & _). congruence. }
  split; [by eapply tidy_builtins_extends|]. split; [|split].
  - eapply closed_chains_same_dom; [done..|].
    intros l' o' Hl'.
    destruct (set_own_lookup _ _ _ _ _ _ Hl') as (o0 & -> & _). eauto.
  - intros l' o' key' v' Hl' Hkey'.
    destruct (set_own_lookup _ _ _ _ _ _ Hl')
      as (o0 & Hl0 & _ & _ & _ & _ & Hp).
    rewrite Hp in Hkey'.
    assert (value_in h v') as Hin'.
    { case_decide; [|by eapply Hv].
      destruct (decide (key' = key)) as [->|Hne].
      - rewrite lookup_insert_eq in Hkey'. by simplify_eq.
      - rewrite lookup_insert_ne in Hkey' by done. by eapply Hv. }
    destruct v' as [| | | | |a]; try done. destruct Hin' as [oa Ha].
    destruct (Hext a oa Ha) as (x & Hx & _). by exists x.
  - intros l1 o1 k1 l2 o2 k2 a Hl1 Hk1 Hl2 Hk2 Ha.
    apply Harr in Ha.
    destruct (set_own_lookup _ _ _ _ _ _ Hl1)
      as (o1' & Hl1' & _ & _ & _ & _ & Hp1).
    destruct (set_own_lookup _ _ _ _ _ _ Hl2)
      as (o2' & Hl2' & _ & _ & _ & _ & Hp2).
    rewrite Hp1 in Hk1. rewrite Hp2 in Hk2. clear Hp1 Hp2.
    assert (forall l0 (o0 : object) k0,
              (if decide (l0 = l) then <[key := v]> (o_props o0)
               else o_props o0) !! k0 = Some (VRef a) ->
              ~ (l0 = l /\ k0 = key) ->
              o_props o0 !! k0 = Some (VRef a)) as Hslot.
    { intros l0 o0 k0 Hk Hn. destruct (decide (l0 = l)) as [->|]; [|done].
      rewrite lookup_insert_ne in Hk; [done|]. intros <-. by apply Hn. }
    destruct (decide (l1 = l /\ k1 = key)) as [[-> ->]|Hn1];
      destruct (decide (l2 = l /\ k2 = key)) as [[-> ->]|Hn2]; [done|..].
    + rewrite decide_True, lookup_insert_eq in Hk1 by done.
      injection Hk1 as ->.
      exfalso. apply (Hnew a l2 o2' k2 eq_refl Ha Hl2').
      by apply (Hslot l2).
    + rewrite decide_True, lookup_insert_eq in Hk2 by done.
      injection Hk2 as ->.
      exfalso. apply (Hnew a l1 o1' k1 eq_refl Ha Hl1').
      by apply (Hslot l1).
    + apply (Hu l1 o1' k1 l2 o2' k2 a); try done.
      * by apply (Hslot l1).
      * by apply (Hslot l2).
Qed.

Lemma tidy_push (h : heap) a o ms ms' :
  tidy h -> h !! a = Some o -> o_items o = Some ms ->
  tidy (<[a := set_items o ms']> h).
Proof.
  intros (Hb & Hch & Hv & Hu) Ha Hi.
  assert (is_Some (o_items o)) as Hsome by (by rewrite Hi).
  pose proof (push_extends h a o ms' Ha Hsome) as Hext.
  assert (forall a', is_array (<[a := set_items o ms']> h) a' <->
                     is_array h a') as Harr.
  { intros a'. unfold is_array. destruct (decide (a' = a)) as [->|Hne].
    - rewrite lookup_insert_eq, Ha. simpl. rewrite Hi. by split.
    - by rewrite lookup_insert_ne. }
  split; [by eapply tidy_builtins_extends|]. split; [|split].
  - eapply closed_chains_same_dom; [done..|].
    intros l' o' Hl'.
    destruct (push_lookup _ _ _ _ _ _ Ha Hl') as (o0 & -> & _). eauto.
  - intros l' o' key' v' Hl' Hkey'.
    destruct (push_lookup _ _ _ _ _ _ Ha Hl')
      as (o0 & Hl0 & _ & _ & _ & Hp & _).
    rewrite Hp in Hkey'. pose proof (Hv _ _ _ _ Hl0 Hkey') as Hin'.
    destruct v' as [| | | | |a']; try done. destruct Hin' as [oa Ha'].
    destruct (Hext a' oa Ha') as (x & Hx & _). by exists x.
  - intros l1 o1 k1 l2 o2 k2 a' Hl1 Hk1 Hl2 Hk2 Ha'.
    apply Harr in Ha'.
    destruct (push_lookup _ _ _ _ _ _ Ha Hl1)
      as (o1' & Hl1' & _ & _ & _ & Hp1 & _).
    destruct (push_lookup _ _ _ _ _ _ Ha Hl2)
      as (o2' & Hl2' & _ & _ & _ & Hp2 & _).
    rewrite Hp1 in Hk1. rewrite Hp2 in Hk2.
    by apply (Hu l1 o1' k1 l2 o2' k2 a').
Qed.

(** ** Reads in a heap that was extended *)

Lemma value_in_extends h h' v : extends h h' -> value_in h v -> value_in h' v.
Proof.
  intros Hext. destruct v as [| | | | |a]; try done. intros [o Ha].
  destruct (Hext a o Ha) as (o' & Ha' & _). by exists o'.
Qed.

Lemma proc_in_extends p h h' : extends h h' -> proc_in p h -> proc_in p h'.
Proof.
  intros Hext (Hs & Hn & Ht & Hf & Hnull).
  repeat split; eauto using value_in_extends.
Qed.

Lemma tidy_builtin h l : tidy h -> l ∈ builtins -> is_Some (h !! l).
Proof. intros (Hb & _) Hin. rewrite Forall_forall in Hb. by apply Hb. Qed.

Lemma get_prop_extends h h' v key :
  tidy h -> extends h h' -> keeps key h h' -> value_in h v ->
  get_prop h' v key = get_prop h v key.
Proof.
  intros Htidy Hext Hkeep Hin. pose proof Htidy as (_ & Hch & _).
  destruct v as [| |b|n|s|l]; simpl; try done; f_equal.
  - destruct (tidy_builtin h Realm.BooleanPrototype Htidy) as [o Ho];
      [set_solver|]. by eapply get_from_extends.
  - destruct (tidy_builtin h Realm.NumberPrototype Htidy) as [o Ho];
      [set_solver|]. by eapply get_from_extends.
  - destruct (tidy_builtin h Realm.StringPrototype Htidy) as [o Ho];
      [set_solver|]. by eapply get_from_extends.
  - destruct Hin as [o Ho]. by eapply get_from_extends.
Qed.

Lemma is_callable_extends h h' v :
  extends h h' -> is_callable h v = true -> is_callable h' v = true.
Proof.
  intros Hext. destruct v as [| | | | |f]; try done. simpl.
  destruct (h !! f) as [o|] eqn:Hf; [|done].
  destruct (Hext f o Hf) as (o' & -> & _ & -> & _). done.
Qed.

(** What a read finds in a well-formed heap is in the heap. *)
Lemma get_from_value_in h l key : tidy h -> value_in h (get_from h l key).
Proof.
  intros (_ & _ & Hv & _). unfold get_from.
  destruct (chain_find _ (size h) h l) as [[lo v]|] eqn:Hc; [|done].
  destruct (chain_find_slot _ _ _ _ _ _ Hc) as (o & Hlo & Hkey).
  by eapply Hv.
Qed.

Lemma get_prop_value_in h v key x :
  tidy h -> get_prop h v key = Ok x -> value_in h x.
Proof.
  intros Htidy. destruct v; simpl; intros Hx; simplify_eq;
    by apply get_from_value_in.
Qed.

Lemma inherited_value_in h s v : tidy h -> inherited h s = Some v -> value_in h v.
Proof.
  intros Htidy. pose proof Htidy as (_ & _ & Hv & _). unfold inherited.
  destruct (chain_find _ (size h) h _) as [[lo v0]|] eqn:Hc; [|done].
  intros [= <-]. case_decide.
  - apply (tidy_builtin h Realm.ObjectPrototype Htidy). set_solver.
  - destruct (chain_find_slot _ _ _ _ _ _ Hc) as (o & Hlo & Hkey).
    by eapply Hv.
Qed.

Lemma inherited_extends h h' s :
  tidy h -> extends h h' -> keeps s h h' -> inherited h' s = inherited h s.
Proof.
  intros Htidy Hext Hkeep. pose proof Htidy as (_ & Hch & _).
  destruct (tidy_builtin h Realm.ObjectPrototype Htidy) as [o Ho];
    [set_solver|].
  unfold inherited. pose proof (Hch _ o Ho) as Hends.
  rewrite (chain_ends_find _ (size h) (size h') h' _);
    [|by eapply chain_ends_extends | by apply extends_size].
  by rewrite (chain_find_extends _ h h' _ s Hext Hkeep Hends).
Qed.

(** The method names listed for a role are the same when the heap was
    extended, the property of the role was kept, and the arrays are as they
    were. *)
Lemma methods_in_extends h h' t rn :
  tidy h -> extends h h' -> keeps rn h h' ->
  (forall a o, h !! a = Some o ->
     (exists lo oo, h !! lo = Some oo /\ o_props oo !! rn = Some (VRef a)) ->
     exists o', h' !! a = Some o' /\ o_items o' = o_items o) ->
  value_in h t ->
  methods_in h' t rn = methods_in h t rn.
Proof.
  intros Htidy Hext Hkeep Hitems Hin. unfold methods_in.
  destruct (truthy t); [|done].
  rewrite (get_prop_extends h h' t rn Htidy Hext Hkeep Hin).
  destruct (get_prop h t rn) as [x|] eqn:Hx; [|done]. cbn [bind].
  destruct (truthy x) eqn:Htruthy; [|done].
  destruct x as [| | | | |a]; try done. simpl.
  assert (exists lo oo, h !! lo = Some oo /\ o_props oo !! rn = Some (VRef a))
    as Hslot.
  { destruct t; simpl in Hx; simplify_eq;
      by eapply get_from_slot. }
  pose proof (get_prop_value_in h t rn _ Htidy Hx) as [o Ha].
  destruct (Hitems a o Ha Hslot) as (o' & Ha' & Hi).
  rewrite Ha, Ha'. simpl. by rewrite Hi.
Qed.

(** ** [get_table] with [create] *)

Lemma get_table_create_cases p h v p1 h1 t :
  get_table p h v true = Ok (p1, h1, t) ->
  (forall l, v = VRef l ->
     is_callable h (get_from h l "hasOwnProperty") = true) /\
  ((p1 = p /\ h1 = h /\
    (own_table p h v = Some t \/
     exists s, v = VStr s /\ STRINGS p !! s = None /\
               inherited h s = Some t)) \/
   (own_table p h v = None /\ t = VRef (fresh_loc h) /\
    ((exists s, v = VStr s /\ inherited h s = None /\
                p1 = set_STRINGS p (<[s := t]> (STRINGS p)) /\
                h1 = <[fresh_loc h := empty_object]> h) \/
     (exists n, v = VNum n /\
                p1 = set_NUMBERS p (<[n := t]> (NUMBERS p)) /\
                h1 = <[fresh_loc h := empty_object]> h) \/
     (exists l o, v = VRef l /\ p1 = p /\ h !! l = Some o /\
                  o_extensible o = true /\
                  h1 = set_own (<[fresh_loc h := empty_object]> h) l
                         "__roles__" t)))).
Proof.
  destruct v as [| |b|n|s|l]; simpl; intros Hg.
  - done.
  - simplify_eq. split; [done|]. left. split; [done|]. split; [done|]. by left.
  - simplify_eq. split; [done|]. left. split; [done|]. split; [done|]. by left.
  - split; [done|]. destruct (NUMBERS p !! n) as [t0|] eqn:Hn.
    + simplify_eq. left. split; [done|]. split; [done|]. by left.
    + simplify_eq. right. split; [done|]. split; [done|]. right. left. by exists n.
  - split; [done|]. destruct (STRINGS p !! s) as [t0|] eqn:Hs.
    + simplify_eq. left. split; [done|]. split; [done|]. by left.
    + destruct (inherited h s) as [t0|] eqn:Hi.
      * simplify_eq. left. split; [done|]. split; [done|]. right. by exists s.
      * simplify_eq. right. split; [done|]. split; [done|]. left. by exists s.
  - destruct (is_callable h (get_from h l "hasOwnProperty")) eqn:Hc;
      [|done].
    split; [by intros ? [= <-]|]. simpl in Hg. unfold has_own in Hg.
    destruct (h !! l) as [o|] eqn:Hl; simpl in Hg.
    + destruct (o_props o !! "__roles__") as [t0|] eqn:Hr.
      * rewrite bool_decide_eq_true_2 in Hg by eauto. simpl in Hg.
        simplify_eq. left. split; [done|]. split; [done|]. left. simpl.
        rewrite Hr. f_equal. symmetry.
        by apply (get_from_own _ l o).
      * rewrite bool_decide_eq_false_2 in Hg by (by intros [? ?]).
        simpl in Hg. unfold define_property in Hg.
        rewrite (alloc_lookup h empty_object l o Hl) in Hg.
        destruct (o_extensible o) eqn:He; [|done]. simpl in Hg.
        simplify_eq. right.
        assert (get_from (set_own (<[fresh_loc h := empty_object]> h) l
                            "__roles__" (VRef (fresh_loc h))) l "__roles__"
                = VRef (fresh_loc h)) as Hget.
        { eapply get_from_own.
          - apply set_own_lookup_eq. by apply alloc_lookup.
          - simpl. by rewrite lookup_insert_eq. }
        rewrite Hget. split; [simpl; exact Hr|].
        split; [done|]. right. right. by exists l, o.
    + simpl in Hg. unfold define_property in Hg.
      rewrite lookup_insert_ne in Hg.
      * by rewrite Hl in Hg.
      * intros Heq. unfold get_from in Hc.
        destruct (size h); simpl in Hc; [done|]. by rewrite Hl in Hc.
Qed.

Lemma tidy_alloc_object h : tidy h -> tidy (<[fresh_loc h := empty_object]> h).
Proof.
  intros Htidy. apply tidy_alloc; [done..|].
  exists Realm.ObjectPrototype. split; [done|]. set_solver.
Qed.

Lemma tidy_alloc_array h : tidy h -> tidy (<[fresh_loc h := empty_array]> h).
Proof.
  intros Htidy. apply tidy_alloc; [done..|].
  exists Realm.ArrayPrototype. split; [done|]. set_solver.
Qed.

Lemma value_in_fresh (h : heap) o : value_in (<[fresh_loc h := o]> h) (VRef (fresh_loc h)).
Proof. simpl. rewrite lookup_insert_eq. by eexists. Qed.

(** What [get_table(value, true)] changes. *)
Lemma get_table_create_spec p h v p1 h1 t :
  tidy h -> proc_in p h -> get_table p h v true = Ok (p1, h1, t) ->
  tidy h1 /\ proc_in p1 h1 /\ extends h h1 /\ value_in h1 t /\
  (forall key, key <> "__roles__" -> keeps key h h1) /\
  (forall a o, h !! a = Some o ->
     exists o', h1 !! a = Some o' /\ o_items o' = o_items o /\
       forall t0, o_props o !! "__roles__" = Some t0 ->
                  o_props o' !! "__roles__" = Some t0) /\
  (forall v' t0, own_table p h v' = Some t0 -> own_table p1 h1 v' = Some t0) /\
  (own_table p1 h1 v = Some t \/
   exists s, v = VStr s /\ STRINGS p1 !! s = None /\
             inherited h1 s = Some t).
Proof.
  intros Htidy Hproc Hg.
  destruct (get_table_create_cases _ _ _ _ _ _ Hg) as [_ Hcases].
  assert (forall a o, h !! a = Some o ->
            exists o', h !! a = Some o' /\ o_items o' = o_items o /\
              forall t0, o_props o !! "__roles__" = Some t0 ->
                         o_props o' !! "__roles__" = Some t0) as Hsame
    by (intros a o Ha; exists o; by repeat split).
  destruct Hcases as [(-> & -> & Hown)|(Hnone & -> & Hnew)].
  { split; [done|]. split; [done|]. split; [apply extends_refl|]. split.
    - destruct Hown as [Hown|(s & -> & Hs & Hi)].
      + destruct Hproc as (Hs & Hn & Ht & Hf & Hnull).
        destruct v as [| |[]|n|s|l]; simpl in Hown; simplify_eq; eauto.
        destruct (h !! l) as [o|] eqn:Hl; [|done]. simpl in Hown.
        pose proof Htidy as (_ & _ & Hv & _). by eapply Hv.
      + by eapply inherited_value_in.
    - split; [intros; apply keeps_refl|]. split; [done|]. split; [done|].
      destruct Hown as [?|(s & -> & ? & ?)]; [by left|right; by exists s]. }
  pose proof (tidy_alloc_object h Htidy) as Htidy'.
  pose proof (alloc_extends h empty_object) as Hext.
  pose proof (fresh_loc_fresh h) as Hfresh.
  assert (forall a o, h !! a = Some o ->
            exists o', <[fresh_loc h := empty_object]> h !! a = Some o' /\
              o_items o' = o_items o /\
              forall t0, o_props o !! "__roles__" = Some t0 ->
                         o_props o' !! "__roles__" = Some t0) as Halloc.
  { intros a o Ha. exists o. split; [by apply alloc_lookup|]. by split. }
  destruct Hnew as [(s & -> & Hi & -> & ->)|[(n & -> & -> & ->)|
                    (l & o & -> & -> & Hl & He & ->)]].
  - split; [done|]. split.
    { destruct (proc_in_extends p h _ Hext Hproc) as (Hs & Hn & Ht & Hf & Hnull).
      repeat split; try done. simpl. intros s' t'.
      destruct (decide (s' = s)) as [->|Hne].
      - rewrite lookup_insert_eq. intros [= <-]. apply value_in_fresh.
      - rewrite lookup_insert_ne by done. apply Hs. }
    split; [done|]. split; [apply value_in_fresh|].
    split; [intros; apply alloc_keeps|]. split; [done|]. split.
    + intros v' t0. destruct v' as [| |b|n|s'|l]; simpl; try done.
      * intros Hs'. rewrite lookup_insert_ne; [done|].
        intros <-. simpl in Hnone. congruence.
      * destruct (h !! l) as [o|] eqn:Hl; [|done].
        by rewrite (alloc_lookup h empty_object l o Hl).
    + left. simpl. by rewrite lookup_insert_eq.
  - split; [done|]. split.
    { destruct (proc_in_extends p h _ Hext Hproc) as (Hs & Hn & Ht & Hf & Hnull).
      repeat split; try done. simpl. intros n' t'.
      destruct (decide (n' = n)) as [->|Hne].
      - rewrite lookup_insert_eq. intros [= <-]. apply value_in_fresh.
      - rewrite lookup_insert_ne by done. apply Hn. }
    split; [done|]. split; [apply value_in_fresh|].
    split; [intros; apply alloc_keeps|]. split; [done|]. split.
    + intros v' t0. destruct v' as [| |b|n'|s'|l]; simpl; try done.
      * intros Hn'. rewrite lookup_insert_ne; [done|].
        intros <-. simpl in Hnone. congruence.
      * destruct (h !! l) as [o|] eqn:Hl; [|done].
        by rewrite (alloc_lookup h empty_object l o Hl).
    + left. simpl. by rewrite lookup_insert_eq.
  - pose proof (alloc_lookup h empty_object l o Hl) as Hl'.
    pose proof (set_own_extends (<[fresh_loc h := empty_object]> h) l
                  "__roles__" (VRef (fresh_loc h))) as Hext'.
    assert (tidy (set_own (<[fresh_loc h := empty_object]> h) l "__roles__"
                    (VRef (fresh_loc h)))) as Htidy''.
    { eapply tidy_set_own; [done|done|apply value_in_fresh|].
      intros a l' o' key' [= <-] Harr. unfold is_array in Harr.
      rewrite lookup_insert_eq in Harr. simpl in Harr. by destruct Harr. }
    split; [done|]. split.
    { eapply proc_in_extends; [exact Hext'|]. by eapply proc_in_extends. }
    split; [by eapply extends_trans|]. split.
    { eapply value_in_extends; [exact Hext'|]. apply value_in_fresh. }
    split.
    { intros key Hkey. eapply keeps_trans; [done|apply alloc_keeps|].
      by apply set_own_keeps. }
    split.
    + intros a oa Ha. pose proof (alloc_lookup h empty_object a oa Ha) as Ha'.
      destruct (decide (a = l)) as [->|Hne].
      * rewrite (set_own_lookup_eq _ l _ _ _ Ha'). eexists. split; [done|].
        split; [done|]. intros t0 Ht0. simplify_eq. simpl in Hnone.
        rewrite Hl in Hnone. simpl in Hnone. congruence.
      * rewrite set_own_lookup_ne by done. exists oa. by repeat split.
    + split.
      * intros v' t0. destruct v' as [| |b|n'|s'|l0]; simpl; try done.
        destruct (h !! l0) as [o0|] eqn:Hl0; [|done]. simpl. intros Ht0.
        pose proof (alloc_lookup h empty_object l0 o0 Hl0) as Hl0'.
        destruct (decide (l0 = l)) as [->|Hne].
        -- simplify_eq. simpl in Hnone. rewrite Hl in Hnone.
           simpl in Hnone. congruence.
        -- by rewrite set_own_lookup_ne, Hl0' by done.
      * left. simpl. rewrite (set_own_lookup_eq _ l _ _ _ Hl'). simpl.
        by rewrite lookup_insert_eq.
Qed.

(** After [get_table(value, true)], asking again returns the same table and
    changes nothing. *)
Lemma get_table_create_again p h v p1 h1 t create :
  tidy h -> proc_in p h -> get_table p h v true = Ok (p1, h1, t) ->
  get_table p1 h1 v create = Ok (p1, h1, t).
Proof.
  intros Htidy Hproc Hg.
  destruct (get_table_create_cases _ _ _ _ _ _ Hg) as [Hcall _].
  destruct (get_table_create_spec _ _ _ _ _ _ Htidy Hproc Hg)
    as (_ & _ & Hext & _ & Hkeep & _ & _ & Hown).
  destruct Hown as [Hown|(s & -> & Hs & Hi)];
    [|by simpl; rewrite Hs, Hi].
  destruct v as [| |b|n|s|l]; simpl in Hown |- *; try done.
  - by simplify_eq.
  - by simplify_eq.
  - by rewrite Hown.
  - by rewrite Hown.
  - destruct (h1 !! l) as [o1|] eqn:Hl1; [|done]. simpl in Hown.
    assert (is_callable h1 (get_from h1 l "hasOwnProperty") = true) as Hc.
    { specialize (Hcall l eq_refl).
      assert (is_Some (h !! l)) as [o Hl].
      { unfold get_from in Hcall. destruct (size h); [done|].
        simpl in Hcall. destruct (h !! l); [eauto|done]. }
      pose proof Htidy as (_ & Hch & _).
      rewrite (get_from_extends h h1 l o "hasOwnProperty" Hch Hext
                 (Hkeep "hasOwnProperty" ltac:(discriminate)) Hl).
      by apply (is_callable_extends h). }
    rewrite Hc. simpl. unfold has_own. rewrite Hl1.
    rewrite bool_decide_eq_true_2 by eauto. rewrite andb_false_r. simpl.
    by rewrite (get_from_own h1 l o1 _ _ Hl1 Hown).
Qed.

(** ** The rank records of a lookup *)

Lemma vector_get_Some v i x :
  vector_get v i = Some x <-> v !! i = Some (Some x).
Proof. unfold vector_get. destruct (v !! i) as [[?|]|]; naive_solver. Qed.

Lemma vector_get_set v i d j :
  vector_get (vector_set v i d) j
  = if decide (j = i) then Some d else vector_get v j.
Proof.
  apply option_eq. intros x. rewrite vector_get_Some, vector_set_lookup.
  case_decide as Hj.
  - subst. naive_solver.
  - rewrite vector_get_Some. naive_solver.
Qed.

Lemma last_dist_snoc evs ev m i :
  last_dist (evs ++ [ev]) m i
  = if decide (ev_key ev = (i, m)) then Some (ev_dist ev)
    else last_dist evs m i.
Proof.
  unfold last_dist. rewrite filter_app, filter_cons, filter_nil.
  case_decide.
  - by rewrite last_snoc.
  - by rewrite app_nil_r.
Qed.

(** Each match overwrites the entry of its position. *)
Lemma fold_vector_get len evs st m i :
  vector_get
    (vector (default (Rank 0 [])
               ((fold_left (rank_step len) evs st).1 !! m))) i
  = match last_dist evs m i with
    | Some d => Some d
    | None => vector_get (vector (default (Rank 0 []) (st.1 !! m))) i
    end.
Proof.
  induction evs as [|[[i' d'] m'] evs IH] using rev_ind; [done|].
  rewrite fold_left_app, last_dist_snoc. cbn [fold_left].
  rewrite rank_step_ranks. unfold ev_key, ev_pos, ev_method, ev_dist.
  cbn [fst snd]. destruct (decide (m' = m)) as [->|Hm].
  - rewrite lookup_insert_eq. unfold bump. cbn [default id vector].
    rewrite vector_get_set. destruct (decide (i = i')) as [->|Hi].
    + by rewrite decide_True.
    + rewrite decide_False by congruence. exact IH.
  - rewrite lookup_insert_ne by done.
    rewrite decide_False by congruence. exact IH.
Qed.

(** X11.  The rank record of a method after a lookup whose walks all
    complete: [filled] is the number of matches met for the method, at
    whatever positions, and [vector[i]] is the distance of the last match
    met for position [i], since a match overwrites the entry of an earlier
    match at that position; a method that was never met has no record. *)
Theorem rank_record_after_lookup p h args evs st m :
  events_of p h args = Some evs ->
  lookup_state p h args = Ok st ->
  match ranks st !! m with
  | Some r =>
      filled r = count_of m evs /\ 0 < count_of m evs /\
      forall i, vector_get (vector r) i = last_dist evs m i
  | None => count_of m evs = 0
  end.
Proof.
  intros Hev Hst. rewrite (lookup_state_fold _ _ _ _ Hev) in Hst.
  injection Hst as <-. cbn [ranks].
  pose proof (fold_filled_of (length args) evs (∅, None) m) as Hf.
  pose proof (fold_vector_get (length args) evs (∅, None) m) as Hv.
  unfold filled_of in Hf. cbn [fst] in Hf, Hv.
  rewrite lookup_empty in Hf, Hv. simpl in Hf.
  destruct ((fold_left _ evs _).1 !! m) as [r|] eqn:Hr.
  - split; [done|]. split.
    + destruct (decide (count_of m evs = 0)) as [Hz|]; [|lia]. exfalso.
      assert (forall evs' (st0 : gmap string rank * option string),
                count_of m evs' = 0 ->
                (fold_left (rank_step (length args)) evs' st0).1 !! m
                = st0.1 !! m) as Hkeep.
      { clear. induction evs' as [|[[i d] m'] evs' IH]; intros st0 Hc;
          [done|].
        unfold count_of in Hc. rewrite filter_cons in Hc.
        unfold ev_method in Hc at 1. cbn [snd] in Hc.
        case_decide as Hm; [done|]. cbn [fold_left].
        rewrite (IH _ Hc), rank_step_ranks. by rewrite lookup_insert_ne. }
      rewrite (Hkeep evs (∅, None) Hz) in Hr. cbn [fst] in Hr.
      by rewrite lookup_empty in Hr.
    + intros i. specialize (Hv i). cbn [default id] in Hv. rewrite Hv.
      by destruct (last_dist evs m i).
  - lia.
Qed.

Lemma rank_record_witness :
  (events_of (the_proc double_count_program) (the_heap double_count_program)
     [VRef Realm.ANY; VNum 5] = Some [(0, 0, "f_1"); (0, 2, "f_1")] /\
   exists st,
     lookup_state (the_proc double_count_program)
       (the_heap double_count_program) [VRef Realm.ANY; VNum 5] = Ok st /\
     ranks st !! "f_1" = Some (Rank 2 [Some 2])) /\
  2 = count_of "f_1" [(0, 0, "f_1"); (0, 2, "f_1")] /\
  vector_get [Some 2] 0 = last_dist [(0, 0, "f_1"); (0, 2, "f_1")] "f_1" 0.
Proof.
  assert (events_of (the_proc double_count_program)
            (the_heap double_count_program) [VRef Realm.ANY; VNum 5]
          = Some [(0, 0, "f_1"); (0, 2, "f_1")]) as Hev
    by (vm_compute; reflexivity).
  assert (lookup_state (the_proc double_count_program)
            (the_heap double_count_program) [VRef Realm.ANY; VNum 5]
          = Ok (LState
                  (fold_left (rank_step 2) [(0, 0, "f_1"); (0, 2, "f_1")]
                     (∅, None)).1 []
                  (fold_left (rank_step 2) [(0, 0, "f_1"); (0, 2, "f_1")]
                     (∅, None)).2)) as Hst
    by exact (lookup_state_fold _ _ _ _ Hev).
  assert (ranks (LState
            (fold_left (rank_step 2) [(0, 0, "f_1"); (0, 2, "f_1")]
               (∅, None)).1 []
            (fold_left (rank_step 2) [(0, 0, "f_1"); (0, 2, "f_1")]
               (∅, None)).2) !! "f_1" = Some (Rank 2 [Some 2])) as Hr
    by (vm_compute; reflexivity).
  split; [split; [exact Hev | eexists; split; [exact Hst | exact Hr]]|].
  pose proof (rank_record_after_lookup _ _ _ _ _ "f_1" Hev Hst) as Hrec.
  rewrite Hr in Hrec. destruct Hrec as (Hf & _ & Hv).
  split; [exact Hf | exact (Hv 0)].
Defined.

(** ** Calls with one argument *)

Lemma head_trail_events i position tr :
  ev_method <$> head (trail_events i position tr) = head (concat tr.*2).
Proof.
  revert position. induction tr as [|[e ms] tr IH]; intros position; [done|].
  simpl. destruct ms as [|m ms]; simpl; [apply IH | done].
Qed.

(** The selection of a call with one argument. *)
Lemma unary_lookup_spec p h v tr :
  trail p h 0 max_steps (Entry v true) = Some tr ->
  "" ∉ concat tr.*2 ->
  (exists st, lookup_state p h [v] = Ok st /\
              mostspecificmethod st = head (concat tr.*2)) /\
  dispatch p h [v]
  = match METHODS p !! method_key (head (concat tr.*2)) with
    | Some b => Ok (b [v])
    | None => Throw NoApplicableMethod
    end.
Proof.
  intros Htr Hnames.
  assert (events_of p h [v] = Some (trail_events 0 0 tr)) as Hev.
  { unfold events_of. cbn [events_from]. rewrite Htr. by rewrite app_nil_r. }
  pose proof (trail_length _ _ _ _ _ _ Htr) as Hlen.
  pose proof (trail_events_sorted 0 tr ltac:(unfold max_steps in *; lia))
    as Hsorted.
  pose proof (head_trail_events 0 0 tr) as Hhead.
  assert ((fold_left (rank_step 1) (trail_events 0 0 tr) (∅, None)).2
          = head (concat tr.*2)) as Hsel.
  { rewrite <-Hhead.
    destruct (trail_events 0 0 tr) as [|[[i1 d1] m1] evs] eqn:Hevs; [done|].
    destruct Hsorted as (_ & Hd1 & Hi1 & Hsorted).
    unfold ev_dist, ev_pos in Hd1, Hi1, Hsorted.
    simpl in Hd1, Hi1, Hsorted. subst i1.
    apply unary_first; [|done..].
    intros ->. apply Hnames. simpl in Hhead.
    destruct (concat tr.*2) as [|m0 ms]; simplify_eq/=. by left. }
  unfold dispatch, lookup. rewrite (lookup_state_fold _ _ _ _ Hev).
  cbn [bind mostspecificmethod length]. rewrite Hsel.
  split; [eexists; by split|]. done.
Qed.


(** X12.  A call with one argument whose walk completes selects the first
    method name of the nearest owner that lists any: the closest owner
    wins, among the methods of one owner the one registered first, and
    nothing is selected when no owner lists a method.  [dispatch] applies
    the body stored under that name, if there is one. *)
Theorem unary_lookup_selects_first_method p h v tr :
  trail p h 0 max_steps (Entry v true) = Some tr ->
  "" ∉ concat tr.*2 ->
  (exists st, lookup_state p h [v] = Ok st /\
              mostspecificmethod st = head (concat tr.*2)) /\
  dispatch p h [v]
  = match METHODS p !! method_key (head (concat tr.*2)) with
    | Some b => Ok (b [v])
    | None => Throw NoApplicableMethod
    end.
Proof. apply unary_lookup_spec. Qed.

Lemma unary_lookup_witness :
  (trail (the_proc super_three_program) (the_heap super_three_program) 0
     max_steps (Entry (VRef Types.a_super) true)
   = Some [(Entry (VRef Types.a_super) true, []);
           (Entry (VRef Types.Super) false, ["f_1"; "f_2"]);
           (root_entry, [])] /\
   "" ∉ ["f_1"; "f_2"]) /\
  dispatch (the_proc super_three_program) (the_heap super_three_program)
    [VRef Types.a_super] = Ok (VStr "A").
Proof.
  assert (trail (the_proc super_three_program)
            (the_heap super_three_program) 0 max_steps
            (Entry (VRef Types.a_super) true)
          = Some [(Entry (VRef Types.a_super) true, []);
                  (Entry (VRef Types.Super) false, ["f_1"; "f_2"]);
                  (root_entry, [])]) as Htr by (vm_compute; reflexivity).
  assert ("" ∉ ["f_1"; "f_2"]) as Hnames.
  { intros Hin. repeat (apply elem_of_cons in Hin as [Hin|Hin];
                        [discriminate|]).
    inversion Hin. }
  split; [by split|].
  rewrite (proj2 (unary_lookup_selects_first_method _ _ _ _ Htr Hnames)).
  vm_compute. reflexivity.
Defined.

(** ** The walk of an instance of a top-level constructor *)

Lemma delegation_value h v c :
  get_prop h v "constructor" = Ok c ->
  delegation h (Entry v true) = Ok (Some (Entry c false)).
Proof.
  intros Hc. unfold delegation. cbn [isValue arg bind].
  by rewrite orb_true_r, Hc.
Qed.





(** ** The comparison of rank vectors *)

(** X14.  For two methods with a recorded rank at every position of their
    vectors, the comparison [rank.vector < ranks[m].vector], which
    JavaScript makes on the string conversions of the arrays, is the
    lexicographic order of the distances: a walk examines at most ten
    owners, so every recorded distance is a single digit. *)
Theorem recorded_vectors_compare_lexicographically
    p h args evs st m1 m2 r1 r2 ds1 ds2 :
  events_of p h args = Some evs ->
  lookup_state p h args = Ok st ->
  ranks st !! m1 = Some r1 -> ranks st !! m2 = Some r2 ->
  dense (vector r1) = Some ds1 -> dense (vector r2) = Some ds2 ->
  length ds1 = length ds2 ->
  vector_lt (vector r1) (vector r2) = lex_lt ds1 ds2.
Proof.
  intros Hev Hst Hr1 Hr2 Hd1 Hd2 Hlen.
  rewrite (lookup_state_fold _ _ _ _ Hev) in Hst. injection Hst as <-.
  cbn [ranks] in Hr1, Hr2.
  apply dense_Some in Hd1, Hd2. rewrite Hd1, Hd2.
  assert (forall m r ds,
            (fold_left (rank_step (length args)) evs (∅, None)).1 !! m
            = Some r ->
            vector r = Some <$> ds -> Forall (fun d => d < 10) ds) as Hdigits.
  { intros m r ds Hr Hv. apply Forall_forall. intros d Hin.
    apply list_elem_of_lookup_1 in Hin as [i Hi].
    assert (vector r !! i = Some (Some d)) as Hvi
      by (by rewrite Hv, list_lookup_fmap, Hi).
    destruct (fold_rank_event _ _ _ _ _ _ _ Hr Hvi)
      as [(r0 & Hr0 & _)|Hin].
    { cbn [fst] in Hr0. by rewrite lookup_empty in Hr0. }
    by destruct (events_of_bounds p h args evs _ Hev Hin) as [_ Hd]. }
  apply vector_lt_lex; [done | exact (Hdigits m1 r1 ds1 Hr1 Hd1)
                            | exact (Hdigits m2 r2 ds2 Hr2 Hd2)].
Qed.

Lemma recorded_vectors_witness :
  (events_of (the_proc lexical_program) (the_heap lexical_program)
     [VRef Types.a_sub; VRef Types.a_sub]
   = Some [(0, 1, "f_2"); (0, 3, "f_1"); (1, 1, "f_1"); (1, 3, "f_2")] /\
   exists st,
     lookup_state (the_proc lexical_program) (the_heap lexical_program)
       [VRef Types.a_sub; VRef Types.a_sub] = Ok st /\
     ranks st !! "f_2" = Some (Rank 2 [Some 1; Some 3]) /\
     ranks st !! "f_1" = Some (Rank 2 [Some 3; Some 1])) /\
  vector_lt [Some 1; Some 3] [Some 3; Some 1] = lex_lt [1; 3] [3; 1].
Proof.
  assert (events_of (the_proc lexical_program) (the_heap lexical_program)
            [VRef Types.a_sub; VRef Types.a_sub]
          = Some [(0, 1, "f_2"); (0, 3, "f_1"); (1, 1, "f_1"); (1, 3, "f_2")])
    as Hev by (vm_compute; reflexivity).
  pose proof (lookup_state_fold _ _ _ _ Hev) as Hst.
  assert (forall st,
            lookup_state (the_proc lexical_program)
              (the_heap lexical_program)
              [VRef Types.a_sub; VRef Types.a_sub] = Ok st ->
            ranks st !! "f_2" = Some (Rank 2 [Some 1; Some 3]) /\
            ranks st !! "f_1" = Some (Rank 2 [Some 3; Some 1])) as Hranks.
  { intros st Hst'. rewrite Hst in Hst'. injection Hst' as <-.
    split; vm_compute; reflexivity. }
  destruct (Hranks _ Hst) as [Hr2 Hr1].
  split; [split; [exact Hev | eexists; split; [exact Hst | by split]]|].
  exact (recorded_vectors_compare_lexicographically _ _ _ _ _ "f_2" "f_1"
           _ _ [1; 3] [3; 1] Hev Hst Hr2 Hr1 eq_refl eq_refl eq_refl).
Defined.

(** ** Arguments a walk cannot start from *)

Lemma visit_unwalkable p h len i position v st :
  unwalkable h v = true ->
  visit p h len i position (Entry v true) st = Throw TypeError.
Proof.
  destruct v as [| |b|n|s|l]; simpl; intros Hu; try done;
    try (apply visit_null_or_undefined; auto; fail).
  unfold visit, methods_at. cbn [arg get_table get_prop bind].
  by rewrite Hu.
Qed.

Lemma lookup_args_unwalkable p h len i args st v :
  v ∈ args -> unwalkable h v = true ->
  lookup_args p h len i args st = Throw TypeError.
Proof.
  intros Hin Hu. revert i st. induction args as [|a args IH]; intros i st.
  - by apply elem_of_nil in Hin.
  - cbn [lookup_args]. destruct (decide (a = v)) as [->|Ha].
    + change (walk p h len i max_steps 0 ?s) with
        (do st' <- visit p h len i 0 (Entry v true)
                     (LState (ranks s) (stack st) (mostspecificmethod s));
         walk p h len i 9 1 st').
      by rewrite visit_unwalkable.
    + apply elem_of_cons in Hin as [->|Hin]; [done|].
      pose proof (walk_type_error_only p h len i 10 0
        (LState (ranks st) (Entry a true :: stack st)
                (mostspecificmethod st))) as Hte.
      destruct (walk _ _ _ _ _ _ _) as [st'|e]; simpl.
      * by apply IH.
      * by rewrite (Hte e eq_refl).
Qed.

(** X15.  A call raises a TypeError whenever one of its arguments is
    [null], [undefined] or an object whose [hasOwnProperty] cannot be
    called, whatever the other arguments are and whatever is registered:
    neither a result nor the no-applicable-method condition. *)
Theorem unwalkable_argument_raises p h args v :
  v ∈ args -> unwalkable h v = true ->
  lookup p h args = Throw TypeError /\ dispatch p h args = Throw TypeError.
Proof.
  intros Hin Hu. unfold dispatch, lookup, lookup_state.
  by rewrite (lookup_args_unwalkable p h _ _ args _ v Hin Hu).
Qed.

Lemma unwalkable_argument_witness :
  (VRef bare ∈ [VNum 5; VRef bare] /\
   unwalkable (the_heap bare_program) (VRef bare) = true) /\
  raised bare_program = [None] /\
  call bare_program [VNum 5; VRef bare] = Throw TypeError.
Proof.
  assert (VRef bare ∈ [VNum 5; VRef bare]) as Hin
    by (apply elem_of_cons; right; apply list_elem_of_singleton; reflexivity).
  assert (unwalkable (the_heap bare_program) (VRef bare) = true) as Hu
    by (vm_compute; reflexivity).
  split; [by split|]. split; [vm_compute; reflexivity|].
  exact (proj2 (unwalkable_argument_raises (the_proc bare_program)
                  (the_heap bare_program) _ _ Hin Hu)).
Defined.

(** ** The stack of [lookup] *)

Lemma visit_stack p h len i position e st st' :
  visit p h len i position e st = Ok st' ->
  length (stack st') <= S (length (stack st)).
Proof.
  unfold visit. intros Hv.
  destruct (methods_at p h i e) as [ms|]; [|done]. cbn [bind] in Hv.
  destruct (match ms with Some _ => _ | None => _ end) as [[rk most]|];
    [|done].
  cbn [bind] in Hv. destruct (delegation h e) as [d|]; [|done].
  cbn [bind] in Hv. injection Hv as <-. cbn [stack].
  destruct d; simpl; lia.
Qed.

Lemma walk_stack p h len i budget position st st' :
  walk p h len i budget position st = Ok st' ->
  length (stack st') <= length (stack st).
Proof.
  revert position st. induction budget as [|budget IH]; intros position st Hw;
    simpl in Hw; [by simplify_eq|].
  destruct (stack st) as [|e rest] eqn:Hst; [by simplify_eq; rewrite Hst|].
  destruct (visit _ _ _ _ _ _ _) as [st1|] eqn:Hv; [|done].
  cbn [bind] in Hw. apply IH in Hw. apply visit_stack in Hv.
  simpl in *. lia.
Qed.

Lemma lookup_args_stack p h len i args st st' :
  lookup_args p h len i args st = Ok st' ->
  length (stack st') <= length (stack st) + length args.
Proof.
  revert i st. induction args as [|a args IH]; intros i st Hl;
    cbn [lookup_args] in Hl; [simplify_eq; lia|].
  destruct (walk _ _ _ _ _ _ _) as [st1|] eqn:Hw; [|done].
  cbn [bind] in Hl. apply IH in Hl. apply walk_stack in Hw.
  simpl in *. lia.
Qed.

(** X16.  The stack of [lookup] holds at most one delegate for every
    argument: an iteration pops one entry and pushes at most one.  When
    [lookup] returns, the stack holds at most as many entries as there are
    arguments, and none when no walk was cut off. *)
Theorem lookup_stack_is_bounded p h args st :
  lookup_state p h args = Ok st ->
  length (stack st) <= length args /\
  (is_Some (events_of p h args) -> stack st = []).
Proof.
  intros Hst. split.
  - apply lookup_args_stack in Hst. simpl in Hst. lia.
  - intros [evs Hev]. rewrite (lookup_state_fold _ _ _ _ Hev) in Hst.
    by injection Hst as <-.
Qed.

Lemma lookup_stack_witness :
  exists st,
    lookup_state (the_proc deep_program) (the_heap deep_program)
      [VRef Deep.deep] = Ok st /\
    stack st = [root_entry] /\
    length (stack st) <= length [VRef Deep.deep].
Proof.
  eassert (lookup_state (the_proc deep_program) (the_heap deep_program)
             [VRef Deep.deep] = Ok _) as Hst
    by (vm_compute; reflexivity).
  eexists. split; [exact Hst|]. split; [reflexivity|].
  exact (proj1 (lookup_stack_is_bounded _ _ _ _ Hst)).
Defined.

(** ** Procedures and their selectors *)

Lemma separator_gensym name1 name2 c1 c2 :
  (gensym name1 c1).1 = (gensym name2 c2).1 -> name1 = name2 /\ c1 = c2.
Proof.
  unfold gensym. cbn [fst]. intros Heq.
  change ("_" +:+ pretty c1) with (String underscore (pretty c1)) in Heq.
  change ("_" +:+ pretty c2) with (String underscore (pretty c2)) in Heq.
  apply separator_split in Heq as [-> Hc];
    [|by apply has_char_pretty_nat, not_a_digit_underscore..].
  split; [done|]. by apply (inj pretty).
Qed.

(** X17.  [procedure] starts from empty dictionaries, three new empty
    tables and a selector of its own: two procedures created at different
    values of the counter have different selectors, whatever their names,
    and no selector is the name of a method generated at another value of
    the counter. *)
Theorem procedure_selector_is_fresh name1 name2 c1 c2 h1 h2 :
  c1 <> c2 ->
  selector (procedure name1 c1 h1).1.1 <> selector (procedure name2 c2 h2).1.1 /\
  selector (procedure name1 c1 h1).1.1 <> (gensym name2 c2).1 /\
  (procedure name1 c1 h1).1.2 = S c1 /\
  METHODS (procedure name1 c1 h1).1.1 = ∅ /\
  STRINGS (procedure name1 c1 h1).1.1 = ∅ /\
  NUMBERS (procedure name1 c1 h1).1.1 = ∅ /\
  exists t f n,
    TRUE_TABLE (procedure name1 c1 h1).1.1 = VRef t /\
    FALSE_TABLE (procedure name1 c1 h1).1.1 = VRef f /\
    NULL_TABLE (procedure name1 c1 h1).1.1 = VRef n /\
    t <> f /\ t <> n /\ f <> n /\
    h1 !! t = None /\ h1 !! f = None /\ h1 !! n = None /\
    (procedure name1 c1 h1).2
    = <[n := empty_object]> (<[f := empty_object]> (<[t := empty_object]> h1)).
Proof.
  intros Hc. unfold procedure, alloc. cbn [gensym fst snd].
  split; [|split; [|split; [done|split; [done|split; [done|split; [done|]]]]]].
  - intros Heq.
    by apply (separator_gensym name1 name2 c1 c2) in Heq as [_ ?].
  - intros Heq.
    by apply (separator_gensym name1 name2 c1 c2) in Heq as [_ ?].
  - set (t := fresh_loc h1). set (ht := <[t := empty_object]> h1).
    set (f := fresh_loc ht). set (hf := <[f := empty_object]> ht).
    set (n := fresh_loc hf).
    pose proof (fresh_loc_fresh h1) as Ht. fold t in Ht.
    pose proof (fresh_loc_fresh ht) as Hf. fold f in Hf.
    pose proof (fresh_loc_fresh hf) as Hn. fold n in Hn.
    assert (t <> f) as Htf.
    { intros Heq. unfold ht in Hf. rewrite <-Heq in Hf.
      by rewrite lookup_insert_eq in Hf. }
    assert (f <> n) as Hfn.
    { intros Heq. unfold hf in Hn. rewrite <-Heq in Hn.
      by rewrite lookup_insert_eq in Hn. }
    assert (t <> n) as Htn.
    { intros Heq. unfold hf, ht in Hn. rewrite <-Heq in Hn.
      rewrite lookup_insert_ne in Hn by done.
      by rewrite lookup_insert_eq in Hn. }
    exists t, f, n. repeat split; try done.
    + unfold ht in Hf. by rewrite lookup_insert_ne in Hf.
    + unfold hf, ht in Hn. by rewrite !lookup_insert_ne in Hn.
Qed.

Lemma procedure_selector_witness :
  0 <> 2 /\
  selector (procedure "f" 0 initial_heap).1.1
  <> selector (procedure "f" 2 user_heap).1.1.
Proof.
  split; [lia|].
  exact (proj1 (procedure_selector_is_fresh "f" "f" 0 2 initial_heap user_heap
                  ltac:(lia))).
Defined.

(** ** The script [test.js] *)

Lemma trail_step p h i budget e :
  trail p h i (S budget) e
  = match methods_at p h i e, delegation h e with
    | Ok ms, Ok None => Some [(e, default [] ms)]
    | Ok ms, Ok (Some e') =>
        cons (e, default [] ms) <$> trail p h i budget e'
    | _, _ => None
    end.
Proof. reflexivity. Qed.

(** Whatever [STRINGS] inherits under a key, it has no list for the role
    of [print] at position 0. *)
Lemma script_inherited b1 b2 b3 s v :
  inherited (the_heap (script b1 b2 b3 2)) s = Some v ->
  methods_in (the_heap (script b1 b2 b3 2)) v "print_0:0" = Ok None.
Proof.
  unfold inherited.
  assert (exists n, size (the_heap (script b1 b2 b3 2)) = S n) as [n ->]
    by (eexists; vm_compute; reflexivity).
  cbn [chain_find].
  eassert (the_heap (script b1 b2 b3 2) !! Realm.ObjectPrototype = Some _)
    as -> by (vm_compute; reflexivity).
  match goal with
  | |- context [?m !! s] => destruct (m !! s) as [v0|] eqn:Hv0
  end; [|discriminate].
  intros [= <-]. apply elem_of_map_to_list in Hv0.
  vm_compute in Hv0.
  repeat (apply elem_of_cons in Hv0 as [Hv0|Hv0];
          [injection Hv0 as -> ->; vm_compute; reflexivity|]).
  exfalso. exact (proj1 (elem_of_nil _) Hv0).
Qed.

Lemma script_strings b1 b2 b3 s :
  s <> "foo" ->
  trail (the_proc (script b1 b2 b3 2)) (the_heap (script b1 b2 b3 2)) 0
    max_steps (Entry (VStr s) true)
  = Some [(Entry (VStr s) true, []);
          (Entry (VRef Realm.String) false, ["print_1"]);
          (root_entry, [])].
Proof.
  intros Hs.
  eassert (STRINGS (the_proc (script b1 b2 b3 2)) = <["foo" := _]> ∅)
    as Hstrings by (vm_compute; reflexivity).
  assert (rolename (the_proc (script b1 b2 b3 2)) 0 = "print_0:0") as Hrn
    by (vm_compute; reflexivity).
  assert (methods_at (the_proc (script b1 b2 b3 2))
            (the_heap (script b1 b2 b3 2)) 0 (Entry (VStr s) true)
          = Ok None) as Hat.
  { unfold methods_at. cbn [arg get_table]. rewrite Hstrings, Hrn.
    rewrite lookup_insert_ne by done. rewrite lookup_empty.
    destruct (inherited _ s) as [v|] eqn:Hv; cbn [bind snd]; [|done].
    exact (script_inherited b1 b2 b3 s v Hv). }
  assert (delegation (the_heap (script b1 b2 b3 2)) (Entry (VStr s) true)
          = Ok (Some (Entry (VRef Realm.String) false))) as Hd
    by (apply delegation_value; vm_compute; reflexivity).
  unfold max_steps. rewrite trail_step, Hat, Hd.
  assert (trail (the_proc (script b1 b2 b3 2))
            (the_heap (script b1 b2 b3 2)) 0 9
            (Entry (VRef Realm.String) false)
          = Some [(Entry (VRef Realm.String) false, ["print_1"]);
                  (root_entry, [])]) as -> by (vm_compute; reflexivity).
  done.
Qed.

Lemma script_numbers b1 b2 b3 n :
  trail (the_proc (script b1 b2 b3 3)) (the_heap (script b1 b2 b3 3)) 0
    max_steps (Entry (VNum n) true)
  = Some [(Entry (VNum n) true, []);
          (Entry (VRef Realm.Number) false, []);
          (root_entry, [])].
Proof.
  assert (NUMBERS (the_proc (script b1 b2 b3 3)) = ∅) as Hnumbers
    by (vm_compute; reflexivity).
  assert (methods_at (the_proc (script b1 b2 b3 3))
            (the_heap (script b1 b2 b3 3)) 0 (Entry (VNum n) true)
          = Ok None) as Hat.
  { unfold methods_at. cbn [arg get_table]. rewrite Hnumbers.
    by rewrite lookup_empty. }
  assert (delegation (the_heap (script b1 b2 b3 3)) (Entry (VNum n) true)
          = Ok (Some (Entry (VRef Realm.Number) false))) as Hd
    by (apply delegation_value; vm_compute; reflexivity).
  unfold max_steps. rewrite trail_step, Hat, Hd.
  assert (trail (the_proc (script b1 b2 b3 3))
            (the_heap (script b1 b2 b3 3)) 0 9
            (Entry (VRef Realm.Number) false)
          = Some [(Entry (VRef Realm.Number) false, []);
                  (root_entry, [])]) as -> by (vm_compute; reflexivity).
  done.
Qed.

(** X18.  The script [test.js], whatever its three bodies are: after
    [print.method(String, b1)] the call [print("foo")] applies [b1]; after
    [print.method('foo', b2)] a call with a string applies [b2] to ['foo']
    and [b1] to every other string; and after [print.method(Object, b3)]
    a call with a number, as [print(3)], raises the no-applicable-method
    condition, since the walk of a number goes to [Number] and [ANY] and
    not to [Object]. *)
Theorem test_script b1 b2 b3 :
  raised (script b1 b2 b3 3) = [None; None; None] /\
  call (script b1 b2 b3 1) [VStr "foo"] = Ok (b1 [VStr "foo"]) /\
  (forall s, call (script b1 b2 b3 2) [VStr s]
             = Ok ((if decide (s = "foo") then b2 else b1) [VStr s])) /\
  (forall n, call (script b1 b2 b3 3) [VNum n] = Throw NoApplicableMethod).
Proof.
  split; [vm_compute; reflexivity|]. split; [vm_compute; reflexivity|].
  split.
  - intros s. case_decide as Hs; [subst; vm_compute; reflexivity|].
    unfold call.
    rewrite (proj2 (unary_lookup_spec _ _ _ _
                      (script_strings b1 b2 b3 s Hs)
                      ltac:(simpl; intros Hin;
                            apply list_elem_of_singleton in Hin;
                            discriminate))).
    vm_compute. reflexivity.
  - intros n. unfold call.
    rewrite (proj2 (unary_lookup_spec _ _ _ _
                      (script_numbers b1 b2 b3 n)
                      ltac:(simpl; intros Hin; inversion Hin))).
    vm_compute. reflexivity.
Qed.
